(** * Topolizer: geometry, connection layout and persistence

    A shallow embedding of the diagram editor's core (bounding boxes,
    connection anchors, connection labels, alignment and distribution,
    shape deletion, the label-id migration and the id counters) and of the
    gestures around it (creating and deleting connections, dragging shapes,
    selections and labels, resizing, duplicating, zooming), followed by the
    properties established for it.

    Conventions of the embedding.
    - A JavaScript number is a value of [num]: a finite real, one of the two
      infinities, or NaN.  Finite arithmetic is exact (binary64 rounding and
      overflow are not modelled, nor is the sign of zero); the special values
      follow IEEE-754.  The only zero divisors the code produces come out of
      [Math.abs], so a zero divisor stands for +0.
    - The positional attributes of a shape element are parsed, finite
      numbers, hence reals.
    - The DOM is a finite map from element ids to typed nodes (shape,
      connection group, connection label): an id looked up as a shape, as a
      connection or as a label resolves when the node under it is of that
      type.  The text labels attached to basic shapes are found through
      their [data-shape-id] and live in a second map keyed by the owning
      shape id.
    - [getBBox], [Math.atan2], [Math.cos], [Math.sin] and [Math.sqrt] are
      the platform's; they are taken from their specifications.
    - Persistence ([saveAppState]) writes no state the properties look at
      and is left out. *)

From Stdlib Require Import Reals Lra Psatz String Ascii List Sorted.
From Stdlib Require Import DecimalString DecimalPos DecimalN.
From stdpp Require Import base option list gmap strings.

Open Scope R_scope.

(** ** JavaScript numbers *)

Inductive num : Type :=
| Fin (r : R)
| PInf
| NInf
| NaN.

Definition signed (r : R) (pos neg : num) : num :=
  if Rlt_dec 0 r then pos else if Rlt_dec r 0 then neg else NaN.

Definition js_neg (a : num) : num :=
  match a with
  | Fin x => Fin (- x)
  | PInf => NInf
  | NInf => PInf
  | NaN => NaN
  end.

Definition js_abs (a : num) : num :=
  match a with
  | Fin x => Fin (Rabs x)
  | PInf | NInf => PInf
  | NaN => NaN
  end.

Definition js_add (a b : num) : num :=
  match a, b with
  | NaN, _ | _, NaN => NaN
  | Fin x, Fin y => Fin (x + y)
  | PInf, NInf | NInf, PInf => NaN
  | PInf, _ | _, PInf => PInf
  | NInf, _ | _, NInf => NInf
  end.

Definition js_sub (a b : num) : num := js_add a (js_neg b).

Definition js_mul (a b : num) : num :=
  match a, b with
  | NaN, _ | _, NaN => NaN
  | Fin x, Fin y => Fin (x * y)
  | Fin x, PInf | PInf, Fin x => signed x PInf NInf
  | Fin x, NInf | NInf, Fin x => signed x NInf PInf
  | PInf, PInf | NInf, NInf => PInf
  | PInf, NInf | NInf, PInf => NInf
  end.

Definition js_div (a b : num) : num :=
  match a, b with
  | NaN, _ | _, NaN => NaN
  | Fin x, Fin y => if Req_dec_T y 0 then signed x PInf NInf else Fin (x / y)
  | Fin _, PInf | Fin _, NInf => Fin 0
  | PInf, Fin y => if Rlt_dec y 0 then NInf else PInf
  | NInf, Fin y => if Rlt_dec y 0 then PInf else NInf
  | _, _ => NaN
  end.

(** [Math.min] of two arguments. *)
Definition js_min (a b : num) : num :=
  match a, b with
  | NaN, _ | _, NaN => NaN
  | NInf, _ | _, NInf => NInf
  | PInf, c | c, PInf => c
  | Fin x, Fin y => Fin (Rmin x y)
  end.

(** [Math.atan2] on finite arguments. *)
Definition atan2 (y x : R) : R :=
  if Rlt_dec 0 x then atan (y / x)
  else if Rlt_dec x 0 then
         if Rlt_dec y 0 then atan (y / x) - PI else atan (y / x) + PI
       else if Rlt_dec 0 y then PI / 2
            else if Rlt_dec y 0 then - (PI / 2) else 0.

Definition js_atan2 (y x : num) : num :=
  match y, x with
  | NaN, _ | _, NaN => NaN
  | Fin b, Fin a => Fin (atan2 b a)
  | Fin _, PInf => Fin 0
  | Fin b, NInf => if Rlt_dec b 0 then Fin (- PI) else Fin PI
  | PInf, Fin _ => Fin (PI / 2)
  | NInf, Fin _ => Fin (- (PI / 2))
  | PInf, PInf => Fin (PI / 4)
  | PInf, NInf => Fin (3 * PI / 4)
  | NInf, PInf => Fin (- (PI / 4))
  | NInf, NInf => Fin (- (3 * PI / 4))
  end.

Definition js_cos (a : num) : num :=
  match a with Fin x => Fin (cos x) | _ => NaN end.

Definition js_sin (a : num) : num :=
  match a with Fin x => Fin (sin x) | _ => NaN end.

(** [parseFloat(attr) || d]: the default replaces NaN (here [None]) and 0. *)
Definition or_default (o : option R) (d : R) : R :=
  match o with
  | Some v => if Req_dec_T v 0 then d else v
  | None => d
  end.

(** Truthiness of an attribute read with [getAttribute]: present and not
    the empty string. *)
Definition truthy (o : option string) : bool :=
  match o with
  | Some s => negb (String.eqb s EmptyString)
  | None => false
  end.

(** ** Shape elements *)

Record box : Type := mkBox {
  box_x : R;
  box_y : R;
  box_width : R;
  box_height : R
}.

Record segment : Type := mkSegment {
  seg_x1 : R;
  seg_y1 : R;
  seg_x2 : R;
  seg_y2 : R
}.

(** The [data-shape-type] of a group element, as far as the code looks at it. *)
Inductive group_type : Type :=
| GText
| GArrow
| GIcon.

(** A [<g>] shape: its [translate(tx, ty)] transform when it has one, the
    children the code queries ([.text-background], [.arrow-line], [svg] with
    its parsed width and height), and the box [getBBox] reports for its
    rendered content in the group's own frame. *)
Record group : Type := mkGroup {
  g_type : group_type;
  g_transform : option (R * R);
  g_background : option box;
  g_arrow_line : option segment;
  g_svg : option (option R * option R);
  g_content : box
}.

Inductive shape : Type :=
| Circle (cx cy r : R)
| Ellipse (cx cy rx ry : R)
| Rect (x y width height : R)
| Line (l : segment)
| Group (g : group)
| Other (tag : string) (content : box).

Definition shift_box (b : box) (dx dy : R) : box :=
  mkBox (box_x b + dx) (box_y b + dy) (box_width b) (box_height b).

Definition shift_segment (l : segment) (dx dy : R) : segment :=
  mkSegment (seg_x1 l + dx) (seg_y1 l + dy) (seg_x2 l + dx) (seg_y2 l + dy).

Definition translation (t : option (R * R)) : R * R :=
  match t with
  | Some p => p
  | None => (0, 0)
  end.

(** [SVGGraphicsElement.getBBox]: the box of the element in its own user
    space, before its [transform]. *)
Definition getBBox (s : shape) : box :=
  match s with
  | Circle cx cy r => mkBox (cx - r) (cy - r) (2 * r) (2 * r)
  | Ellipse cx cy rx ry => mkBox (cx - rx) (cy - ry) (2 * rx) (2 * ry)
  | Rect x y w h => mkBox x y w h
  | Line l =>
      mkBox (Rmin (seg_x1 l) (seg_x2 l)) (Rmin (seg_y1 l) (seg_y2 l))
            (Rabs (seg_x2 l - seg_x1 l)) (Rabs (seg_y2 l - seg_y1 l))
  | Group g => g_content g
  | Other _ bb => bb
  end.

(** ** shapes/shapeFactory.js *)

Module ShapeFactory.

Record Bounds : Type := mkBounds {
  x : R;
  y : R;
  width : R;
  height : R;
  left : R;
  right : R;
  top : R;
  bottom : R;
  centerX : R;
  centerY : R
}.

Definition textBounds (tx ty : R) (bg : box) : Bounds :=
  let x := box_x bg in
  let y := box_y bg in
  let width := box_width bg in
  let height := box_height bg in
  mkBounds (tx + x) (ty + y) width height
           (tx + x) (tx + x + width) (ty + y) (ty + y + height)
           (tx + x + width / 2) (ty + y + height / 2).

Definition lineBounds (l : segment) (padding : R) : Bounds :=
  let minX := Rmin (seg_x1 l) (seg_x2 l) in
  let maxX := Rmax (seg_x1 l) (seg_x2 l) in
  let minY := Rmin (seg_y1 l) (seg_y2 l) in
  let maxY := Rmax (seg_y1 l) (seg_y2 l) in
  mkBounds (minX - padding) (minY - padding)
           (maxX - minX + padding * 2) (maxY - minY + padding * 2)
           (minX - padding) (maxX + padding) (minY - padding) (maxY + padding)
           ((seg_x1 l + seg_x2 l) / 2) ((seg_y1 l + seg_y2 l) / 2).

Definition arrowBounds (l : segment) : Bounds :=
  let minX := Rmin (seg_x1 l) (seg_x2 l) in
  let maxX := Rmax (seg_x1 l) (seg_x2 l) in
  let minY := Rmin (seg_y1 l) (seg_y2 l) in
  let maxY := Rmax (seg_y1 l) (seg_y2 l) in
  let padding := 10 in
  mkBounds (minX - padding) (minY - padding)
           (maxX - minX + padding * 2) (maxY - minY + padding * 2)
           (minX - padding) (maxX + padding) (minY - padding) (maxY + padding)
           ((minX + maxX) / 2) ((minY + maxY) / 2).

Definition ciscoBounds (g : group) : Bounds :=
  let '(tx, ty) := translation (g_transform g) in
  let width :=
    match g_svg g with
    | Some (w, _) => or_default w 60
    | None => 60
    end in
  let height :=
    match g_svg g with
    | Some (_, h) => or_default h 60 + 10
    | None => 70
    end in
  mkBounds tx ty width height tx (tx + width) ty (ty + height)
           (tx + width / 2) (ty + height / 2).

Definition getShapeBounds (s : shape) : option Bounds :=
  match s with
  | Group g =>
      match g_type g, g_background g, g_arrow_line g with
      | GText, Some bg, _ =>
          let '(tx, ty) := translation (g_transform g) in
          Some (textBounds tx ty bg)
      | GArrow, _, Some line => Some (arrowBounds line)
      | _, _, _ => Some (ciscoBounds g)
      end
  | Line l => Some (lineBounds l 5)
  | Circle cx cy r =>
      Some (mkBounds (cx - r) (cy - r) (r * 2) (r * 2)
                     (cx - r) (cx + r) (cy - r) (cy + r) cx cy)
  | Ellipse ecx ecy rx ry =>
      Some (mkBounds (ecx - rx) (ecy - ry) (rx * 2) (ry * 2)
                     (ecx - rx) (ecx + rx) (ecy - ry) (ecy + ry) ecx ecy)
  | Rect x y width height =>
      Some (mkBounds x y width height x (x + width) y (y + height)
                     (x + width / 2) (y + height / 2))
  | Other _ _ => None
  end.

End ShapeFactory.

(** ** canvas/canvasEvents.js: dragging one shape *)

Module CanvasEvents.

(** The point of a shape that [handleShapeDragging] puts at the position it
    is given: the centre of a circle or an ellipse, the corner of a
    rectangle, the midpoint of a line or of an arrow, the translation of any
    other group. *)
Definition dragReference (s : shape) : R * R :=
  match s with
  | Group g =>
      match g_type g, g_arrow_line g with
      | GArrow, Some l =>
          ((seg_x1 l + seg_x2 l) / 2, (seg_y1 l + seg_y2 l) / 2)
      | _, _ => translation (g_transform g)
      end
  | Line l => ((seg_x1 l + seg_x2 l) / 2, (seg_y1 l + seg_y2 l) / 2)
  | Circle cx cy _ => (cx, cy)
  | Ellipse cx cy _ _ => (cx, cy)
  | Rect x y _ _ => (x, y)
  | Other _ _ => (0, 0)
  end.

(** The position update of [handleShapeDragging].  The children of an arrow
    group (line, head, start circle) move by one delta, so the box of its
    content moves with them. *)
Definition handleShapeDragging (s : shape) (newX newY : R) : shape :=
  match s with
  | Group g =>
      match g_type g with
      | GArrow =>
          match g_arrow_line g with
          | Some line =>
              let oldCenterX := (seg_x1 line + seg_x2 line) / 2 in
              let oldCenterY := (seg_y1 line + seg_y2 line) / 2 in
              let deltaX := newX - oldCenterX in
              let deltaY := newY - oldCenterY in
              Group (mkGroup (g_type g) (g_transform g) (g_background g)
                             (Some (shift_segment line deltaX deltaY))
                             (g_svg g)
                             (shift_box (g_content g) deltaX deltaY))
          | None => s
          end
      | _ =>
          Group (mkGroup (g_type g) (Some (newX, newY)) (g_background g)
                         (g_arrow_line g) (g_svg g) (g_content g))
      end
  | Line l =>
      let oldCenterX := (seg_x1 l + seg_x2 l) / 2 in
      let oldCenterY := (seg_y1 l + seg_y2 l) / 2 in
      Line (shift_segment l (newX - oldCenterX) (newY - oldCenterY))
  | Circle _ _ r => Circle newX newY r
  | Ellipse _ _ rx ry => Ellipse newX newY rx ry
  | Rect _ _ w h => Rect newX newY w h
  | Other _ _ => s
  end.

(** Dragging by a displacement: the pointer, and with it the reference
    point, moves by [(dx, dy)]. *)
Definition translate (s : shape) (dx dy : R) : shape :=
  let '(px, py) := dragReference s in
  handleShapeDragging s (px + dx) (py + dy).

End CanvasEvents.

(** ** The document *)

Record point : Type := mkPoint {
  pt_x : num;
  pt_y : num
}.

(** The [x1], [y1], [x2], [y2] of a connection's line. *)
Record endpoints : Type := mkEndpoints {
  ln_x1 : num;
  ln_y1 : num;
  ln_x2 : num;
  ln_y2 : num
}.

(** A connection group: its attributes and its two line children. *)
Record connection : Type := mkConnection {
  data_source : string;
  data_target : string;
  connection_line : option endpoints;
  connection_hit_target : option endpoints;
  data_source_label_id : option string;
  data_target_label_id : option string;
  data_center_label_id : option string
}.

(** A connection label.  The constraint attributes are [None] when they are
    absent or do not parse (NaN). *)
Record label : Type := mkLabel {
  label_x : num;
  label_y : num;
  data_constraint_center_x : option R;
  data_constraint_center_y : option R;
  data_constraint_radius : option R
}.

(** A shape element: its geometry and [dataset.connections], held as the
    list of ids that [split(',').filter(id => id)] yields. *)
Record shape_element : Type := mkShapeElement {
  geometry : shape;
  connections : list string
}.

Inductive node : Type :=
| ShapeNode (s : shape_element)
| ConnectionNode (c : connection)
| LabelNode (l : label).

(** [data-position] of the text label of a basic shape; [Unset] stands for a
    missing or unrecognised value. *)
Inductive position : Type :=
| Above
| Below
| LeftOf
| RightOf
| Centered
| Unset.

Record sibling_label : Type := mkSiblingLabel {
  data_position : position;
  sibling_x : R;
  sibling_y : R
}.

Record document : Type := mkDocument {
  nodes : gmap string node;
  sibling_labels : gmap string sibling_label
}.

Definition getShape (d : document) (id : string) : option shape_element :=
  match nodes d !! id with
  | Some (ShapeNode s) => Some s
  | _ => None
  end.

Definition getConnection (d : document) (id : string) : option connection :=
  match nodes d !! id with
  | Some (ConnectionNode c) => Some c
  | _ => None
  end.

Definition getLabel (d : document) (id : string) : option label :=
  match nodes d !! id with
  | Some (LabelNode l) => Some l
  | _ => None
  end.

Definition setNode (d : document) (id : string) (n : node) : document :=
  mkDocument (<[id := n]> (nodes d)) (sibling_labels d).

Definition removeNode (d : document) (id : string) : document :=
  mkDocument (delete id (nodes d)) (sibling_labels d).

(** A handler either runs to its end or is cut short by a [TypeError]; the
    mutations made before the error stay. *)
Inductive outcome : Type :=
| Done (d : document)
| Threw (d : document).

Definition state (o : outcome) : document :=
  match o with
  | Done d => d
  | Threw d => d
  end.

Fixpoint forEach {A : Type} (f : document -> A -> outcome) (l : list A)
    (d : document) : outcome :=
  match l with
  | [] => Done d
  | a :: rest =>
      match f d a with
      | Done d' => forEach f rest d'
      | Threw d' => Threw d'
      end
  end.

(** ** connections/connectionManager.js *)

Module ConnectionManager.
Import ShapeFactory.

Definition findBoundaryIntersection (bounds : Bounds) (center : R * R)
    (dx dy : R) : point :=
  let halfWidth := width bounds / 2 in
  let halfHeight := height bounds / 2 in
  let length := sqrt (dx * dx + dy * dy) in
  if Req_dec_T length 0 then mkPoint (Fin (fst center)) (Fin (snd center))
  else
    let normalizedDx := dx / length in
    let normalizedDy := dy / length in
    let tHorizontal := js_div (Fin halfHeight) (js_abs (Fin normalizedDy)) in
    let tVertical := js_div (Fin halfWidth) (js_abs (Fin normalizedDx)) in
    let t := js_min tHorizontal tVertical in
    mkPoint (js_add (Fin (fst center)) (js_mul (Fin normalizedDx) t))
            (js_add (Fin (snd center)) (js_mul (Fin normalizedDy) t)).

Definition boxCenter (b : Bounds) : R * R :=
  (x b + width b / 2, y b + height b / 2).

Definition findClosestPoints (sourceBounds targetBounds : Bounds)
    : point * point :=
  let sourceCenter := boxCenter sourceBounds in
  let targetCenter := boxCenter targetBounds in
  let dx := fst targetCenter - fst sourceCenter in
  let dy := snd targetCenter - snd sourceCenter in
  let sourcePoint := findBoundaryIntersection sourceBounds sourceCenter dx dy in
  let targetPoint :=
    findBoundaryIntersection targetBounds targetCenter (- dx) (- dy) in
  (sourcePoint, targetPoint).

(** The angle an end label keeps: from its current position against the
    stored constraint centre, or the connection direction when no centre is
    stored. *)
Definition labelAngle (l : label) (center other : R * R) : num :=
  match data_constraint_center_x l, data_constraint_center_y l with
  | Some oldCenterX, Some oldCenterY =>
      let dx := js_sub (label_x l) (Fin oldCenterX) in
      let dy := js_sub (label_y l) (Fin oldCenterY) in
      js_atan2 dy dx
  | _, _ =>
      let dx := fst other - fst center in
      let dy := snd other - snd center in
      Fin (atan2 dy dx)
  end.

(** The update of one end label: [center] is the new centre of the shape the
    label belongs to, [other] the centre of the shape at the other end. *)
Definition repositionLabel (l : label) (center other : R * R) : label :=
  let radius := or_default (data_constraint_radius l) 60 in
  let angle := labelAngle l center other in
  let labelX := js_add (Fin (fst center)) (js_mul (js_cos angle) (Fin radius)) in
  let labelY := js_add (Fin (snd center)) (js_mul (js_sin angle) (Fin radius)) in
  mkLabel labelX labelY (Some (fst center)) (Some (snd center))
          (data_constraint_radius l).

Definition placeLabel (l : label) (p : point) : label :=
  mkLabel (pt_x p) (pt_y p) (data_constraint_center_x l)
          (data_constraint_center_y l) (data_constraint_radius l).

(** [if (labelId) { const label = getElementById(labelId); if (label) ... }] *)
Definition withLabel (d : document) (labelId : option string)
    (f : label -> label) : document :=
  match labelId with
  | Some id =>
      if truthy labelId then
        match getLabel d id with
        | Some l => setNode d id (LabelNode (f l))
        | None => d
        end
      else d
  | None => d
  end.

Definition midpoint (p q : point) : point :=
  mkPoint (js_div (js_add (pt_x p) (pt_x q)) (Fin 2))
          (js_div (js_add (pt_y p) (pt_y q)) (Fin 2)).

(** The body of the loop of [updateShapeConnections]. *)
Definition updateConnection (d : document) (connectionId : string) : outcome :=
  match getConnection d connectionId with
  | None => Done d
  | Some connection =>
      match getShape d (data_source connection),
            getShape d (data_target connection) with
      | Some sourceShape, Some targetShape =>
          match getShapeBounds (geometry sourceShape),
                getShapeBounds (geometry targetShape) with
          | Some sourceBounds, Some targetBounds =>
              let '(sourcePoint, targetPoint) :=
                findClosestPoints sourceBounds targetBounds in
              let sourceCenter := boxCenter sourceBounds in
              let targetCenter := boxCenter targetBounds in
              let centerPoint := midpoint sourcePoint targetPoint in
              let ends :=
                mkEndpoints (pt_x sourcePoint) (pt_y sourcePoint)
                            (pt_x targetPoint) (pt_y targetPoint) in
              let moved :=
                mkConnection
                  (data_source connection) (data_target connection)
                  (match connection_line connection with
                   | Some _ => Some ends
                   | None => None
                   end)
                  (match connection_hit_target connection with
                   | Some _ => Some ends
                   | None => None
                   end)
                  (data_source_label_id connection)
                  (data_target_label_id connection)
                  (data_center_label_id connection) in
              let d1 := setNode d connectionId (ConnectionNode moved) in
              let d2 :=
                withLabel d1 (data_source_label_id connection)
                  (fun l => repositionLabel l sourceCenter targetCenter) in
              let d3 :=
                withLabel d2 (data_target_label_id connection)
                  (fun l => repositionLabel l targetCenter sourceCenter) in
              Done (withLabel d3 (data_center_label_id connection)
                      (fun l => placeLabel l centerPoint))
          | _, _ => Threw d
          end
      | _, _ => Done d
      end
  end.

Definition updateShapeConnections (d : document) (shapeId : string) : outcome :=
  match getShape d shapeId with
  | Some shape => forEach updateConnection (connections shape) d
  | None => Done d
  end.

(** [getElementById(labelId)?.remove()] behind the truthiness test. *)
Definition removeLabel (d : document) (labelId : option string) : document :=
  match labelId with
  | Some id => if truthy labelId then removeNode d id else d
  | None => d
  end.

(** The body of the loop of [deleteShapeConnections]. *)
Definition deleteListedConnection (d : document) (connectionId : string)
    : document :=
  match nodes d !! connectionId with
  | None => d
  | Some n =>
      let '(sourceLabelId, targetLabelId, centerLabelId) :=
        match n with
        | ConnectionNode c =>
            (data_source_label_id c, data_target_label_id c,
             data_center_label_id c)
        | _ => (None, None, None)
        end in
      let d1 := removeNode d connectionId in
      let d2 := removeLabel d1 sourceLabelId in
      let d3 := removeLabel d2 targetLabelId in
      removeLabel d3 centerLabelId
  end.

Definition deleteShapeConnections (d : document) (shapeId : string) : document :=
  match getShape d shapeId with
  | Some shape => fold_left deleteListedConnection (connections shape) d
  | None => d
  end.

Definition labelId (connectionId role : string) : string :=
  ("label-" ++ connectionId ++ "-" ++ role)%string.

Definition hasElement (d : document) (id : string) : bool :=
  match nodes d !! id with
  | Some _ => true
  | None => false
  end.

(** The body of the loop of [migrateExistingConnections]. *)
Definition migrateConnection (d : document) (connectionId : string) : document :=
  match getConnection d connectionId with
  | None => d
  | Some connection =>
      let hasSourceId := data_source_label_id connection in
      let hasTargetId := data_target_label_id connection in
      if truthy hasSourceId && truthy hasTargetId then d
      else
        let found (role : string) (old : option string) :=
          if hasElement d (labelId connectionId role)
          then Some (labelId connectionId role)
          else old in
        setNode d connectionId
          (ConnectionNode
             (mkConnection
                (data_source connection) (data_target connection)
                (connection_line connection)
                (connection_hit_target connection)
                (found "source"%string (data_source_label_id connection))
                (found "target"%string (data_target_label_id connection))
                (found "center"%string (data_center_label_id connection))))
  end.

Definition isConnection (n : node) : bool :=
  match n with
  | ConnectionNode _ => true
  | _ => false
  end.

(** [document.querySelectorAll('.connection')], as ids; the order is the
    map's. *)
Definition connectionIds (d : document) : list string :=
  (filter (fun p => isConnection (snd p) = true) (map_to_list (nodes d))).*1.

Definition migrateExistingConnections (d : document) : document :=
  fold_left migrateConnection (connectionIds d) d.

End ConnectionManager.

(** ** connections/connectionInteractions.js: deleting one connection *)

Module ConnectionInteractions.

(** The update of [dataset.connections] of one endpoint. *)
Definition forgetConnection (connectionId : string) (d : document)
    (shapeId : string) : document :=
  match getShape d shapeId with
  | Some shape =>
      match connections shape with
      | [] => d
      | _ =>
          setNode d shapeId
            (ShapeNode
               (mkShapeElement (geometry shape)
                  (filter (fun id => id <> connectionId) (connections shape))))
      end
  | None => d
  end.

Definition deleteConnection (d : document) (connectionId : string) : document :=
  match getConnection d connectionId with
  | None => d
  | Some connection =>
      let d1 := ConnectionManager.removeLabel d (data_source_label_id connection) in
      let d2 := ConnectionManager.removeLabel d1 (data_target_label_id connection) in
      let d3 :=
        fold_left (forgetConnection connectionId)
                  [data_source connection; data_target connection] d2 in
      removeNode d3 connectionId
  end.

End ConnectionInteractions.

(** ** events/keyboardShortcuts.js: Delete on the selected shape *)

Module KeyboardShortcuts.

Definition deleteSelectedShape (d : document) (shapeId : string) : document :=
  let d1 := ConnectionManager.deleteShapeConnections d shapeId in
  let d2 := mkDocument (nodes d1) (delete shapeId (sibling_labels d1)) in
  removeNode d2 shapeId.

End KeyboardShortcuts.

(** ** shapes/multiShapeAlignment.js *)

Module MultiShapeAlignment.

Record Bounds : Type := mkBounds {
  x : R;
  y : R;
  width : R;
  height : R;
  centerX : R;
  centerY : R;
  right : R;
  bottom : R
}.

Definition getShapeBounds (s : shape) : Bounds :=
  let bbox := getBBox s in
  let '(x, y) :=
    match s with
    | Group g =>
        match g_transform g with
        | Some (tx, ty) => (box_x bbox + tx, box_y bbox + ty)
        | None => (box_x bbox, box_y bbox)
        end
    | _ => (box_x bbox, box_y bbox)
    end in
  let '(x, y) :=
    match s with
    | Circle cx cy _ | Ellipse cx cy _ _ =>
        (cx - box_width bbox / 2, cy - box_height bbox / 2)
    | Rect rx ry _ _ => (rx, ry)
    | _ => (x, y)
    end in
  mkBounds x y (box_width bbox) (box_height bbox)
           (x + box_width bbox / 2) (y + box_height bbox / 2)
           (x + box_width bbox) (y + box_height bbox).

Definition isBasic (s : shape) : bool :=
  match s with
  | Circle _ _ _ | Ellipse _ _ _ _ | Rect _ _ _ _ => true
  | _ => false
  end.

Definition isCircular (s : shape) : bool :=
  match s with
  | Circle _ _ _ | Ellipse _ _ _ _ => true
  | _ => false
  end.

Definition updateSiblingLabel (d : document) (shapeId : string) (s : shape)
    : document :=
  if isBasic s then
    match sibling_labels d !! shapeId with
    | None => d
    | Some labelEl =>
        let offset := 20 in
        let bounds := getShapeBounds s in
        let circular := isCircular s in
        let '(labelX, labelY) :=
          match data_position labelEl with
          | Above =>
              (if circular then centerX bounds else x bounds + width bounds / 2,
               if circular then y bounds - offset else y bounds - offset)
          | LeftOf =>
              (if circular then x bounds - offset else x bounds - offset,
               if circular then centerY bounds
               else y bounds + height bounds / 2)
          | RightOf =>
              (if circular then right bounds + offset
               else right bounds + offset,
               if circular then centerY bounds
               else y bounds + height bounds / 2)
          | Centered =>
              (if circular then centerX bounds else x bounds + width bounds / 2,
               if circular then centerY bounds + 5
               else y bounds + height bounds / 2 + 5)
          | Below | Unset =>
              (if circular then centerX bounds else x bounds + width bounds / 2,
               if circular then bottom bounds + offset
               else bottom bounds + offset)
          end in
        mkDocument (nodes d)
          (<[shapeId := mkSiblingLabel (data_position labelEl) labelX labelY]>
             (sibling_labels d))
    end
  else d.

(** The attribute update of [moveShapeToPosition]. *)
Definition reposition (s : shape) (x y : R) : shape :=
  let bounds := getShapeBounds s in
  match s with
  | Group g =>
      Group (mkGroup (g_type g) (Some (x, y)) (g_background g)
                     (g_arrow_line g) (g_svg g) (g_content g))
  | Circle _ _ r => Circle (x + width bounds / 2) (y + height bounds / 2) r
  | Ellipse _ _ rx ry =>
      Ellipse (x + width bounds / 2) (y + height bounds / 2) rx ry
  | Rect _ _ w h => Rect x y w h
  | _ => s
  end.

Definition moveShapeToPosition (d : document) (shapeId : string) (x y : R)
    : outcome :=
  match getShape d shapeId with
  | None => Done d
  | Some shape =>
      let moved := reposition (geometry shape) x y in
      let d1 :=
        setNode d shapeId (ShapeNode (mkShapeElement moved (connections shape))) in
      let d2 := updateSiblingLabel d1 shapeId moved in
      ConnectionManager.updateShapeConnections d2 shapeId
  end.

(** [shapeIds.map(id => document.getElementById(id)).filter(Boolean)], each
    element with its bounds. *)
Definition resolve (d : document) (shapeIds : list string)
    : list (string * Bounds) :=
  omap (fun id =>
          match getShape d id with
          | Some shape => Some (id, getShapeBounds (geometry shape))
          | None => None
          end) shapeIds.

(** [Math.min(...l)] and [Math.max(...l)]; they are applied to lists of at
    least two numbers. *)
Definition minimum (l : list R) : R :=
  match l with
  | [] => 0
  | a :: rest => fold_left Rmin rest a
  end.

Definition maximum (l : list R) : R :=
  match l with
  | [] => 0
  | a :: rest => fold_left Rmax rest a
  end.

Inductive alignment : Type :=
| Leading
| Middle
| Trailing.

Definition alignHorizontal (d : document) (shapeIds : list string)
    (mode : alignment) : outcome :=
  if (length shapeIds <? 2)%nat then Done d
  else
    let shapes := resolve d shapeIds in
    if (length shapes <? 2)%nat then Done d
    else
      let bounds := map snd shapes in
      let referenceX :=
        match mode with
        | Leading => minimum (map x bounds)
        | Trailing => maximum (map right bounds)
        | Middle =>
            let minX := minimum (map x bounds) in
            let maxRight := maximum (map right bounds) in
            (minX + maxRight) / 2
        end in
      forEach
        (fun d '(shape, bound) =>
           let newX :=
             match mode with
             | Leading => referenceX
             | Trailing => referenceX - width bound
             | Middle => referenceX - width bound / 2
             end in
           moveShapeToPosition d shape newX (y bound))
        shapes d.

Definition alignVertical (d : document) (shapeIds : list string)
    (mode : alignment) : outcome :=
  if (length shapeIds <? 2)%nat then Done d
  else
    let shapes := resolve d shapeIds in
    if (length shapes <? 2)%nat then Done d
    else
      let bounds := map snd shapes in
      let referenceY :=
        match mode with
        | Leading => minimum (map y bounds)
        | Trailing => maximum (map bottom bounds)
        | Middle =>
            let minY := minimum (map y bounds) in
            let maxBottom := maximum (map bottom bounds) in
            (minY + maxBottom) / 2
        end in
      forEach
        (fun d '(shape, bound) =>
           let newY :=
             match mode with
             | Leading => referenceY
             | Trailing => referenceY - height bound
             | Middle => referenceY - height bound / 2
             end in
           moveShapeToPosition d shape (x bound) newY)
        shapes d.

(** [Array.prototype.sort] with the comparator [a.key - b.key]: a stable
    sort. *)
Fixpoint insertBy {A : Type} (key : A -> R) (a : A) (l : list A) : list A :=
  match l with
  | [] => [a]
  | b :: rest =>
      if Rlt_dec (key a) (key b) then a :: l else b :: insertBy key a rest
  end.

Definition sortBy {A : Type} (key : A -> R) (l : list A) : list A :=
  fold_left (fun sorted a => insertBy key a sorted) l [].

Definition total (l : list R) : R := fold_left Rplus l 0.

(** The loop that places the sorted shapes one after the other. *)
Fixpoint placeAlongX (spacing : R) (l : list (string * Bounds))
    (currentX : R) (d : document) : outcome :=
  match l with
  | [] => Done d
  | (shape, bound) :: rest =>
      match moveShapeToPosition d shape currentX (y bound) with
      | Done d' => placeAlongX spacing rest (currentX + (width bound + spacing)) d'
      | Threw d' => Threw d'
      end
  end.

Fixpoint placeAlongY (spacing : R) (l : list (string * Bounds))
    (currentY : R) (d : document) : outcome :=
  match l with
  | [] => Done d
  | (shape, bound) :: rest =>
      match moveShapeToPosition d shape (x bound) currentY with
      | Done d' =>
          placeAlongY spacing rest (currentY + (height bound + spacing)) d'
      | Threw d' => Threw d'
      end
  end.

Definition distributeHorizontal (d : document) (shapeIds : list string)
    : outcome :=
  if (length shapeIds <? 3)%nat then Done d
  else
    let shapes := resolve d shapeIds in
    if (length shapes <? 3)%nat then Done d
    else
      let bounds := sortBy (fun p => x (snd p)) shapes in
      match bounds, last bounds with
      | first :: _, Some final =>
          let leftmostX := x (snd first) in
          let rightmostX := right (snd final) in
          let totalWidth := total (map (fun p => width (snd p)) bounds) in
          let totalGap := rightmostX - leftmostX - totalWidth in
          let spacing := totalGap / (INR (length bounds) - 1) in
          placeAlongX spacing bounds leftmostX d
      | _, _ => Done d
      end.

Definition distributeVertical (d : document) (shapeIds : list string)
    : outcome :=
  if (length shapeIds <? 3)%nat then Done d
  else
    let shapes := resolve d shapeIds in
    if (length shapes <? 3)%nat then Done d
    else
      let bounds := sortBy (fun p => y (snd p)) shapes in
      match bounds, last bounds with
      | first :: _, Some final =>
          let topmostY := y (snd first) in
          let bottommostY := bottom (snd final) in
          let totalHeight := total (map (fun p => height (snd p)) bounds) in
          let totalGap := bottommostY - topmostY - totalHeight in
          let spacing := totalGap / (INR (length bounds) - 1) in
          placeAlongY spacing bounds topmostY d
      | _, _ => Done d
      end.

End MultiShapeAlignment.

(** ** The id counters: state/appState.js, topology/fileOperations.js,
       services/stateRestoration.js *)

Record AppState : Type := mkAppState {
  shapeIdCounter : N;
  connectionIdCounter : N
}.

Definition isDigit (c : ascii) : bool :=
  ((48 <=? nat_of_ascii c)%nat && (nat_of_ascii c <=? 57)%nat)%bool.

Definition digitValue (c : ascii) : N := N.of_nat (nat_of_ascii c - 48).

(** [parseInt] on the digits captured by [(\d+)]: the leading run of digits
    of [s], read in base ten. *)
Fixpoint readDigits (acc : N) (s : string) : N :=
  match s with
  | String c rest =>
      if isDigit c then readDigits (10 * acc + digitValue c)%N rest else acc
  | EmptyString => acc
  end.

Fixpoint stripPrefix (prefix s : string) : option string :=
  match prefix, s with
  | EmptyString, _ => Some s
  | String p prefix', String c rest =>
      if Ascii.eqb p c then stripPrefix prefix' rest else None
  | String _ _, EmptyString => None
  end.

(** A match of [prefix(\d+)] that starts at the first character of [s]. *)
Definition matchHere (prefix s : string) : option N :=
  match stripPrefix prefix s with
  | Some (String c rest) =>
      if isDigit c then Some (readDigits 0 (String c rest)) else None
  | _ => None
  end.

(** [parseInt(id.match(/prefix(\d+)/)[1])] when the id matches: the leftmost
    match, with the longest run of digits. *)
Fixpoint numberedId (prefix id : string) : option N :=
  match matchHere prefix id with
  | Some n => Some n
  | None =>
      match id with
      | String _ rest => numberedId prefix rest
      | EmptyString => None
      end
  end.

(** A persisted topology, as far as the counters look at it: the ids of its
    shapes and of its connections. *)
Record topology : Type := mkTopology {
  shapes : option (list string);
  topologyConnections : option (list string)
}.

Definition maxNumbered (prefix : string) (ids : list string) : N :=
  fold_left (fun max id =>
               match numberedId prefix id with
               | Some n => N.max max n
               | None => max
               end) ids 0%N.

Module FileOperations.

Definition clearCanvas (st : AppState) : AppState :=
  mkAppState (shapeIdCounter st) 1.

(** The counters after [loadTopology]. *)
Definition loadTopology (st : AppState) (t : topology) : AppState :=
  let st := clearCanvas st in
  match shapes t with
  | None => st
  | Some shapeData =>
      let maxShapeId := maxNumbered "shape-" shapeData in
      let st :=
        if ((0 <? maxShapeId) && (shapeIdCounter st <=? maxShapeId))%N
        then mkAppState (maxShapeId + 1) (connectionIdCounter st)
        else st in
      match topologyConnections t with
      | Some connectionData =>
          let maxConnectionId := maxNumbered "connection-" connectionData in
          if ((0 <? maxConnectionId)
              && (connectionIdCounter st <=? maxConnectionId))%N
          then mkAppState (shapeIdCounter st) (maxConnectionId + 1)
          else st
      | None => st
      end
  end.

End FileOperations.

Module StateRestoration.



End StateRestoration.

(** ** state/appState.js: issuing ids *)

(** The numeral a template literal prints for a counter: its decimal
    digits. *)
Definition decimal (n : N) : string := NilEmpty.string_of_uint (N.to_uint n).

Definition getNextShapeId (st : AppState) : string * AppState :=
  let counter := (shapeIdCounter st + 1)%N in
  (("shape-" ++ decimal counter)%string,
   mkAppState counter (connectionIdCounter st)).

Definition getNextConnectionId (st : AppState) : string * AppState :=
  let counter := (connectionIdCounter st + 1)%N in
  (("connection-" ++ decimal counter)%string,
   mkAppState (shapeIdCounter st) counter).

(** ** connections/connectionManager.js: creating a connection *)

Module ConnectionCreation.
Import ShapeFactory ConnectionManager.

Inductive label_type : Type :=
| SourceLabel
| TargetLabel
| CenterLabel.

Definition CONSTRAINT_RADIUS : R := 60.

(** The position and the constraint data of a new label.  [x], [y] is the
    anchor (or, for the centre label, the midpoint of the anchors); the two
    centres are passed for the end labels only. *)
Definition createConnectionLabel (x y : num) (type : label_type)
    (centers : option ((R * R) * (R * R))) : label :=
  match type, centers with
  | (SourceLabel | TargetLabel), Some (shapeCenter, otherCenter) =>
      let dx := fst otherCenter - fst shapeCenter in
      let dy := snd otherCenter - snd shapeCenter in
      let angle := atan2 dy dx in
      let labelX := fst shapeCenter + cos angle * CONSTRAINT_RADIUS in
      let labelY := snd shapeCenter + sin angle * CONSTRAINT_RADIUS in
      mkLabel (Fin labelX) (Fin labelY)
              (Some (fst shapeCenter)) (Some (snd shapeCenter))
              (Some CONSTRAINT_RADIUS)
  | _, _ => mkLabel x y None None None
  end.

(** [shape.dataset.connections += connectionId + ','] *)
Definition appendConnection (d : document) (shapeId connectionId : string)
    : document :=
  match getShape d shapeId with
  | Some shape =>
      setNode d shapeId
        (ShapeNode
           (mkShapeElement (geometry shape)
                           (connections shape ++ [connectionId])))
  | None => d
  end.

(** [createConnection], the shapes being given by their ids.  The counter is
    advanced before the bounds are read, so it stays advanced when the call
    is cut short: by a shape that is missing, or by one without bounds (the
    centre of [null] is read). *)
Definition createConnection (st : AppState) (d : document)
    (sourceId targetId : string) : AppState * outcome :=
  let '(connectionId, st') := getNextConnectionId st in
  match getShape d sourceId, getShape d targetId with
  | Some sourceShape, Some targetShape =>
      match getShapeBounds (geometry sourceShape),
            getShapeBounds (geometry targetShape) with
      | Some sourceBounds, Some targetBounds =>
          let '(sourcePoint, targetPoint) :=
            findClosestPoints sourceBounds targetBounds in
          let centerPoint := midpoint sourcePoint targetPoint in
          let ends :=
            mkEndpoints (pt_x sourcePoint) (pt_y sourcePoint)
                        (pt_x targetPoint) (pt_y targetPoint) in
          let sourceCenter := boxCenter sourceBounds in
          let targetCenter := boxCenter targetBounds in
          let sourceLabelEl :=
            createConnectionLabel (pt_x sourcePoint) (pt_y sourcePoint)
              SourceLabel (Some (sourceCenter, targetCenter)) in
          let targetLabelEl :=
            createConnectionLabel (pt_x targetPoint) (pt_y targetPoint)
              TargetLabel (Some (targetCenter, sourceCenter)) in
          let centerLabelEl :=
            createConnectionLabel (pt_x centerPoint) (pt_y centerPoint)
              CenterLabel None in
          let connectionGroup :=
            mkConnection sourceId targetId (Some ends) (Some ends)
              (Some (labelId connectionId "source"))
              (Some (labelId connectionId "target"))
              (Some (labelId connectionId "center")) in
          let d1 := setNode d connectionId (ConnectionNode connectionGroup) in
          let d2 :=
            setNode d1 (labelId connectionId "source")
                    (LabelNode sourceLabelEl) in
          let d3 :=
            setNode d2 (labelId connectionId "target")
                    (LabelNode targetLabelEl) in
          let d4 :=
            setNode d3 (labelId connectionId "center")
                    (LabelNode centerLabelEl) in
          let d5 := appendConnection d4 sourceId connectionId in
          (st', Done (appendConnection d5 targetId connectionId))
      | _, _ => (st', Threw d)
      end
  | _, _ => (st', Threw d)
  end.

End ConnectionCreation.

(** ** canvas/zoom.js and events/keyboardShortcuts.js: the zoom level *)

Module Zoom.

(** [ZOOM_CONFIG] of config/constants.js. *)
Record ZoomConfig : Type := mkZoomConfig {
  STEP : R;
  MAX : R;
  MIN : R;
  DEFAULT : R
}.

Definition zoomIn (ZOOM_CONFIG : ZoomConfig) (currentZoom : R) : R :=
  Rmin (currentZoom * STEP ZOOM_CONFIG) (MAX ZOOM_CONFIG).

Definition zoomOut (ZOOM_CONFIG : ZoomConfig) (currentZoom : R) : R :=
  Rmax (currentZoom / STEP ZOOM_CONFIG) (MIN ZOOM_CONFIG).

Definition resetZoom (ZOOM_CONFIG : ZoomConfig) (currentZoom : R) : R :=
  DEFAULT ZOOM_CONFIG.

(** The keys [handleKeyDown] takes with Ctrl or Cmd: [=] or [+], [-], and
    [0]. *)
Inductive zoomKey : Type :=
| Plus
| Minus
| Zero.

Definition handleKeyDown (ZOOM_CONFIG : ZoomConfig) (currentZoom : R)
    (key : zoomKey) : R :=
  match key with
  | Plus => zoomIn ZOOM_CONFIG currentZoom
  | Minus => zoomOut ZOOM_CONFIG currentZoom
  | Zero => resetZoom ZOOM_CONFIG currentZoom
  end.

End Zoom.

(** ** ui/shapeOverlay.js: connecting from the overlay *)

Module ShapeOverlay.
Import ConnectionCreation.

(** The module variables of the connection flow. *)
Record overlay : Type := mkOverlay {
  overlaySourceShape : option string;
  isWaitingForTarget : bool
}.

Definition hideShapePanel (ov : overlay) : overlay := mkOverlay None false.

Definition startConnectionMode (ov : overlay) : overlay :=
  match overlaySourceShape ov with
  | None => ov
  | Some _ => mkOverlay (overlaySourceShape ov) true
  end.

Definition startConnectionFromShape (ov : overlay) (sourceShape : string)
    : overlay :=
  mkOverlay (Some sourceShape) true.

(** [finishConnectionWithTarget]: the clean-up is not reached when
    [createConnection] is cut short. *)
Definition finishConnectionWithTarget (ov : overlay) (st : AppState)
    (d : document) (targetShape : string) : overlay * AppState * outcome :=
  match overlaySourceShape ov with
  | Some sourceShape =>
      match createConnection st d sourceShape targetShape with
      | (st', Done d') => (hideShapePanel ov, st', Done d')
      | (st', Threw d') => (ov, st', Threw d')
      end
  | None => (ov, snd (getNextConnectionId st), Threw d)
  end.

Definition handleTargetShapeClick (ov : overlay) (st : AppState)
    (d : document) (targetShape : string) : overlay * AppState * outcome :=
  if negb (isWaitingForTarget ov) then (ov, st, Done d)
  else
    match overlaySourceShape ov with
    | None => (ov, st, Done d)
    | Some sourceShape =>
        if decide (targetShape = sourceShape) then (ov, st, Done d)
        else finishConnectionWithTarget ov st d targetShape
    end.

End ShapeOverlay.

(** ** connections/connectionManager.js: dragging a label *)

Module LabelDragging.
Import ShapeFactory ConnectionManager ConnectionCreation.

(** The variables the three handlers of [makeLabelDraggable] share. *)
Record drag : Type := mkDrag {
  isDragging : bool;
  shapeCenter : option (R * R);
  constraintRadius : num
}.

(** [Math.sqrt(dx * dx + dy * dy)] of the offset of a position. *)
Definition distance (px py : num) (c : R * R) : num :=
  match px, py with
  | Fin a, Fin b =>
      Fin (sqrt ((a - fst c) * (a - fst c) + (b - snd c) * (b - snd c)))
  | NaN, _ | _, NaN => NaN
  | _, _ => PInf
  end.

(** [if (constraintRadius < 50) constraintRadius = 50] *)
Definition atLeast50 (r : num) : num :=
  match r with
  | Fin v => if Rlt_dec v 50 then Fin 50 else r
  | NInf => Fin 50
  | _ => r
  end.

Definition stored (r : num) : option R :=
  match r with
  | Fin v => Some v
  | _ => None
  end.

(** The [mousedown] handler of a label, outside connection mode; [g] holds
    the shared variables as the previous gesture left them.  [connectionId]
    and [labelType] are the label's [data-connection-id] and
    [data-label-type].  The stored constraint data are used when the three
    attributes are there; otherwise the circle is taken around the shape at
    the label's end of the connection (the target for a centre label), with
    the current distance as radius, 50 at least, and is stored.  (A label at
    an infinite position would store an infinite radius, which the label
    record does not hold; end labels are never there.) *)
Definition mouseDown (g : drag) (d : document) (l : label)
    (id connectionId : string) (labelType : label_type) : outcome * drag :=
  match data_constraint_center_x l, data_constraint_center_y l,
        data_constraint_radius l with
  | Some centerX, Some centerY, Some radius =>
      (Done d, mkDrag true (Some (centerX, centerY)) (Fin radius))
  | _, _, _ =>
      let unchanged := mkDrag true (shapeCenter g) (constraintRadius g) in
      match getConnection d connectionId with
      | None => (Done d, unchanged)
      | Some connection =>
          let shapeId :=
            match labelType with
            | SourceLabel => data_source connection
            | _ => data_target connection
            end in
          match getShape d shapeId with
          | None => (Done d, unchanged)
          | Some shape =>
              match getShapeBounds (geometry shape) with
              | None => (Threw d, unchanged)
              | Some shapeBounds =>
                  let center := boxCenter shapeBounds in
                  let radius :=
                    atLeast50 (distance (label_x l) (label_y l) center) in
                  (Done
                     (setNode d id
                        (LabelNode
                           (mkLabel (label_x l) (label_y l)
                                    (Some (fst center)) (Some (snd center))
                                    (stored radius)))),
                   mkDrag true (Some center) radius)
              end
          end
      end
  end.

(** The [mousemove] handler: the label goes on the circle, at the angle of
    the pointer. *)
Definition mouseMove (g : drag) (l : label) (mouseX mouseY : R) : label :=
  match isDragging g, shapeCenter g with
  | true, Some center =>
      let dx := mouseX - fst center in
      let dy := mouseY - snd center in
      let angle := atan2 dy dx in
      let newX :=
        js_add (Fin (fst center)) (js_mul (Fin (cos angle)) (constraintRadius g)) in
      let newY :=
        js_add (Fin (snd center)) (js_mul (Fin (sin angle)) (constraintRadius g)) in
      mkLabel newX newY (data_constraint_center_x l)
              (data_constraint_center_y l) (data_constraint_radius l)
  | _, _ => l
  end.

End LabelDragging.

(** ** shapes/shapeActions.js: duplicating a shape *)

Module ShapeActions.

(** The clone, moved by the offset.  A group is moved when it has a
    transform; the label of the clone reads on with " (copy)", so
    [rendered] is the box the platform reports for the content of the
    cloned group. *)
Definition clonedShape (originalShape : shape) (rendered : box) : shape :=
  let offset := 50 in
  match originalShape with
  | Group g =>
      let transform :=
        match g_transform g with
        | Some (x, y) => Some (x + offset, y + offset)
        | None => None
        end in
      Group (mkGroup (g_type g) transform (g_background g) (g_arrow_line g)
                     (g_svg g) rendered)
  | Circle cx cy r => Circle (cx + offset) (cy + offset) r
  | Ellipse cx cy rx ry => Ellipse (cx + offset) (cy + offset) rx ry
  | Rect x y w h => Rect (x + offset) (y + offset) w h
  | Line l => Line (shift_segment l offset offset)
  | Other tag content => Other tag content
  end.

(** [duplicateShape]: the clone keeps every attribute of the original but
    its id, [data-connections] included. *)
Definition duplicateShape (st : AppState) (d : document) (shapeId : string)
    (rendered : box) : AppState * document :=
  match getShape d shapeId with
  | None => (st, d)
  | Some originalShape =>
      let '(newShapeId, st') := getNextShapeId st in
      (st',
       setNode d newShapeId
         (ShapeNode
            (mkShapeElement (clonedShape (geometry originalShape) rendered)
                            (connections originalShape))))
  end.

End ShapeActions.

(** ** shapes/shapeResize.js *)

Module ShapeResize.

(** [MIN_SHAPE_SIZE] of config/constants.js. *)
Record MinShapeSize : Type := mkMinShapeSize {
  CIRCLE_RADIUS : R;
  ELLIPSE_RADIUS : R;
  RECT_WIDTH : R;
  RECT_HEIGHT : R
}.

Inductive handle : Type :=
| NW
| NE
| SE
| SW
| North
| East
| South
| West.

(** [handleType.includes('w')] and [handleType.includes('n')] *)
Definition includesW (handleType : handle) : bool :=
  match handleType with
  | NW | SW | West => true
  | _ => false
  end.

Definition includesN (handleType : handle) : bool :=
  match handleType with
  | NW | NE | North => true
  | _ => false
  end.

Definition handleCircleResize (MIN_SHAPE_SIZE : MinShapeSize)
    (r deltaX deltaY : R) : R :=
  let delta := if Rlt_dec (Rabs deltaY) (Rabs deltaX) then deltaX else deltaY in
  Rmax (CIRCLE_RADIUS MIN_SHAPE_SIZE) (r + delta).

Definition handleEllipseResize (MIN_SHAPE_SIZE : MinShapeSize)
    (handleType : handle) (rx ry deltaX deltaY : R) : R * R :=
  let newRx :=
    match handleType with
    | East | NE | SE => Rmax (ELLIPSE_RADIUS MIN_SHAPE_SIZE) (rx + deltaX)
    | West | NW | SW => Rmax (ELLIPSE_RADIUS MIN_SHAPE_SIZE) (rx - deltaX)
    | _ => rx
    end in
  let newRy :=
    match handleType with
    | South | SE | SW => Rmax (ELLIPSE_RADIUS MIN_SHAPE_SIZE) (ry + deltaY)
    | North | NE | NW => Rmax (ELLIPSE_RADIUS MIN_SHAPE_SIZE) (ry - deltaY)
    | _ => ry
    end in
  (newRx, newRy).

Definition handleRectResize (MIN_SHAPE_SIZE : MinShapeSize)
    (handleType : handle) (x y width height deltaX deltaY : R) : box :=
  let '(newX, newY, newWidth, newHeight) :=
    match handleType with
    | NW => (x + deltaX, y + deltaY, width - deltaX, height - deltaY)
    | NE => (x, y + deltaY, width + deltaX, height - deltaY)
    | SE => (x, y, width + deltaX, height + deltaY)
    | SW => (x + deltaX, y, width - deltaX, height + deltaY)
    | North => (x, y + deltaY, width, height - deltaY)
    | East => (x, y, width + deltaX, height)
    | South => (x, y, width, height + deltaY)
    | West => (x + deltaX, y, width - deltaX, height)
    end in
  let newWidth := Rmax (RECT_WIDTH MIN_SHAPE_SIZE) newWidth in
  let newHeight := Rmax (RECT_HEIGHT MIN_SHAPE_SIZE) newHeight in
  let newX :=
    if Req_dec_T newWidth (RECT_WIDTH MIN_SHAPE_SIZE) then
      if includesW handleType then x + width - RECT_WIDTH MIN_SHAPE_SIZE
      else newX
    else newX in
  let newY :=
    if Req_dec_T newHeight (RECT_HEIGHT MIN_SHAPE_SIZE) then
      if includesN handleType then y + height - RECT_HEIGHT MIN_SHAPE_SIZE
      else newY
    else newY in
  mkBox newX newY newWidth newHeight.

(** A size that did not parse stays NaN through the arithmetic and through
    [Math.max], and NaN is equal to nothing. *)
Definition grown (size : option R) (delta : R) : option R :=
  match size with
  | Some v => Some (v + delta)
  | None => None
  end.

Definition handleGroupResize (g : group) (handleType : handle)
    (deltaX deltaY : R) (rendered : box) : group :=
  let '(tx, ty) := translation (g_transform g) in
  match g_svg g with
  | None => g
  | Some (currentWidth, currentHeight) =>
      let '(newX, newY, newWidth, newHeight) :=
        match handleType with
        | NW => (tx + deltaX, ty + deltaY,
                 grown currentWidth (- deltaX), grown currentHeight (- deltaY))
        | NE => (tx, ty + deltaY,
                 grown currentWidth deltaX, grown currentHeight (- deltaY))
        | SE => (tx, ty, grown currentWidth deltaX, grown currentHeight deltaY)
        | SW => (tx + deltaX, ty,
                 grown currentWidth (- deltaX), grown currentHeight deltaY)
        | North => (tx, ty + deltaY, currentWidth, grown currentHeight (- deltaY))
        | East => (tx, ty, grown currentWidth deltaX, currentHeight)
        | South => (tx, ty, currentWidth, grown currentHeight deltaY)
        | West => (tx + deltaX, ty, grown currentWidth (- deltaX), currentHeight)
        end in
      let minSize := 20 in
      let newWidth := option_map (Rmax minSize) newWidth in
      let newHeight := option_map (Rmax minSize) newHeight in
      let newX :=
        match newWidth, currentWidth with
        | Some w, Some cw =>
            if Req_dec_T w minSize then
              if includesW handleType then tx + cw - minSize else newX
            else newX
        | _, _ => newX
        end in
      let newY :=
        match newHeight, currentHeight with
        | Some h, Some ch =>
            if Req_dec_T h minSize then
              if includesN handleType then ty + ch - minSize else newY
            else newY
        | _, _ => newY
        end in
      mkGroup (g_type g) (Some (newX, newY)) (g_background g)
              (g_arrow_line g) (Some (newWidth, newHeight)) rendered
  end.

(** The attribute update of [handleResize].  The deltas are taken from the
    pointer position stored by the previous event; [rendered] is the box the
    platform reports for the content of a group once its icon has its new
    size. *)
Definition handleResize (MIN_SHAPE_SIZE : MinShapeSize) (s : shape)
    (handleType : handle) (dragOffset mouse : R * R) (rendered : box) : shape :=
  let deltaX := fst mouse - fst dragOffset in
  let deltaY := snd mouse - snd dragOffset in
  match s with
  | Circle cx cy r =>
      Circle cx cy (handleCircleResize MIN_SHAPE_SIZE r deltaX deltaY)
  | Ellipse cx cy rx ry =>
      let '(newRx, newRy) :=
        handleEllipseResize MIN_SHAPE_SIZE handleType rx ry deltaX deltaY in
      Ellipse cx cy newRx newRy
  | Rect x y width height =>
      let b :=
        handleRectResize MIN_SHAPE_SIZE handleType x y width height
                         deltaX deltaY in
      Rect (box_x b) (box_y b) (box_width b) (box_height b)
  | Group g => Group (handleGroupResize g handleType deltaX deltaY rendered)
  | _ => s
  end.

End ShapeResize.

(** ** canvas/selectionMode.js *)

Module SelectionMode.

Definition lessThan (a b : R) : bool := if Rlt_dec a b then true else false.

Definition rectanglesIntersect (x1 y1 w1 h1 x2 y2 w2 h2 : R) : bool :=
  negb (lessThan (x1 + w1) x2 || lessThan (x2 + w2) x1
        || lessThan (y1 + h1) y2 || lessThan (y2 + h2) y1).

(** The box [highlightIntersectingShapes] tests: the size of [getBBox], at
    the translation of the element when it has one, at the corner of
    [getBBox] otherwise. *)
Definition selectionBox (s : shape) : box :=
  let bbox := getBBox s in
  let '(x, y) :=
    match s with
    | Group g =>
        match g_transform g with
        | Some (tx, ty) => (tx, ty)
        | None => (box_x bbox, box_y bbox)
        end
    | _ => (box_x bbox, box_y bbox)
    end in
  mkBox x y (box_width bbox) (box_height bbox).

Definition intersects (selX selY selWidth selHeight : R) (n : node) : bool :=
  match n with
  | ShapeNode s =>
      let b := selectionBox (geometry s) in
      rectanglesIntersect selX selY selWidth selHeight
                          (box_x b) (box_y b) (box_width b) (box_height b)
  | _ => false
  end.

(** The set [selectedShapes] after [highlightIntersectingShapes]. *)
Definition highlightIntersectingShapes (d : document)
    (selX selY selWidth selHeight : R) : gset string :=
  dom (filter (fun p => intersects selX selY selWidth selHeight (snd p) = true)
              (nodes d)).

Definition updateSelection (d : document) (startPoint currentPoint : R * R)
    : gset string :=
  let x := Rmin (fst startPoint) (fst currentPoint) in
  let y := Rmin (snd startPoint) (snd currentPoint) in
  let width := Rabs (fst currentPoint - fst startPoint) in
  let height := Rabs (snd currentPoint - snd startPoint) in
  highlightIntersectingShapes d x y width height.

Definition getShapePosition (s : shape) : R * R :=
  match s with
  | Group g => translation (g_transform g)
  | Circle cx cy _ | Ellipse cx cy _ _ => (cx, cy)
  | Rect x y _ _ => (x, y)
  | _ => (0, 0)
  end.

Definition setShapePosition (s : shape) (x y : R) : shape :=
  match s with
  | Group g =>
      Group (mkGroup (g_type g) (Some (x, y)) (g_background g)
                     (g_arrow_line g) (g_svg g) (g_content g))
  | Circle _ _ r => Circle x y r
  | Ellipse _ _ rx ry => Ellipse x y rx ry
  | Rect _ _ w h => Rect x y w h
  | _ => s
  end.

(** [initialShapePositions] as [startGroupDrag] fills it; [selectedShapes]
    lists the ids of the selection, which are ids of shapes. *)
Definition startGroupDrag (d : document) (selectedShapes : list string)
    : gmap string (R * R) :=
  fold_left
    (fun positions shapeId =>
       match getShape d shapeId with
       | Some shape =>
           <[shapeId := getShapePosition (geometry shape)]> positions
       | None => positions
       end)
    selectedShapes ∅.

Definition moveSelected (initialShapePositions : gmap string (R * R))
    (dx dy : R) (d : document) (shapeId : string) : document :=
  match getShape d shapeId, initialShapePositions !! shapeId with
  | Some shape, Some initialPos =>
      setNode d shapeId
        (ShapeNode
           (mkShapeElement
              (setShapePosition (geometry shape)
                                (fst initialPos + dx) (snd initialPos + dy))
              (connections shape)))
  | _, _ => d
  end.

(** The connections of a moved shape are recomputed in a callback of its
    own, once the loop over the selection is over; an error in one callback
    does not reach the next. *)
Definition recomputeSelected (initialShapePositions : gmap string (R * R))
    (d : document) (shapeId : string) : document :=
  match getShape d shapeId, initialShapePositions !! shapeId with
  | Some _, Some _ => state (ConnectionManager.updateShapeConnections d shapeId)
  | _, _ => d
  end.

Definition updateGroupDrag (d : document) (selectedShapes : list string)
    (initialShapePositions : gmap string (R * R))
    (dragStartPoint currentPoint : R * R) : document :=
  let dx := fst currentPoint - fst dragStartPoint in
  let dy := snd currentPoint - snd dragStartPoint in
  let moved :=
    fold_left (moveSelected initialShapePositions dx dy) selectedShapes d in
  fold_left (recomputeSelected initialShapePositions) selectedShapes moved.

(** The confirmed deletion of the selection. *)
Definition deleteSelectedShapes (d : document) (selectedShapes : list string)
    : document :=
  fold_left
    (fun d shapeId =>
       match nodes d !! shapeId with
       | Some _ =>
           removeNode (ConnectionManager.deleteShapeConnections d shapeId)
                      shapeId
       | None => d
       end)
    selectedShapes d.

End SelectionMode.

(** ** shapes/shapeEvents.js and canvas/canvasEvents.js: the drag gesture *)

Module Dragging.

Record MouseEvent : Type := mkMouseEvent {
  clientX : R;
  clientY : R
}.

(** The corner of the canvas on the screen and the zoom factor. *)
Record viewport : Type := mkViewport {
  canvasLeft : R;
  canvasTop : R;
  currentZoom : R
}.

(** The fields of the application state the gesture uses. *)
Record DragState : Type := mkDragState {
  isMouseDown : bool;
  isDraggingShape : bool;
  dragStartX : R;
  dragStartY : R;
  dragOffsetX : R;
  dragOffsetY : R
}.

Definition dragThreshold : R := 3.

Definition pointer (v : viewport) (e : MouseEvent) : R * R :=
  ((clientX e - canvasLeft v) / currentZoom v,
   (clientY e - canvasTop v) / currentZoom v).

(** [startDragging] of shapeEvents.js; no offset is taken for an arrow
    without its line, nor for an element of another tag. *)
Definition startDragging (st : DragState) (v : viewport) (s : shape)
    (e : MouseEvent) : DragState :=
  let '(mouseX, mouseY) := pointer v e in
  let '(offsetX, offsetY) :=
    match s with
    | Group g =>
        match g_type g with
        | GArrow =>
            match g_arrow_line g with
            | Some line =>
                let centerX := (seg_x1 line + seg_x2 line) / 2 in
                let centerY := (seg_y1 line + seg_y2 line) / 2 in
                (mouseX - centerX, mouseY - centerY)
            | None => (dragOffsetX st, dragOffsetY st)
            end
        | _ =>
            let '(tx, ty) := translation (g_transform g) in
            (mouseX - tx, mouseY - ty)
        end
    | Line l =>
        let centerX := (seg_x1 l + seg_x2 l) / 2 in
        let centerY := (seg_y1 l + seg_y2 l) / 2 in
        (mouseX - centerX, mouseY - centerY)
    | Circle cx cy _ => (mouseX - cx, mouseY - cy)
    | Ellipse cx cy _ _ => (mouseX - cx, mouseY - cy)
    | Rect x y _ _ => (mouseX - x, mouseY - y)
    | Other _ _ => (dragOffsetX st, dragOffsetY st)
    end in
  mkDragState true (isDraggingShape st) (clientX e) (clientY e)
              offsetX offsetY.

(** [updateSiblingLabelPosition] of canvasEvents.js. *)
Definition updateSiblingLabelPosition (d : document) (shapeId : string)
    (s : shape) : document :=
  match s with
  | Circle _ _ _ | Ellipse _ _ _ _ | Rect _ _ _ _ =>
      match sibling_labels d !! shapeId with
      | None => d
      | Some labelEl =>
          let offset := 20 in
          let '(width, height, x, y) :=
            match s with
            | Circle cx cy r =>
                let r := or_default (Some r) 30 in
                let cx := or_default (Some cx) 0 in
                let cy := or_default (Some cy) 0 in
                (r * 2, r * 2, cx, cy)
            | Ellipse cx cy rx ry =>
                let rx := or_default (Some rx) 40 in
                let ry := or_default (Some ry) 30 in
                let cx := or_default (Some cx) 0 in
                let cy := or_default (Some cy) 0 in
                (rx * 2, ry * 2, cx, cy)
            | Rect x y width height =>
                (or_default (Some width) 60, or_default (Some height) 40,
                 or_default (Some x) 0, or_default (Some y) 0)
            | _ => (0, 0, 0, 0)
            end in
          let isCircular := MultiShapeAlignment.isCircular s in
          let '(labelX, labelY) :=
            match data_position labelEl with
            | Above =>
                (if isCircular then x else x + width / 2,
                 if isCircular then y - height / 2 - offset else y - offset)
            | LeftOf =>
                (if isCircular then x - width / 2 - offset else x - offset,
                 if isCircular then y else y + height / 2)
            | RightOf =>
                (if isCircular then x + width / 2 + offset
                 else x + width + offset,
                 if isCircular then y else y + height / 2)
            | Centered =>
                (if isCircular then x else x + width / 2,
                 if isCircular then y + 5 else y + height / 2 + 5)
            | Below | Unset =>
                (if isCircular then x else x + width / 2,
                 if isCircular then y + height / 2 + offset
                 else y + height + offset)
            end in
          mkDocument (nodes d)
            (<[shapeId := mkSiblingLabel (data_position labelEl) labelX labelY]>
               (sibling_labels d))
      end
  | _ => d
  end.

(** [handleShapeDragging] of canvasEvents.js on the selected shape. *)
Definition handleShapeDragging (st : DragState) (d : document)
    (shapeId : string) (mouseX mouseY : R) : outcome :=
  match getShape d shapeId with
  | None => Done d
  | Some shape =>
      let newX := mouseX - dragOffsetX st in
      let newY := mouseY - dragOffsetY st in
      let moved := CanvasEvents.handleShapeDragging (geometry shape) newX newY in
      let d1 :=
        setNode d shapeId (ShapeNode (mkShapeElement moved (connections shape))) in
      let d2 := updateSiblingLabelPosition d1 shapeId moved in
      ConnectionManager.updateShapeConnections d2 shapeId
  end.

(** The offsets taken anew when the threshold is crossed: from the
    translation for every group, arrows included, and none for a line. *)
Definition regrab (st : DragState) (s : shape) (mouseX mouseY : R) : DragState :=
  let '(offsetX, offsetY) :=
    match s with
    | Group g =>
        let '(tx, ty) := translation (g_transform g) in
        (mouseX - tx, mouseY - ty)
    | Circle cx cy _ | Ellipse cx cy _ _ => (mouseX - cx, mouseY - cy)
    | Rect x y _ _ => (mouseX - x, mouseY - y)
    | _ => (dragOffsetX st, dragOffsetY st)
    end in
  mkDragState (isMouseDown st) true (dragStartX st) (dragStartY st)
              offsetX offsetY.

(** [handleGlobalMouseMove] while the canvas is neither panned nor a shape
    resized nor an endpoint dragged; the selected shape is the element with
    id [shapeId], none when there is no such shape. *)
Definition handleGlobalMouseMove (st : DragState) (v : viewport)
    (d : document) (shapeId : string) (e : MouseEvent) : DragState * outcome :=
  let '(mouseX, mouseY) := pointer v e in
  match getShape d shapeId with
  | None => (st, Done d)
  | Some shape =>
      let st1 :=
        if isMouseDown st && negb (isDraggingShape st) then
          let deltaX := Rabs (clientX e - dragStartX st) in
          let deltaY := Rabs (clientY e - dragStartY st) in
          let distance := sqrt (deltaX * deltaX + deltaY * deltaY) in
          if Rlt_dec dragThreshold distance
          then regrab st (geometry shape) mouseX mouseY
          else st
        else st in
      if isDraggingShape st1
      then (st1, handleShapeDragging st1 d shapeId mouseX mouseY)
      else (st1, Done d)
  end.

End Dragging.

(* ------------------------------------------------------------------ *)
(** * Vocabulary of the properties *)

(** The exit parameter of the specification,
    [min(halfHeight / |sin th|, halfWidth / |cos th|)], a quotient by zero
    counting as infinite. *)
Definition exitParameter (halfWidth halfHeight cosT sinT : R) : R :=
  if Req_dec_T sinT 0 then halfWidth / Rabs cosT
  else if Req_dec_T cosT 0 then halfHeight / Rabs sinT
       else Rmin (halfHeight / Rabs sinT) (halfWidth / Rabs cosT).

(** A point of the perimeter of a box. *)
Definition onPerimeter (b : ShapeFactory.Bounds) (px py : R) : Prop :=
  let x0 := ShapeFactory.x b in
  let y0 := ShapeFactory.y b in
  let x1 := x0 + ShapeFactory.width b in
  let y1 := y0 + ShapeFactory.height b in
  ((px = x0 \/ px = x1) /\ y0 <= py <= y1) \/
  ((py = y0 \/ py = y1) /\ x0 <= px <= x1).

Definition finitePoint (px py : R) : point := mkPoint (Fin px) (Fin py).

Definition shiftBounds (b : ShapeFactory.Bounds) (dx dy : R)
    : ShapeFactory.Bounds :=
  ShapeFactory.mkBounds
    (ShapeFactory.x b + dx) (ShapeFactory.y b + dy)
    (ShapeFactory.width b) (ShapeFactory.height b)
    (ShapeFactory.left b + dx) (ShapeFactory.right b + dx)
    (ShapeFactory.top b + dy) (ShapeFactory.bottom b + dy)
    (ShapeFactory.centerX b + dx) (ShapeFactory.centerY b + dy).

Definition shiftAlignmentBounds (b : MultiShapeAlignment.Bounds) (dx dy : R)
    : MultiShapeAlignment.Bounds :=
  MultiShapeAlignment.mkBounds
    (MultiShapeAlignment.x b + dx) (MultiShapeAlignment.y b + dy)
    (MultiShapeAlignment.width b) (MultiShapeAlignment.height b)
    (MultiShapeAlignment.centerX b + dx) (MultiShapeAlignment.centerY b + dy)
    (MultiShapeAlignment.right b + dx) (MultiShapeAlignment.bottom b + dy).

(** An arrow group holds its [.arrow-line]. *)
Definition arrowHasLine (s : shape) : Prop :=
  match s with
  | Group g => g_type g = GArrow -> g_arrow_line g <> None
  | _ => True
  end.


Definition idsOf (o : option (list string)) : list string :=
  match o with
  | Some ids => ids
  | None => []
  end.


Definition maxFrom (prefix : string) (ids : list string) (acc : N) : N :=
  fold_left (fun max id =>
               match numberedId prefix id with
               | Some n => N.max max n
               | None => max
               end) ids acc.


Definition anchoredEnds : endpoints :=
  mkEndpoints (Fin 50) (Fin 25) (Fin 200) (Fin 25).

(** Two squares, [shape-1] at (0,0) and [shape-2] at (200,0), joined by
    [connection-1] with its three labels, as [createConnection] leaves
    them. *)
Definition joinedSquares : document :=
  mkDocument
    (list_to_map
       [("shape-1"%string,
         ShapeNode (mkShapeElement (Rect 0 0 50 50) ["connection-1"%string]));
        ("shape-2"%string,
         ShapeNode (mkShapeElement (Rect 200 0 50 50) ["connection-1"%string]));
        ("connection-1"%string,
         ConnectionNode
           (mkConnection "shape-1" "shape-2"
              (Some anchoredEnds) (Some anchoredEnds)
              (Some "label-connection-1-source"%string)
              (Some "label-connection-1-target"%string)
              (Some "label-connection-1-center"%string)));
        ("label-connection-1-source"%string,
         LabelNode (mkLabel (Fin 85) (Fin 25) (Some 25) (Some 25) (Some 60)));
        ("label-connection-1-target"%string,
         LabelNode (mkLabel (Fin 165) (Fin 25) (Some 225) (Some 25) (Some 60)));
        ("label-connection-1-center"%string,
         LabelNode (mkLabel (Fin 125) (Fin 25) None None None))])
    ∅.

(** The same scene as a legacy document: the connection carries no label
    ids. *)
Definition legacySquares : document :=
  setNode joinedSquares "connection-1"
    (ConnectionNode
       (mkConnection "shape-1" "shape-2"
          (Some anchoredEnds) (Some anchoredEnds) None None None)).

(** The unit vector from [c] towards [p]. *)
Definition bearing (c p : R * R) : R * R :=
  let dx := fst p - fst c in
  let dy := snd p - snd c in
  let len := sqrt (dx * dx + dy * dy) in
  (dx / len, dy / len).

(** [l'] sits at distance [r] from [center] in the direction [u]. *)
Definition onCircleAt (l' : label) (center : R * R) (r : R) (u : R * R)
    : Prop :=
  label_x l' = Fin (fst center + fst u * r)
  /\ label_y l' = Fin (snd center + snd u * r).


(** Every shape of the document is of a kind the bounds resolver handles. *)
Definition allResolvable (d : document) : Prop :=
  forall id s,
    getShape d id = Some s -> ShapeFactory.getShapeBounds (geometry s) <> None.

Definition isShape (n : node) : bool :=
  match n with
  | ShapeNode _ => true
  | _ => false
  end.

(** [e] has the shapes and the shape labels of [d]. *)
Definition sameShapes (d e : document) : Prop :=
  (forall k, getShape e k = getShape d k)
  /\ sibling_labels e = sibling_labels d.

(** The kinds of shape [moveShapeToPosition] places at the requested
    position: circles, ellipses, rectangles, and groups whose content box
    starts at the origin of the group. *)
Definition alignable (s : shape) : Prop :=
  match s with
  | Circle _ _ _ | Ellipse _ _ _ _ | Rect _ _ _ _ => True
  | Group g => box_x (g_content g) = 0 /\ box_y (g_content g) = 0
  | _ => False
  end.

Definition isMinimum (lo : R) (l : list R) : Prop :=
  In lo l /\ forall v, In v l -> lo <= v.

Definition isMaximum (hi : R) (l : list R) : Prop :=
  In hi l /\ forall v, In v l -> v <= hi.

(** A square and a line element, not connected. *)
Definition squareAndLine : document :=
  mkDocument
    (list_to_map
       [("shape-1"%string, ShapeNode (mkShapeElement (Rect 0 0 50 50) []));
        ("shape-2"%string,
         ShapeNode (mkShapeElement (Line (mkSegment 100 0 200 0)) []))])
    ∅.

(** Three squares of width 50 at x = 0, 100 and 260. *)
Definition threeSquares : document :=
  mkDocument
    (list_to_map
       [("shape-1"%string, ShapeNode (mkShapeElement (Rect 0 0 50 50) []));
        ("shape-2"%string, ShapeNode (mkShapeElement (Rect 100 0 50 50) []));
        ("shape-3"%string, ShapeNode (mkShapeElement (Rect 260 0 50 50) []))])
    ∅.

(** Two squares of width 50 at x = 0 and 260 around a line from x = 100 to
    x = 150. *)
Definition squaresAroundLine : document :=
  mkDocument
    (list_to_map
       [("shape-1"%string, ShapeNode (mkShapeElement (Rect 0 0 50 50) []));
        ("shape-2"%string,
         ShapeNode (mkShapeElement (Line (mkSegment 100 0 150 0)) []));
        ("shape-3"%string, ShapeNode (mkShapeElement (Rect 260 0 50 50) []))])
    ∅.

(** The two joined squares after [shape-1] went 100 down. *)
Definition movedSquares : document :=
  setNode joinedSquares "shape-1"
    (ShapeNode (mkShapeElement (Rect 0 100 50 50) ["connection-1"%string])).



Section MigrationVocabulary.
Import ConnectionManager.

(** The attributes the migration writes on a connection. *)
Definition backfilled (d : document) (connectionId : string) (c : connection)
    : connection :=
  let found (role : string) (old : option string) :=
    if hasElement d (labelId connectionId role)
    then Some (labelId connectionId role)
    else old in
  mkConnection (data_source c) (data_target c) (connection_line c)
    (connection_hit_target c)
    (found "source"%string (data_source_label_id c))
    (found "target"%string (data_target_label_id c))
    (found "center"%string (data_center_label_id c)).

Definition carriesLabelIds (c : connection) : bool :=
  truthy (data_source_label_id c) && truthy (data_target_label_id c).

(** A connection the migration leaves alone. *)
Definition settled (d : document) (id : string) : Prop :=
  migrateConnection d id = d.

End MigrationVocabulary.

Section AlignmentVocabulary.
Import MultiShapeAlignment.

(** One step of a plan: a shape id and the position it is moved to. *)
Definition place (d : document) (p : string * (R * R)) : outcome :=
  moveShapeToPosition d (fst p) (fst (snd p)) (snd (snd p)).

(** The bounds of the element with id [id] ([resolve] pairs each id that
    resolves with them). *)
Definition boundsAt (d : document) (id : string) : Bounds :=
  match getShape d id with
  | Some s => getShapeBounds (geometry s)
  | None => mkBounds 0 0 0 0 0 0 0 0
  end.


(** The positions [placeAlongX] assigns, as a plan. *)
Fixpoint planAlongX (spacing : R) (l : list (string * Bounds)) (currentX : R)
    : list (string * (R * R)) :=
  match l with
  | [] => []
  | (shape, bound) :: rest =>
      (shape, (currentX, y bound))
        :: planAlongX spacing rest (currentX + (width bound + spacing))
  end.

End AlignmentVocabulary.

(** The order of the sort: by increasing key. *)
Definition keyLe {A : Type} (key : A -> R) (a b : A) : Prop := key a <= key b.

(* ------------------------------------------------------------------ *)
(** ** Vocabulary of the further properties *)

(** The fields of a box agree with one another. *)
Definition coherent (b : ShapeFactory.Bounds) : Prop :=
  ShapeFactory.left b = ShapeFactory.x b
  /\ ShapeFactory.top b = ShapeFactory.y b
  /\ ShapeFactory.right b = ShapeFactory.x b + ShapeFactory.width b
  /\ ShapeFactory.bottom b = ShapeFactory.y b + ShapeFactory.height b
  /\ ShapeFactory.centerX b = ShapeFactory.x b + ShapeFactory.width b / 2
  /\ ShapeFactory.centerY b = ShapeFactory.y b + ShapeFactory.height b / 2.

(** The fields the alignment module reads, taken from a box of the shape
    factory. *)
Definition alignmentView (b : ShapeFactory.Bounds)
    : MultiShapeAlignment.Bounds :=
  MultiShapeAlignment.mkBounds
    (ShapeFactory.x b) (ShapeFactory.y b)
    (ShapeFactory.width b) (ShapeFactory.height b)
    (ShapeFactory.centerX b) (ShapeFactory.centerY b)
    (ShapeFactory.right b) (ShapeFactory.bottom b).

(** A line element, or an arrow group that holds its line. *)
Definition isLinear (s : shape) : Prop :=
  match s with
  | Line _ => True
  | Group g => g_type g = GArrow /\ g_arrow_line g <> None
  | _ => False
  end.

(** The ends of a connection as the bounds of its two shapes give them in
    the document. *)
Definition anchorsOf (d : document) (c : connection) : option endpoints :=
  match getShape d (data_source c), getShape d (data_target c) with
  | Some sourceShape, Some targetShape =>
      match ShapeFactory.getShapeBounds (geometry sourceShape),
            ShapeFactory.getShapeBounds (geometry targetShape) with
      | Some sourceBounds, Some targetBounds =>
          let ends :=
            ConnectionManager.findClosestPoints sourceBounds targetBounds in
          Some (mkEndpoints (pt_x (fst ends)) (pt_y (fst ends))
                            (pt_x (snd ends)) (pt_y (snd ends)))
      | _, _ => None
      end
  | _, _ => None
  end.

(** The line and the hit target of the connection, where it has them, run
    between these ends. *)
Definition anchored (d : document) (c : connection) : Prop :=
  forall ends,
    anchorsOf d c = Some ends ->
    (forall e, connection_line c = Some e -> e = ends)
    /\ (forall e, connection_hit_target c = Some e -> e = ends).

(** The element with this id is a shape, with these bounds. *)
Definition connectable (d : document) (id : string) (s : shape_element)
    (b : ShapeFactory.Bounds) : Prop :=
  getShape d id = Some s /\ ShapeFactory.getShapeBounds (geometry s) = Some b.

(** No element of the document has the id the next connection takes, nor
    the ids its labels take. *)
Definition freshConnection (st : AppState) (d : document) : Prop :=
  let connectionId := fst (getNextConnectionId st) in
  nodes d !! connectionId = None
  /\ nodes d !! ConnectionManager.labelId connectionId "source" = None
  /\ nodes d !! ConnectionManager.labelId connectionId "target" = None
  /\ nodes d !! ConnectionManager.labelId connectionId "center" = None.

(** The connection group [createConnection] builds between two shapes. *)
Definition newConnection (connectionId sourceId targetId : string)
    (sourceBounds targetBounds : ShapeFactory.Bounds) : connection :=
  let ends := ConnectionManager.findClosestPoints sourceBounds targetBounds in
  let line :=
    mkEndpoints (pt_x (fst ends)) (pt_y (fst ends))
                (pt_x (snd ends)) (pt_y (snd ends)) in
  mkConnection sourceId targetId (Some line) (Some line)
    (Some (ConnectionManager.labelId connectionId "source"))
    (Some (ConnectionManager.labelId connectionId "target"))
    (Some (ConnectionManager.labelId connectionId "center")).

(** The label of an end of a new connection: on the circle of radius 60
    around [center], towards [other]. *)
Definition newEndLabel (center other : R * R) : label :=
  ConnectionCreation.createConnectionLabel (Fin 0) (Fin 0)
    ConnectionCreation.SourceLabel (Some (center, other)).

(** The centre label of a new connection: at the midpoint of its ends. *)
Definition newCenterLabel (sourceBounds targetBounds : ShapeFactory.Bounds)
    : label :=
  let ends := ConnectionManager.findClosestPoints sourceBounds targetBounds in
  let middle := ConnectionManager.midpoint (fst ends) (snd ends) in
  mkLabel (pt_x middle) (pt_y middle) None None None.

(** The shape with one more back reference. *)
Definition listing (s : shape_element) (connectionId : string) : shape_element :=
  mkShapeElement (geometry s) (connections s ++ [connectionId]).

(** The document [createConnection] leaves when the two shapes differ. *)
Definition connected (d : document) (connectionId sourceId targetId : string)
    (sourceShape targetShape : shape_element)
    (sourceBounds targetBounds : ShapeFactory.Bounds) : document :=
  let d1 :=
    setNode d connectionId
      (ConnectionNode
         (newConnection connectionId sourceId targetId
                        sourceBounds targetBounds)) in
  let d2 :=
    setNode d1 (ConnectionManager.labelId connectionId "source")
      (LabelNode
         (newEndLabel (ConnectionManager.boxCenter sourceBounds)
                      (ConnectionManager.boxCenter targetBounds))) in
  let d3 :=
    setNode d2 (ConnectionManager.labelId connectionId "target")
      (LabelNode
         (newEndLabel (ConnectionManager.boxCenter targetBounds)
                      (ConnectionManager.boxCenter sourceBounds))) in
  let d4 :=
    setNode d3 (ConnectionManager.labelId connectionId "center")
      (LabelNode (newCenterLabel sourceBounds targetBounds)) in
  let d5 := setNode d4 sourceId (ShapeNode (listing sourceShape connectionId)) in
  setNode d5 targetId (ShapeNode (listing targetShape connectionId)).

(** A shape without its back references to one connection. *)
Definition cleaned (connectionId : string) (s : shape_element) : shape_element :=
  mkShapeElement (geometry s)
                 (filter (fun id => id <> connectionId) (connections s)).

(** The number a run of decimal digits denotes, read from the left. *)
Fixpoint denoted (acc : N) (d : Decimal.uint) : N :=
  match d with
  | Decimal.Nil => acc
  | Decimal.D0 l => denoted (10 * acc + 0) l
  | Decimal.D1 l => denoted (10 * acc + 1) l
  | Decimal.D2 l => denoted (10 * acc + 2) l
  | Decimal.D3 l => denoted (10 * acc + 3) l
  | Decimal.D4 l => denoted (10 * acc + 4) l
  | Decimal.D5 l => denoted (10 * acc + 5) l
  | Decimal.D6 l => denoted (10 * acc + 6) l
  | Decimal.D7 l => denoted (10 * acc + 7) l
  | Decimal.D8 l => denoted (10 * acc + 8) l
  | Decimal.D9 l => denoted (10 * acc + 9) l
  end.

Section VerticalVocabulary.
Import MultiShapeAlignment.

(** The positions [placeAlongY] assigns, as a plan. *)
Fixpoint planAlongY (spacing : R) (l : list (string * Bounds)) (currentY : R)
    : list (string * (R * R)) :=
  match l with
  | [] => []
  | (shape, bound) :: rest =>
      (shape, (x bound, currentY))
        :: planAlongY spacing rest (currentY + (height bound + spacing))
  end.

(** The coordinate the shapes are aligned to, horizontally and
    vertically. *)
Definition referenceX (mode : alignment) (bounds : list Bounds) : R :=
  match mode with
  | Leading => minimum (map x bounds)
  | Trailing => maximum (map right bounds)
  | Middle => (minimum (map x bounds) + maximum (map right bounds)) / 2
  end.

Definition referenceY (mode : alignment) (bounds : list Bounds) : R :=
  match mode with
  | Leading => minimum (map y bounds)
  | Trailing => maximum (map bottom bounds)
  | Middle => (minimum (map y bounds) + maximum (map bottom bounds)) / 2
  end.

(** The coordinate of a box that a mode of alignment looks at. *)
Definition edgeX (mode : alignment) (b : Bounds) : R :=
  match mode with
  | Leading => x b
  | Middle => centerX b
  | Trailing => right b
  end.

Definition edgeY (mode : alignment) (b : Bounds) : R :=
  match mode with
  | Leading => y b
  | Middle => centerY b
  | Trailing => bottom b
  end.

End VerticalVocabulary.

(** An icon group as the toolbar creates it: its bounds are those of its
    [svg], whose width and height are numbers other than zero. *)
Definition iconOf (g : group) (iconWidth iconHeight : R) : Prop :=
  g_type g = GIcon
  /\ g_svg g = Some (Some iconWidth, Some iconHeight)
  /\ iconWidth <> 0 /\ iconHeight <> 0.

(** The edges of the bounds across from a resize handle are where they
    were. *)
Definition pivots (handleType : ShapeResize.handle)
    (before after : ShapeFactory.Bounds) : Prop :=
  (if ShapeResize.includesW handleType
   then ShapeFactory.right after = ShapeFactory.right before
   else ShapeFactory.left after = ShapeFactory.left before)
  /\ (if ShapeResize.includesN handleType
      then ShapeFactory.bottom after = ShapeFactory.bottom before
      else ShapeFactory.top after = ShapeFactory.top before).

(** The points of the rectangle with corners [a] and [b], and those of a
    box, edges included. *)
Definition spanned (a b p : R * R) : Prop :=
  Rmin (fst a) (fst b) <= fst p <= Rmax (fst a) (fst b)
  /\ Rmin (snd a) (snd b) <= snd p <= Rmax (snd a) (snd b).

Definition inside (b : box) (p : R * R) : Prop :=
  box_x b <= fst p <= box_x b + box_width b
  /\ box_y b <= snd p <= box_y b + box_height b.

(** The shapes a drag of the selection moves like a drag of the shape
    itself: circles, ellipses, rectangles and the groups other than
    arrows. *)
Definition movable (s : shape) : Prop :=
  match s with
  | Circle _ _ _ | Ellipse _ _ _ _ | Rect _ _ _ _ => True
  | Group g => g_type g <> GArrow
  | _ => False
  end.

(** A shape element at the place a drag of the selection by [(dx, dy)] gives
    it. *)
Definition dragged (dx dy : R) (s : shape_element) : shape_element :=
  let pos := SelectionMode.getShapePosition (geometry s) in
  mkShapeElement
    (SelectionMode.setShapePosition (geometry s) (fst pos + dx) (snd pos + dy))
    (connections s).

(** No shape is listed among the connections of a shape, nor named as a
    label by a connection a shape lists. *)
Definition listsNoShapes (d : document) : Prop :=
  forall id s cid,
    getShape d id = Some s -> In cid (connections s) ->
    getShape d cid = None
    /\ forall c lid,
         getConnection d cid = Some c ->
         In (Some lid) [data_source_label_id c; data_target_label_id c;
                        data_center_label_id c] ->
         getShape d lid = None.

(** How far, on the screen, the pointer of [e] is from that of [press]. *)
Definition travel (press e : Dragging.MouseEvent) : R :=
  sqrt ((Dragging.clientX e - Dragging.clientX press)
        * (Dragging.clientX e - Dragging.clientX press)
        + (Dragging.clientY e - Dragging.clientY press)
          * (Dragging.clientY e - Dragging.clientY press)).

(** The shape [s] of a shape element, displaced. *)
Definition displaced (s : shape_element) (dx dy : R) : shape_element :=
  mkShapeElement (CanvasEvents.translate (geometry s) dx dy) (connections s).

(** The midpoint of a segment. *)
Definition middle (l : segment) : R * R :=
  ((seg_x1 l + seg_x2 l) / 2, (seg_y1 l + seg_y2 l) / 2).

(** The shape is the line element [l], or an arrow that holds the line
    [l]. *)
Definition held (s : shape) (l : segment) : Prop :=
  match s with
  | Line l0 => l0 = l
  | Group g => g_type g = GArrow /\ g_arrow_line g = Some l
  | _ => False
  end.

(** An arrow as the toolbar makes it at (150, 100): a group without a
    transform around a line of length 100, its head and its start
    circle. *)
Definition arrowElement : shape_element :=
  mkShapeElement
    (Group (mkGroup GArrow None None (Some (mkSegment 100 100 200 100)) None
                    (mkBox 96 95 104 10)))
    [].

Definition arrowScene : document :=
  mkDocument (list_to_map [("shape-1"%string, ShapeNode arrowElement)]) ∅.

(** A basic shape whose sizes are not zero. *)
Definition sized (s : shape) : Prop :=
  match s with
  | Circle _ _ r => r <> 0
  | Ellipse _ _ rx ry => rx <> 0 /\ ry <> 0
  | Rect _ _ w h => w <> 0 /\ h <> 0
  | _ => True
  end.

(** No connection of the document joins a shape to itself. *)
Definition noSelfConnection (d : document) : Prop :=
  forall cid c, getConnection d cid = Some c -> data_source c <> data_target c.

(** A zoom configuration as it is meant: a step of at least 1 and a
    positive range that holds the default. *)
Definition sensible (c : Zoom.ZoomConfig) : Prop :=
  1 <= Zoom.STEP c
  /\ 0 < Zoom.MIN c
  /\ Zoom.MIN c <= Zoom.DEFAULT c <= Zoom.MAX c.

(** * Properties *)

(** ** Numbers *)

Lemma norm_zero_iff (dx dy : R) :
  sqrt (dx * dx + dy * dy) = 0 <-> dx = 0 /\ dy = 0.
Proof.
  split.
  - intros H. apply sqrt_eq_0 in H; [nra | nra].
  - intros [-> ->]. replace (0 * 0 + 0 * 0) with 0 by lra. apply sqrt_0.
Qed.

Lemma norm_pos (dx dy : R) :
  (dx, dy) <> (0, 0) -> 0 < sqrt (dx * dx + dy * dy).
Proof.
  intros H.
  destruct (Rle_lt_or_eq_dec 0 _ (sqrt_pos (dx * dx + dy * dy))) as [Hp | He].
  - exact Hp.
  - symmetry in He. apply norm_zero_iff in He as [-> ->]. congruence.
Qed.

Lemma unit_direction (dx dy : R) :
  (dx, dy) <> (0, 0) ->
  let len := sqrt (dx * dx + dy * dy) in
  (dx / len) * (dx / len) + (dy / len) * (dy / len) = 1.
Proof.
  intros H len.
  assert (Hl : 0 < len) by (apply norm_pos; exact H).
  assert (Hs : len * len = dx * dx + dy * dy) by (apply sqrt_sqrt; nra).
  field_simplify_eq; [| lra]. nra.
Qed.

Lemma js_div_abs_zero (a : R) :
  0 < a -> js_div (Fin a) (js_abs (Fin 0)) = PInf.
Proof.
  intros Ha. simpl. rewrite Rabs_R0.
  destruct (Req_dec_T 0 0) as [_ | Hn]; [| lra].
  unfold signed. destruct (Rlt_dec 0 a); [reflexivity | lra].
Qed.

Lemma js_div_abs_nonzero (a b : R) :
  b <> 0 -> js_div (Fin a) (js_abs (Fin b)) = Fin (a / Rabs b).
Proof.
  intros Hb. simpl.
  destruct (Req_dec_T (Rabs b) 0) as [He | _]; [| reflexivity].
  exfalso. apply Rabs_no_R0 in Hb. exact (Hb He).
Qed.

Lemma abs_le_bounds (a b : R) : Rabs a <= b -> - b <= a <= b.
Proof. unfold Rabs. destruct (Rcase_abs a); lra. Qed.

Lemma abs_eq_cases (a b : R) : Rabs a = b -> a = b \/ a = - b.
Proof. unfold Rabs. destruct (Rcase_abs a); lra. Qed.

(** ** Anchors *)

Section Anchor.
Import ShapeFactory ConnectionManager.

(** The anchor along a non-zero direction, for a box of positive size: it is
    finite, it sits at the exit parameter along the unit direction, and it is
    on the perimeter of the box centred at [c]. *)
Lemma boundary_intersection_exit (b : Bounds) (c : R * R) (dx dy : R) :
  0 < width b -> 0 < height b -> (dx, dy) <> (0, 0) ->
  let len := sqrt (dx * dx + dy * dy) in
  let t := exitParameter (width b / 2) (height b / 2) (dx / len) (dy / len) in
  findBoundaryIntersection b c dx dy
    = finitePoint (fst c + dx / len * t) (snd c + dy / len * t)
  /\ 0 < t
  /\ ((Rabs (dx / len * t) = width b / 2 /\ Rabs (dy / len * t) <= height b / 2)
      \/ (Rabs (dy / len * t) = height b / 2
          /\ Rabs (dx / len * t) <= width b / 2)).
Proof.
  intros Hw Hh Hd len t.
  assert (Hl : 0 < len) by (apply norm_pos; exact Hd).
  pose proof (unit_direction dx dy Hd) as Hu. cbv zeta in Hu. fold len in Hu.
  unfold findBoundaryIntersection. fold len.
  destruct (Req_dec_T len 0) as [He | _]; [lra |].
  set (nx := dx / len) in *. set (ny := dy / len) in *.
  set (hw := width b / 2) in *. set (hh := height b / 2) in *.
  assert (Hhw : 0 < hw) by (unfold hw; lra).
  assert (Hhh : 0 < hh) by (unfold hh; lra).
  unfold exitParameter in t.
  destruct (Req_dec_T ny 0) as [Hy | Hy].
  - assert (Hx : nx <> 0) by (intros E; rewrite E, Hy in Hu; lra).
    assert (Ha : 0 < Rabs nx) by (apply Rabs_pos_lt; exact Hx).
    rewrite Hy, (js_div_abs_zero hh Hhh), (js_div_abs_nonzero hw nx Hx).
    assert (Ht : 0 < t) by (unfold t; apply Rdiv_lt_0_compat; lra).
    assert (Hat : Rabs nx * t = hw) by (unfold t; field; lra).
    split; [| split].
    + simpl. unfold finitePoint. f_equal.
    + exact Ht.
    + left. split.
      * rewrite Rabs_mult, (Rabs_right t) by lra. exact Hat.
      * rewrite Rmult_0_l, Rabs_R0. lra.
  - destruct (Req_dec_T nx 0) as [Hx | Hx].
    + assert (Ha : 0 < Rabs ny) by (apply Rabs_pos_lt; exact Hy).
      rewrite Hx, (js_div_abs_zero hw Hhw), (js_div_abs_nonzero hh ny Hy).
      assert (Ht : 0 < t) by (unfold t; apply Rdiv_lt_0_compat; lra).
      assert (Hat : Rabs ny * t = hh) by (unfold t; field; lra).
      split; [| split].
      * simpl. unfold finitePoint. f_equal.
      * exact Ht.
      * right. split.
        -- rewrite Rabs_mult, (Rabs_right t) by lra. exact Hat.
        -- rewrite Rmult_0_l, Rabs_R0. lra.
    + assert (Hax : 0 < Rabs nx) by (apply Rabs_pos_lt; exact Hx).
      assert (Hay : 0 < Rabs ny) by (apply Rabs_pos_lt; exact Hy).
      rewrite (js_div_abs_nonzero hw nx Hx), (js_div_abs_nonzero hh ny Hy).
      assert (Hth : Rabs ny * (hh / Rabs ny) = hh) by (field; lra).
      assert (Htv : Rabs nx * (hw / Rabs nx) = hw) by (field; lra).
      assert (Hph : 0 < hh / Rabs ny) by (apply Rdiv_lt_0_compat; lra).
      assert (Hpv : 0 < hw / Rabs nx) by (apply Rdiv_lt_0_compat; lra).
      assert (Ht : 0 < t) by (unfold t; apply Rmin_glb_lt; lra).
      split; [| split].
      * simpl. unfold finitePoint. f_equal.
      * exact Ht.
      * rewrite !Rabs_mult, (Rabs_right t) by lra.
        unfold t. destruct (Rle_dec (hh / Rabs ny) (hw / Rabs nx)) as [Hle | Hgt].
        -- rewrite Rmin_left by exact Hle. right. split; [exact Hth | nra].
        -- rewrite Rmin_right by lra. left. split; [exact Htv | nra].
Qed.

(** An offset from the centre that reaches one pair of sides and stays
    within the other pair is a point of the perimeter. *)
Lemma perimeter_of_offsets (b : Bounds) (ox oy : R) :
  0 < width b -> 0 < height b ->
  (Rabs ox = width b / 2 /\ Rabs oy <= height b / 2)
  \/ (Rabs oy = height b / 2 /\ Rabs ox <= width b / 2) ->
  onPerimeter b (fst (boxCenter b) + ox) (snd (boxCenter b) + oy).
Proof.
  intros Hw Hh H. unfold onPerimeter, boxCenter. simpl.
  destruct H as [[Ha Hb] | [Ha Hb]];
    apply abs_eq_cases in Ha; apply abs_le_bounds in Hb.
  - left. split; [destruct Ha; [right | left]; lra | lra].
  - right. split; [destruct Ha; [right | left]; lra | lra].
Qed.

End Anchor.

Section AnchorClaims.
Import ShapeFactory ConnectionManager.

(** Along a horizontal direction the anchor is the middle of the left or
    right side. *)
Lemma boundary_intersection_rightwards (b : Bounds) (c : R * R) (dx : R) :
  0 < width b -> 0 < height b -> 0 < dx ->
  findBoundaryIntersection b c dx 0 = finitePoint (fst c + width b / 2) (snd c).
Proof.
  intros Hw Hh Hdx.
  assert (Hd : (dx, 0) <> (0, 0)) by (intros E; inversion E; lra).
  destruct (boundary_intersection_exit b c dx 0 Hw Hh Hd) as (-> & _ & _).
  assert (Hlen : sqrt (dx * dx + 0 * 0) = dx).
  { replace (dx * dx + 0 * 0) with (dx * dx) by lra. apply sqrt_square. lra. }
  rewrite Hlen. unfold exitParameter.
  replace (0 / dx) with 0 by (field; lra).
  replace (dx / dx) with 1 by (field; lra).
  destruct (Req_dec_T 0 0) as [_ | Hn]; [| lra].
  rewrite Rabs_R1. unfold finitePoint. f_equal; f_equal; lra.
Qed.

Lemma boundary_intersection_leftwards (b : Bounds) (c : R * R) (dx : R) :
  0 < width b -> 0 < height b -> dx < 0 ->
  findBoundaryIntersection b c dx (- 0)
    = finitePoint (fst c - width b / 2) (snd c).
Proof.
  intros Hw Hh Hdx.
  assert (Hd : (dx, - 0) <> (0, 0)) by (intros E; inversion E; lra).
  destruct (boundary_intersection_exit b c dx (- 0) Hw Hh Hd) as (-> & _ & _).
  assert (Hlen : sqrt (dx * dx + - 0 * - 0) = - dx).
  { replace (dx * dx + - 0 * - 0) with (- dx * - dx) by lra.
    apply sqrt_square. lra. }
  rewrite Hlen. unfold exitParameter.
  replace (- 0 / - dx) with 0 by (field; lra).
  replace (dx / - dx) with (- 1) by (field; lra).
  destruct (Req_dec_T 0 0) as [_ | Hn]; [| lra].
  assert (Hone : Rabs (- 1) = 1)
    by (unfold Rabs; destruct (Rcase_abs (- 1)); lra).
  rewrite Hone. unfold finitePoint. f_equal; f_equal; lra.
Qed.

(** Without a positive height there may be no anchor: for a box of height
    zero and a horizontal direction the candidate of the horizontal edges is
    0 / 0. *)
Example flat_box_has_no_anchor :
  findBoundaryIntersection (mkBounds 0 0 50 0 0 50 0 0 25 0) (25, 0) 1 0
  = mkPoint NaN NaN.
Proof.
  unfold findBoundaryIntersection. simpl.
  replace (1 * 1 + 0 * 0) with 1 by lra. rewrite sqrt_1.
  destruct (Req_dec_T 1 0) as [E | _]; [lra |].
  replace (0 / 1) with 0 by lra. replace (0 / 2) with 0 by lra.
  rewrite Rabs_R0. destruct (Req_dec_T 0 0) as [_ | E]; [| lra].
  unfold signed. destruct (Rlt_dec 0 0) as [E | _]; [lra |]. reflexivity.
Qed.

(** C10.  For a non-zero direction and a box of positive width and height
    the boundary intersection is a finite point, at a positive finite
    parameter along the unit direction.  When the direction is exactly
    horizontal the candidate of the horizontal edges is a division by zero
    and evaluates to +Infinity, and the parameter used is the finite
    candidate of the vertical edges; symmetrically for an exactly vertical
    direction. *)
Theorem boundary_intersection_is_finite (b : Bounds) (c : R * R) (dx dy : R) :
  (dx, dy) <> (0, 0) -> 0 < width b -> 0 < height b ->
  let len := sqrt (dx * dx + dy * dy) in
  exists t : R,
    0 < t
    /\ findBoundaryIntersection b c dx dy
       = finitePoint (fst c + dx / len * t) (snd c + dy / len * t)
    /\ (dy = 0 ->
        js_div (Fin (height b / 2)) (js_abs (Fin (dy / len))) = PInf
        /\ t = width b / 2 / Rabs (dx / len))
    /\ (dx = 0 ->
        js_div (Fin (width b / 2)) (js_abs (Fin (dx / len))) = PInf
        /\ t = height b / 2 / Rabs (dy / len)).
Proof.
  intros Hd Hw Hh len.
  destruct (boundary_intersection_exit b c dx dy Hw Hh Hd) as (Hp & Ht & _).
  fold len in Hp, Ht.
  assert (Hl : 0 < len) by (apply norm_pos; exact Hd).
  exists (exitParameter (width b / 2) (height b / 2) (dx / len) (dy / len)).
  split; [exact Ht |]. split; [exact Hp |]. split.
  - intros ->. replace (0 / len) with 0 by (field; lra). split.
    + apply js_div_abs_zero. lra.
    + unfold exitParameter. destruct (Req_dec_T 0 0); [reflexivity | lra].
  - intros ->. replace (0 / len) with 0 by (field; lra). split.
    + apply js_div_abs_zero. lra.
    + unfold exitParameter.
      assert (Hy : dy / len <> 0).
      { intros E. assert (dy = 0) by (apply (Rmult_eq_reg_r (/ len));
          [unfold Rdiv in E; lra | apply Rinv_neq_0_compat; lra]).
        subst dy. apply Hd. reflexivity. }
      destruct (Req_dec_T (dy / len) 0); [contradiction |].
      destruct (Req_dec_T 0 0); [reflexivity | lra].
Qed.

Lemma boundary_intersection_is_finite_witness :
  exists t : R,
    0 < t
    /\ findBoundaryIntersection
         (mkBounds 0 0 50 50 0 50 0 50 25 25) (25, 25) 200 0
       = finitePoint (25 + 200 / sqrt (200 * 200 + 0 * 0) * t)
                     (25 + 0 / sqrt (200 * 200 + 0 * 0) * t).
Proof.
  destruct (boundary_intersection_is_finite
              (mkBounds 0 0 50 50 0 50 0 50 25 25) (25, 25) 200 0)
    as (t & Ht & Hp & _).
  - intros E. inversion E. lra.
  - simpl. lra.
  - simpl. lra.
  - exists t. split; [exact Ht | exact Hp].
Defined.

(** C1.  For two boxes of positive size with distinct centres, each anchor
    is the finite point at the exit parameter
    [min(halfHeight / |sin th|, halfWidth / |cos th|)] along the unit
    direction from the centre of its box towards the centre of the other box,
    and lies on the perimeter of its box; when the centres coincide both
    anchors are the centres; and the boxes (0,0,50,50) and (200,0,50,50) are
    anchored at (50,25) and (200,25). *)
Theorem anchors_exit_the_bounding_rectangles (s t : Bounds) :
  let cs := boxCenter s in
  let ct := boxCenter t in
  let dx := fst ct - fst cs in
  let dy := snd ct - snd cs in
  let len := sqrt (dx * dx + dy * dy) in
  let cosT := dx / len in
  let sinT := dy / len in
  (0 < width s -> 0 < height s -> 0 < width t -> 0 < height t -> cs <> ct ->
   let ts := exitParameter (width s / 2) (height s / 2) cosT sinT in
   let tt := exitParameter (width t / 2) (height t / 2) (- cosT) (- sinT) in
   findClosestPoints s t
     = (finitePoint (fst cs + cosT * ts) (snd cs + sinT * ts),
        finitePoint (fst ct + - cosT * tt) (snd ct + - sinT * tt))
   /\ onPerimeter s (fst cs + cosT * ts) (snd cs + sinT * ts)
   /\ onPerimeter t (fst ct + - cosT * tt) (snd ct + - sinT * tt))
  /\ (cs = ct ->
      findClosestPoints s t
        = (finitePoint (fst cs) (snd cs), finitePoint (fst ct) (snd ct)))
  /\ (forall sb tb,
        getShapeBounds (Rect 0 0 50 50) = Some sb ->
        getShapeBounds (Rect 200 0 50 50) = Some tb ->
        findClosestPoints sb tb = (finitePoint 50 25, finitePoint 200 25)).
Proof.
  intros cs ct dx dy len cosT sinT. split; [| split].
  - intros Hws Hhs Hwt Hht Hne ts tt.
    assert (Hd : (dx, dy) <> (0, 0)).
    { intros E. inversion E as [[Ex Ey]]. apply Hne.
      destruct cs as [a b], ct as [a' b']. unfold dx, dy in *. simpl in *.
      f_equal; lra. }
    assert (Hd' : (- dx, - dy) <> (0, 0)).
    { intros E. inversion E. apply Hd. f_equal; lra. }
    assert (Hl : 0 < len) by (apply norm_pos; exact Hd).
    assert (Hlen' : sqrt (- dx * - dx + - dy * - dy) = len).
    { unfold len. f_equal. lra. }
    destruct (boundary_intersection_exit s cs dx dy Hws Hhs Hd)
      as (Hps & Hts & Hbs).
    destruct (boundary_intersection_exit t ct (- dx) (- dy) Hwt Hht Hd')
      as (Hpt & Htt & Hbt).
    rewrite Hlen' in Hpt, Htt, Hbt.
    replace (- dx / len) with (- cosT) in Hpt, Htt, Hbt
      by (unfold cosT; field; lra).
    replace (- dy / len) with (- sinT) in Hpt, Htt, Hbt
      by (unfold sinT; field; lra).
    fold len cosT sinT ts in Hps, Hts, Hbs. fold tt in Hpt, Htt, Hbt.
    split; [| split].
    + unfold findClosestPoints. fold cs ct dx dy. rewrite Hps, Hpt. reflexivity.
    + apply perimeter_of_offsets; [lra | lra | exact Hbs].
    + apply perimeter_of_offsets; [lra | lra | exact Hbt].
  - intros E. unfold findClosestPoints. fold cs ct dx dy.
    assert (Hx : dx = 0) by (unfold dx; rewrite E; lra).
    assert (Hy : dy = 0) by (unfold dy; rewrite E; lra).
    rewrite Hx, Hy. unfold findBoundaryIntersection.
    replace (0 * 0 + 0 * 0) with 0 by lra.
    replace (- 0 * - 0 + - 0 * - 0) with 0 by lra.
    rewrite sqrt_0. destruct (Req_dec_T 0 0); [reflexivity | lra].
  - intros sb tb Hs Ht. simpl in Hs, Ht.
    injection Hs as <-. injection Ht as <-.
    unfold findClosestPoints, boxCenter. simpl.
    replace (200 + 50 / 2 - (0 + 50 / 2)) with 200 by lra.
    replace (0 + 50 / 2 - (0 + 50 / 2)) with 0 by lra.
    rewrite boundary_intersection_rightwards by (simpl; lra).
    rewrite boundary_intersection_leftwards by (simpl; lra).
    unfold finitePoint. simpl. repeat f_equal; lra.
Qed.

Lemma anchors_exit_the_bounding_rectangles_witness :
  let s := mkBounds 0 0 50 50 0 50 0 50 25 25 in
  let t := mkBounds 200 0 50 50 200 250 0 50 225 25 in
  let cs := boxCenter s in
  let ct := boxCenter t in
  let dx := fst ct - fst cs in
  let dy := snd ct - snd cs in
  let len := sqrt (dx * dx + dy * dy) in
  let cosT := dx / len in
  let sinT := dy / len in
  let ts := exitParameter (width s / 2) (height s / 2) cosT sinT in
  let tt := exitParameter (width t / 2) (height t / 2) (- cosT) (- sinT) in
  findClosestPoints s t
    = (finitePoint (fst cs + cosT * ts) (snd cs + sinT * ts),
       finitePoint (fst ct + - cosT * tt) (snd ct + - sinT * tt))
  /\ onPerimeter s (fst cs + cosT * ts) (snd cs + sinT * ts)
  /\ onPerimeter t (fst ct + - cosT * tt) (snd ct + - sinT * tt).
Proof.
  intros s t.
  apply (proj1 (anchors_exit_the_bounding_rectangles s t)).
  - simpl. lra.
  - simpl. lra.
  - simpl. lra.
  - simpl. lra.
  - unfold boxCenter. simpl. intros E. inversion E. lra.
Defined.

End AnchorClaims.

(** ** Bounds under translation *)

Lemma Rmin_shift (a b d : R) : Rmin (a + d) (b + d) = Rmin a b + d.
Proof. unfold Rmin. destruct (Rle_dec a b), (Rle_dec (a + d) (b + d)); lra. Qed.

Lemma Rmax_shift (a b d : R) : Rmax (a + d) (b + d) = Rmax a b + d.
Proof. unfold Rmax. destruct (Rle_dec a b), (Rle_dec (a + d) (b + d)); lra. Qed.

Lemma midpoint_delta (a b d : R) : (a + b) / 2 + d - (a + b) / 2 = d.
Proof. lra. Qed.

Ltac shifted_fields :=
  repeat rewrite midpoint_delta;
  repeat rewrite Rmin_shift; repeat rewrite Rmax_shift;
  f_equal; try lra.

Lemma lineBounds_shift (l : segment) (p dx dy : R) :
  ShapeFactory.lineBounds (shift_segment l dx dy) p
  = shiftBounds (ShapeFactory.lineBounds l p) dx dy.
Proof.
  unfold ShapeFactory.lineBounds, shiftBounds, shift_segment. simpl.
  shifted_fields.
Qed.

Lemma arrowBounds_shift (l : segment) (dx dy : R) :
  ShapeFactory.arrowBounds (shift_segment l dx dy)
  = shiftBounds (ShapeFactory.arrowBounds l) dx dy.
Proof.
  unfold ShapeFactory.arrowBounds, shiftBounds, shift_segment. simpl.
  shifted_fields.
Qed.

Lemma getBBox_line_shift (l : segment) (dx dy : R) :
  getBBox (Line (shift_segment l dx dy)) = shift_box (getBBox (Line l)) dx dy.
Proof.
  unfold shift_box, shift_segment. simpl. rewrite !Rmin_shift.
  f_equal; f_equal; lra.
Qed.

(** C9.  For every shape the bounds resolver handles, an arrow group holding
    its line, the bounds of the translated shape are the bounds of the shape
    translated: x, y, left, right, top, bottom, centerX and centerY move by
    the displacement and width and height stay.  The same holds for the
    bounds the alignment module computes (x, y, right, bottom, centerX,
    centerY; it has no left and top). *)
Theorem bounds_commute_with_translation (s : shape) (dx dy : R)
    (b : ShapeFactory.Bounds) :
  ShapeFactory.getShapeBounds s = Some b ->
  arrowHasLine s ->
  ShapeFactory.getShapeBounds (CanvasEvents.translate s dx dy)
    = Some (shiftBounds b dx dy)
  /\ MultiShapeAlignment.getShapeBounds (CanvasEvents.translate s dx dy)
     = shiftAlignmentBounds (MultiShapeAlignment.getShapeBounds s) dx dy.
Proof.
  intros Hb Hwf. destruct s as [cx cy r | cx cy rx ry | x y w h | l | g | tag bb].
  - injection Hb as <-. split.
    + unfold shiftBounds, CanvasEvents.translate. simpl. f_equal; f_equal; lra.
    + unfold shiftAlignmentBounds, MultiShapeAlignment.getShapeBounds,
        CanvasEvents.translate. simpl. f_equal; lra.
  - injection Hb as <-. split.
    + unfold shiftBounds, CanvasEvents.translate. simpl. f_equal; f_equal; lra.
    + unfold shiftAlignmentBounds, MultiShapeAlignment.getShapeBounds,
        CanvasEvents.translate. simpl. f_equal; lra.
  - injection Hb as <-. split.
    + unfold shiftBounds, CanvasEvents.translate. simpl. f_equal; f_equal; lra.
    + unfold shiftAlignmentBounds, MultiShapeAlignment.getShapeBounds,
        CanvasEvents.translate. simpl. f_equal; lra.
  - injection Hb as <-. unfold CanvasEvents.translate. simpl. split.
    + rewrite !midpoint_delta. rewrite lineBounds_shift. reflexivity.
    + rewrite !midpoint_delta.
      unfold MultiShapeAlignment.getShapeBounds.
      rewrite getBBox_line_shift. unfold shiftAlignmentBounds, shift_box.
      simpl. f_equal; lra.
  - destruct g as [ty tr bg al svg content]. simpl in Hwf.
    unfold CanvasEvents.translate. simpl in *.
    destruct ty.
    + (* text *)
      destruct bg as [bg |]; destruct tr as [[tx ty] |]; simpl in *;
        injection Hb as <-; (split;
          [ unfold shiftBounds, ShapeFactory.textBounds,
              ShapeFactory.ciscoBounds; simpl; f_equal; f_equal; lra
          | unfold shiftAlignmentBounds,
              MultiShapeAlignment.getShapeBounds; simpl; f_equal; lra ]).
    + (* arrow *)
      destruct al as [line |]; [| exfalso; apply Hwf; reflexivity].
      injection Hb as <-. simpl. rewrite !midpoint_delta. split.
      * rewrite arrowBounds_shift. reflexivity.
      * unfold shiftAlignmentBounds, MultiShapeAlignment.getShapeBounds.
        simpl. destruct tr as [[tx ty] |]; simpl; f_equal; lra.
    + (* icon *)
      destruct tr as [[tx ty] |]; simpl in *; injection Hb as <-; (split;
          [ unfold shiftBounds, ShapeFactory.ciscoBounds; simpl;
            f_equal; f_equal; lra
          | unfold shiftAlignmentBounds,
              MultiShapeAlignment.getShapeBounds; simpl; f_equal; lra ]).
  - discriminate Hb.
Qed.

Lemma bounds_commute_with_translation_witness :
  ShapeFactory.getShapeBounds (CanvasEvents.translate (Rect 0 0 50 50) 200 0)
  = Some (shiftBounds
            (ShapeFactory.mkBounds 0 0 50 50 0 (0 + 50) 0 (0 + 50)
                                   (0 + 50 / 2) (0 + 50 / 2)) 200 0).
Proof.
  apply (bounds_commute_with_translation (Rect 0 0 50 50) 200 0).
  - reflexivity.
  - exact I.
Defined.

(** ** The id counters *)

Lemma maxFrom_upper (prefix : string) (ids : list string) (acc : N) :
  (acc <= maxFrom prefix ids acc)%N
  /\ forall id n,
       In id ids -> numberedId prefix id = Some n ->
       (n <= maxFrom prefix ids acc)%N.
Proof.
  revert acc. induction ids as [| a ids IH]; intros acc.
  - split; [apply N.le_refl | intros id n []].
  - change (maxFrom prefix (a :: ids) acc)
      with (maxFrom prefix ids (match numberedId prefix a with
                                | Some n => N.max acc n
                                | None => acc
                                end)).
    destruct (IH (match numberedId prefix a with
                  | Some n => N.max acc n
                  | None => acc
                  end)) as [Hacc Hall].
    split.
    + destruct (numberedId prefix a); lia.
    + intros id n [<- | Hin] Hn.
      * rewrite Hn in Hacc |- *. lia.
      * exact (Hall id n Hin Hn).
Qed.

Lemma maxNumbered_upper (prefix : string) (ids : list string) (id : string)
    (n : N) :
  In id ids -> numberedId prefix id = Some n -> (n <= maxNumbered prefix ids)%N.
Proof.
  intros Hin Hn.
  exact (proj2 (maxFrom_upper prefix ids 0%N) id n Hin Hn).
Qed.

Example numberedId_shape_7 : numberedId "shape-" "shape-7" = Some 7%N.
Proof. reflexivity. Qed.

Example numberedId_leftmost :
  numberedId "shape-" "shape-x-shape-12b" = Some 12%N.
Proof. reflexivity. Qed.

Example numberedId_none : numberedId "connection-" "shape-3" = None.
Proof. reflexivity. Qed.


Lemma loadTopology_shape_counter (st : AppState) (t : topology)
    (shapeIds : list string) :
  shapes t = Some shapeIds ->
  shapeIdCounter (FileOperations.loadTopology st t)
  = if ((0 <? maxNumbered "shape-" shapeIds)
        && (shapeIdCounter st <=? maxNumbered "shape-" shapeIds))%N
    then (maxNumbered "shape-" shapeIds + 1)%N
    else shapeIdCounter st.
Proof.
  intros H. unfold FileOperations.loadTopology, FileOperations.clearCanvas.
  rewrite H. simpl.
  destruct (_ && _)%N; destruct (topologyConnections t); simpl;
    try reflexivity; destruct (_ && _)%N; reflexivity.
Qed.

Lemma loadTopology_connection_counter (st : AppState) (t : topology)
    (shapeIds : list string) :
  shapes t = Some shapeIds ->
  connectionIdCounter (FileOperations.loadTopology st t)
  = match topologyConnections t with
    | Some connectionIds =>
        if ((0 <? maxNumbered "connection-" connectionIds)
            && (1 <=? maxNumbered "connection-" connectionIds))%N
        then (maxNumbered "connection-" connectionIds + 1)%N
        else 1%N
    | None => 1%N
    end.
Proof.
  intros H. unfold FileOperations.loadTopology, FileOperations.clearCanvas.
  rewrite H. simpl.
  destruct (_ && _)%N; destruct (topologyConnections t); simpl;
    try reflexivity; destruct (_ && _)%N; reflexivity.
Qed.



(** ** Documents *)

Lemma document_eq (d e : document) :
  nodes d = nodes e -> sibling_labels d = sibling_labels e -> d = e.
Proof. destruct d, e. simpl. intros -> ->. reflexivity. Qed.

Lemma setNode_same (d : document) (id : string) (n : node) :
  nodes d !! id = Some n -> setNode d id n = d.
Proof.
  intros H. apply document_eq; [| reflexivity]. simpl.
  apply insert_id. exact H.
Qed.

Lemma setNode_fixed (d : document) (id : string) (n : node) :
  setNode d id n = d -> nodes d !! id = Some n.
Proof.
  intros H. rewrite <- H at 1. simpl. apply lookup_insert_eq.
Qed.

Lemma getConnection_Some (d : document) (id : string) (c : connection) :
  getConnection d id = Some c <-> nodes d !! id = Some (ConnectionNode c).
Proof.
  unfold getConnection. split.
  - destruct (nodes d !! id) as [[| |] |]; intros H; inversion H; reflexivity.
  - intros ->. reflexivity.
Qed.

(** ** The label-id migration *)

Section Migration.
Import ConnectionManager.

Lemma migrateConnection_cases (d : document) (id : string) :
  match getConnection d id with
  | None => migrateConnection d id = d
  | Some c =>
      migrateConnection d id
      = if carriesLabelIds c then d
        else setNode d id (ConnectionNode (backfilled d id c))
  end.
Proof.
  unfold migrateConnection. destruct (getConnection d id); reflexivity.
Qed.

Lemma hasElement_setNode (d : document) (id : string) (n : node) (k : string) :
  is_Some (nodes d !! id) ->
  hasElement (setNode d id n) k = hasElement d k.
Proof.
  intros [m Hm]. unfold hasElement, setNode. simpl.
  destruct (decide (id = k)) as [<- | Hne].
  - rewrite lookup_insert_eq, Hm. reflexivity.
  - rewrite lookup_insert_ne by exact Hne. reflexivity.
Qed.

Lemma backfilled_ext (d e : document) (id : string) (c : connection) :
  (forall k, hasElement e k = hasElement d k) ->
  backfilled e id c = backfilled d id c.
Proof. intros H. unfold backfilled. rewrite !H. reflexivity. Qed.

Lemma backfilled_twice (d : document) (id : string) (c : connection) :
  backfilled d id (backfilled d id c) = backfilled d id c.
Proof.
  unfold backfilled. simpl.
  destruct (hasElement d (labelId id "source")),
           (hasElement d (labelId id "target")),
           (hasElement d (labelId id "center")); reflexivity.
Qed.

Lemma migrateConnection_settles (d : document) (id : string) :
  settled (migrateConnection d id) id.
Proof.
  unfold settled.
  pose proof (migrateConnection_cases d id) as H.
  destruct (getConnection d id) as [c |] eqn:Hc.
  - destruct (carriesLabelIds c) eqn:Hcarry; rewrite H.
    + pose proof (migrateConnection_cases d id) as H'.
      rewrite Hc, Hcarry in H'. exact H'.
    + apply getConnection_Some in Hc.
      set (d' := setNode d id (ConnectionNode (backfilled d id c))).
      assert (Hc' : getConnection d' id = Some (backfilled d id c)).
      { apply getConnection_Some. unfold d'. simpl. apply lookup_insert_eq. }
      pose proof (migrateConnection_cases d' id) as H'. rewrite Hc' in H'.
      rewrite H'. destruct (carriesLabelIds (backfilled d id c)); [reflexivity |].
      apply setNode_same.
      rewrite (backfilled_ext d d').
      * rewrite backfilled_twice. unfold d'. simpl. apply lookup_insert_eq.
      * intros k. unfold d'. apply hasElement_setNode. eauto.
  - rewrite H. pose proof (migrateConnection_cases d id) as H'.
    rewrite Hc in H'. exact H'.
Qed.

Lemma migrateConnection_keeps_settled (d : document) (a k : string) :
  settled d k -> settled (migrateConnection d a) k.
Proof.
  intros Hk.
  destruct (decide (a = k)) as [-> | Hne]; [apply migrateConnection_settles |].
  unfold settled in *.
  pose proof (migrateConnection_cases d a) as Ha.
  destruct (getConnection d a) as [ca |] eqn:Hca; [| rewrite Ha; exact Hk].
  destruct (carriesLabelIds ca); rewrite Ha; [exact Hk |].
  apply getConnection_Some in Hca.
  set (d' := setNode d a (ConnectionNode (backfilled d a ca))).
  assert (Hlook : nodes d' !! k = nodes d !! k)
    by (unfold d'; simpl; apply lookup_insert_ne; exact Hne).
  assert (Hget : getConnection d' k = getConnection d k)
    by (unfold getConnection; rewrite Hlook; reflexivity).
  assert (Hhas : forall j, hasElement d' j = hasElement d j)
    by (intros j; unfold d'; apply hasElement_setNode; eauto).
  pose proof (migrateConnection_cases d k) as Hd.
  pose proof (migrateConnection_cases d' k) as Hd'.
  rewrite Hget in Hd'.
  destruct (getConnection d k) as [ck |]; [| exact Hd'].
  rewrite Hd'. rewrite Hd in Hk.
  destruct (carriesLabelIds ck); [reflexivity |].
  apply setNode_same. rewrite (backfilled_ext d d') by exact Hhas.
  rewrite Hlook. apply setNode_fixed. exact Hk.
Qed.

Lemma migrated_settled (ids : list string) (d : document) (k : string) :
  In k ids \/ settled d k ->
  settled (fold_left migrateConnection ids d) k.
Proof.
  revert d. induction ids as [| a ids IH]; intros d H; simpl.
  - destruct H as [[] | H]. exact H.
  - apply IH. destruct H as [[-> | Hin] | Hs].
    + right. apply migrateConnection_settles.
    + left. exact Hin.
    + right. apply migrateConnection_keeps_settled. exact Hs.
Qed.

Lemma migrateConnection_kind (d : document) (a k : string) :
  is_Some (getConnection (migrateConnection d a) k)
  <-> is_Some (getConnection d k).
Proof.
  pose proof (migrateConnection_cases d a) as Ha.
  destruct (getConnection d a) as [ca |] eqn:Hca; [| rewrite Ha; reflexivity].
  destruct (carriesLabelIds ca); rewrite Ha; [reflexivity |].
  unfold getConnection at 1. simpl.
  destruct (decide (a = k)) as [<- | Hne].
  - rewrite lookup_insert_eq, Hca. split; eauto.
  - rewrite lookup_insert_ne by exact Hne. reflexivity.
Qed.

Lemma migrated_kind (ids : list string) (d : document) (k : string) :
  is_Some (getConnection (fold_left migrateConnection ids d) k)
  <-> is_Some (getConnection d k).
Proof.
  revert d. induction ids as [| a ids IH]; intros d; simpl; [reflexivity |].
  rewrite IH. apply migrateConnection_kind.
Qed.

Lemma connectionIds_spec (d : document) (k : string) :
  In k (connectionIds d) <-> is_Some (getConnection d k).
Proof.
  unfold connectionIds. rewrite <- list_elem_of_In, list_elem_of_fmap. split.
  - intros [[k' n] [-> Hin]]. apply list_elem_of_filter in Hin as [Hc Hin].
    apply elem_of_map_to_list in Hin. simpl in *.
    unfold getConnection. rewrite Hin. destruct n; try discriminate. eauto.
  - intros [c Hc]. apply getConnection_Some in Hc.
    exists (k, ConnectionNode c). split; [reflexivity |].
    apply list_elem_of_filter. split; [reflexivity |].
    apply elem_of_map_to_list. exact Hc.
Qed.

Lemma all_settled_fixed (ids : list string) (d : document) :
  (forall k, settled d k) -> fold_left migrateConnection ids d = d.
Proof.
  intros H. induction ids as [| a ids IH]; simpl; [reflexivity |].
  rewrite (H a). exact IH.
Qed.

Lemma migrated_all_settled (d : document) (k : string) :
  settled (migrateExistingConnections d) k.
Proof.
  unfold migrateExistingConnections.
  destruct (getConnection (fold_left migrateConnection (connectionIds d) d) k)
    as [c |] eqn:Hc.
  - apply migrated_settled. left. apply connectionIds_spec.
    apply (migrated_kind (connectionIds d)). eauto.
  - unfold settled.
    pose proof (migrateConnection_cases
                  (fold_left migrateConnection (connectionIds d) d) k) as H.
    rewrite Hc in H. exact H.
Qed.

(** C3.  The migration is idempotent: run on its own result it changes
    nothing, and this in whatever order the connections are visited.  A
    connection that carries a source and a target label id is skipped, and a
    connection that lacks one of them receives, for each role whose element
    [label-<connectionId>-<role>] exists, that id. *)
Theorem migration_is_idempotent (d : document) :
  migrateExistingConnections (migrateExistingConnections d)
  = migrateExistingConnections d
  /\ (forall order : list string,
         (forall k, is_Some (getConnection d k) -> In k order) ->
         fold_left migrateConnection order
           (fold_left migrateConnection order d)
         = fold_left migrateConnection order d)
  /\ (forall id c,
         getConnection d id = Some c -> carriesLabelIds c = true ->
         migrateConnection d id = d)
  /\ (forall id c role,
         getConnection d id = Some c -> carriesLabelIds c = false ->
         hasElement d (labelId id role) = true ->
         exists c',
           getConnection (migrateConnection d id) id = Some c'
           /\ (role = "source"%string ->
               data_source_label_id c' = Some (labelId id role))
           /\ (role = "target"%string ->
               data_target_label_id c' = Some (labelId id role))
           /\ (role = "center"%string ->
               data_center_label_id c' = Some (labelId id role))).
Proof.
  split; [| split; [| split]].
  - unfold migrateExistingConnections at 1.
    apply all_settled_fixed. intros k. apply migrated_all_settled.
  - intros order Hvisits. apply all_settled_fixed. intros k.
    destruct (getConnection (fold_left migrateConnection order d) k)
      as [c |] eqn:Hc.
    + apply migrated_settled. left. apply Hvisits.
      apply (migrated_kind order). eauto.
    + unfold settled.
      pose proof (migrateConnection_cases
                    (fold_left migrateConnection order d) k) as H.
      rewrite Hc in H. exact H.
  - intros id c Hc Hcarry.
    pose proof (migrateConnection_cases d id) as H.
    rewrite Hc, Hcarry in H. exact H.
  - intros id c role Hc Hcarry Hhas.
    pose proof (migrateConnection_cases d id) as H.
    rewrite Hc, Hcarry in H. rewrite H.
    exists (backfilled d id c). split.
    + apply getConnection_Some. simpl. apply lookup_insert_eq.
    + unfold backfilled. simpl.
      repeat split; intros ->; rewrite Hhas; reflexivity.
Qed.

End Migration.

(** ** The migration on a legacy document *)

Lemma migration_is_idempotent_witness :
  exists c',
    getConnection
      (ConnectionManager.migrateConnection legacySquares "connection-1")
      "connection-1" = Some c'
    /\ data_source_label_id c' = Some "label-connection-1-source"%string.
Proof.
  destruct (proj2 (proj2 (proj2 (migration_is_idempotent legacySquares)))
              "connection-1"%string
              (mkConnection "shape-1" "shape-2"
                 (Some anchoredEnds) (Some anchoredEnds) None None None)
              "source"%string)
    as (c' & Hc' & Hsource & _).
  - reflexivity.
  - reflexivity.
  - reflexivity.
  - exists c'. split; [exact Hc' | apply Hsource; reflexivity].
Defined.

(** ** Deleting a shape *)

Section Deletion.
Import ConnectionManager.

Lemma removeNode_subseteq (d : document) (id : string) :
  nodes (removeNode d id) ⊆ nodes d.
Proof. simpl. apply delete_subseteq. Qed.

Lemma removeLabel_subseteq (d : document) (o : option string) :
  nodes (removeLabel d o) ⊆ nodes d.
Proof.
  unfold removeLabel. destruct o as [id |]; [| reflexivity].
  destruct (truthy (Some id)); [apply removeNode_subseteq | reflexivity].
Qed.

Lemma deleteListedConnection_subseteq (d : document) (cid : string) :
  nodes (deleteListedConnection d cid) ⊆ nodes d.
Proof.
  unfold deleteListedConnection.
  destruct (nodes d !! cid) as [n |]; [| reflexivity].
  destruct (match n with
            | ConnectionNode c =>
                (data_source_label_id c, data_target_label_id c,
                 data_center_label_id c)
            | _ => (None, None, None)
            end) as [[sourceLabelId targetLabelId] centerLabelId].
  etransitivity; [apply removeLabel_subseteq |].
  etransitivity; [apply removeLabel_subseteq |].
  etransitivity; [apply removeLabel_subseteq |].
  apply removeNode_subseteq.
Qed.

Lemma deleteListedConnection_removes (d : document) (cid : string) :
  nodes (deleteListedConnection d cid) !! cid = None.
Proof.
  unfold deleteListedConnection.
  destruct (nodes d !! cid) as [n |] eqn:Hn; [| exact Hn].
  destruct (match n with
            | ConnectionNode c =>
                (data_source_label_id c, data_target_label_id c,
                 data_center_label_id c)
            | _ => (None, None, None)
            end) as [[sourceLabelId targetLabelId] centerLabelId].
  eapply lookup_weaken_None; [| apply removeLabel_subseteq].
  eapply lookup_weaken_None; [| apply removeLabel_subseteq].
  eapply lookup_weaken_None; [| apply removeLabel_subseteq].
  simpl. apply lookup_delete_eq.
Qed.

Lemma deleteListed_subseteq (l : list string) (d : document) :
  nodes (fold_left deleteListedConnection l d) ⊆ nodes d.
Proof.
  revert d. induction l as [| cid l IH]; intros d; simpl; [reflexivity |].
  etransitivity; [apply IH | apply deleteListedConnection_subseteq].
Qed.

Lemma deleteListed_removes (l : list string) (d : document) (cid : string) :
  In cid l -> nodes (fold_left deleteListedConnection l d) !! cid = None.
Proof.
  revert d. induction l as [| a l IH]; intros d Hin; [destruct Hin |].
  simpl. destruct Hin as [-> | Hin]; [| apply IH; exact Hin].
  eapply lookup_weaken_None; [| apply deleteListed_subseteq].
  apply deleteListedConnection_removes.
Qed.

(** Whatever the document: deleting a shape removes every connection its
    back references list, and every shape that is left has the back
    references it had, those to the removed connections included. *)
Lemma deletion_never_updates_back_references (d : document)
    (shapeId : string) (shape : shape_element) :
  getShape d shapeId = Some shape ->
  let d' := KeyboardShortcuts.deleteSelectedShape d shapeId in
  (forall cid, In cid (connections shape) -> nodes d' !! cid = None)
  /\ (forall k s, getShape d' k = Some s -> getShape d k = Some s).
Proof.
  intros Hs d'.
  assert (Hsub : nodes d' ⊆ nodes d).
  { unfold d', KeyboardShortcuts.deleteSelectedShape, deleteShapeConnections.
    rewrite Hs. etransitivity; [apply removeNode_subseteq |]. simpl.
    apply deleteListed_subseteq. }
  split.
  - intros cid Hin.
    unfold d', KeyboardShortcuts.deleteSelectedShape, deleteShapeConnections.
    rewrite Hs.
    eapply lookup_weaken_None; [| apply removeNode_subseteq]. simpl.
    apply deleteListed_removes. exact Hin.
  - intros k s Hk. unfold getShape in *.
    destruct (nodes d' !! k) as [n |] eqn:Hn; [| discriminate].
    rewrite (lookup_weaken _ _ _ _ Hn Hsub). exact Hk.
Qed.

End Deletion.

(** C2 at the scene of two joined squares: deleting [shape-1] removes the
    connection and its three labels, and [shape-2] still lists
    [connection-1] in its back references, although that connection is no
    longer in the document. *)
Theorem deleting_a_shape_leaves_a_dangling_back_reference :
  let d := KeyboardShortcuts.deleteSelectedShape joinedSquares "shape-1" in
  nodes d !! "shape-1"%string = None
  /\ nodes d !! "connection-1"%string = None
  /\ nodes d !! "label-connection-1-source"%string = None
  /\ nodes d !! "label-connection-1-target"%string = None
  /\ nodes d !! "label-connection-1-center"%string = None
  /\ getShape d "shape-2"
     = Some (mkShapeElement (Rect 200 0 50 50) ["connection-1"%string]).
Proof. repeat split; reflexivity. Qed.

(** Deleting the connection itself does clear the back references of both
    of its endpoints. *)
Lemma deleting_a_connection_clears_back_references :
  let d := ConnectionInteractions.deleteConnection joinedSquares "connection-1" in
  nodes d !! "connection-1"%string = None
  /\ getShape d "shape-1" = Some (mkShapeElement (Rect 0 0 50 50) [])
  /\ getShape d "shape-2" = Some (mkShapeElement (Rect 200 0 50 50) []).
Proof. repeat split; reflexivity. Qed.

(** ** Angles *)

Lemma sqrt_slope (a b : R) :
  a <> 0 -> sqrt (1 + (b / a)²) = sqrt (a * a + b * b) / Rabs a.
Proof.
  intros Ha.
  assert (Hpos : 0 < Rabs a) by (apply Rabs_pos_lt; exact Ha).
  assert (Habs : Rabs a * Rabs a = a * a).
  { unfold Rabs. destruct (Rcase_abs a); lra. }
  assert (Hss : sqrt (a * a + b * b) * sqrt (a * a + b * b) = a * a + b * b)
    by (apply sqrt_sqrt; nra).
  apply sqrt_lem_1.
  - unfold Rsqr. nra.
  - apply Rmult_le_pos; [apply sqrt_pos | left; apply Rinv_0_lt_compat; lra].
  - unfold Rsqr, Rdiv.
    replace (sqrt (a * a + b * b) * / Rabs a
             * (sqrt (a * a + b * b) * / Rabs a))
      with (sqrt (a * a + b * b) * sqrt (a * a + b * b)
            * / (Rabs a * Rabs a)) by (field; lra).
    rewrite Hss, Habs. field. exact Ha.
Qed.

Lemma cos_sin_atan2 (dy dx : R) :
  (dx, dy) <> (0, 0) ->
  cos (atan2 dy dx) = dx / sqrt (dx * dx + dy * dy)
  /\ sin (atan2 dy dx) = dy / sqrt (dx * dx + dy * dy).
Proof.
  intros Hd.
  assert (Hl : 0 < sqrt (dx * dx + dy * dy)) by (apply norm_pos; exact Hd).
  unfold atan2.
  destruct (Rlt_dec 0 dx) as [Hp | Hnp].
  - assert (Ha : dx <> 0) by lra.
    rewrite cos_atan, sin_atan, (sqrt_slope dx dy Ha), (Rabs_right dx) by lra.
    split; field; lra.
  - destruct (Rlt_dec dx 0) as [Hn | Hnn].
    + assert (Ha : dx <> 0) by lra.
      assert (Hc : cos (atan (dy / dx)) = - dx / sqrt (dx * dx + dy * dy)).
      { rewrite cos_atan, (sqrt_slope dx dy Ha), (Rabs_left dx) by lra.
        field; lra. }
      assert (Hs : sin (atan (dy / dx)) = - dy / sqrt (dx * dx + dy * dy)).
      { rewrite sin_atan, (sqrt_slope dx dy Ha), (Rabs_left dx) by lra.
        field; lra. }
      destruct (Rlt_dec dy 0).
      * rewrite cos_minus, sin_minus, cos_PI, sin_PI, Hc, Hs.
        split; field; lra.
      * rewrite neg_cos, neg_sin, Hc, Hs. split; field; lra.
    + assert (Hx : dx = 0) by lra. subst dx.
      assert (Hy : dy <> 0) by (intros ->; apply Hd; reflexivity).
      replace (0 * 0 + dy * dy) with (dy * dy) in * by lra.
      destruct (Rlt_dec 0 dy) as [Hyp | Hynp].
      * rewrite cos_PI2, sin_PI2, sqrt_square by lra. split; field; lra.
      * destruct (Rlt_dec dy 0) as [Hyn | Hynn]; [| lra].
        rewrite cos_neg, sin_neg, cos_PI2, sin_PI2.
        replace (dy * dy) with (- dy * - dy) by lra.
        rewrite sqrt_square by lra. split; field; lra.
Qed.

(** ** Connection labels *)

Lemma bearing_unit (c p : R * R) :
  c <> p ->
  fst (bearing c p) * fst (bearing c p) + snd (bearing c p) * snd (bearing c p)
  = 1.
Proof.
  intros H. unfold bearing. simpl. apply unit_direction.
  intros E. inversion E. apply H. destruct c, p. simpl in *. f_equal; lra.
Qed.

Lemma difference_nonzero (c p : R * R) :
  p <> c -> (fst p - fst c, snd p - snd c) <> (0, 0).
Proof.
  intros H E. inversion E. apply H. destruct c, p. simpl in *. f_equal; lra.
Qed.

Section Labels.
Import ShapeFactory ConnectionManager.




Lemma truthy_Some (s : string) : s <> ""%string -> truthy (Some s) = true.
Proof.
  intros H. simpl. apply negb_true_iff. apply String.eqb_neq. exact H.
Qed.

Lemma getLabel_setNode_ne (d : document) (id k : string) (n : node) :
  id <> k -> getLabel (setNode d id n) k = getLabel d k.
Proof.
  intros H. unfold getLabel, setNode. simpl.
  rewrite lookup_insert_ne by exact H. reflexivity.
Qed.


Lemma withLabel_found (d : document) (id : string) (l : label)
    (f : label -> label) :
  id <> ""%string -> getLabel d id = Some l ->
  withLabel d (Some id) f = setNode d id (LabelNode (f l)).
Proof.
  intros Hid Hl. unfold withLabel. rewrite (truthy_Some id Hid), Hl. reflexivity.
Qed.



End Labels.

(** ** What the recomputation of connections leaves alone *)

Lemma sameShapes_refl (d : document) : sameShapes d d.
Proof. split; reflexivity. Qed.

Lemma sameShapes_trans (d e f : document) :
  sameShapes d e -> sameShapes e f -> sameShapes d f.
Proof.
  intros [H1 H2] [H3 H4]. split.
  - intros k. rewrite H3. apply H1.
  - rewrite H4. exact H2.
Qed.

Lemma setNode_sameShapes (d : document) (id : string) (n : node) :
  getShape d id = None -> isShape n = false ->
  sameShapes d (setNode d id n).
Proof.
  intros Hd Hn. split; [| reflexivity].
  intros k. unfold getShape, setNode in *. simpl.
  destruct (decide (id = k)) as [<- | Hne].
  - rewrite lookup_insert_eq, Hd. destruct n; [discriminate | |]; reflexivity.
  - rewrite lookup_insert_ne by exact Hne. reflexivity.
Qed.

Lemma label_is_not_shape (d : document) (id : string) (l : label) :
  getLabel d id = Some l -> getShape d id = None.
Proof.
  unfold getLabel, getShape. destruct (nodes d !! id) as [[| |] |]; congruence.
Qed.

Lemma connection_is_not_shape (d : document) (id : string) (c : connection) :
  getConnection d id = Some c -> getShape d id = None.
Proof.
  unfold getConnection, getShape.
  destruct (nodes d !! id) as [[| |] |]; congruence.
Qed.

Section Recomputation.
Import ShapeFactory ConnectionManager.

Lemma withLabel_sameShapes (d : document) (o : option string)
    (f : label -> label) :
  sameShapes d (withLabel d o f).
Proof.
  unfold withLabel. destruct o as [id |]; [| apply sameShapes_refl].
  destruct (truthy (Some id)); [| apply sameShapes_refl].
  destruct (getLabel d id) as [l |] eqn:Hl; [| apply sameShapes_refl].
  apply setNode_sameShapes; [| reflexivity].
  exact (label_is_not_shape d id l Hl).
Qed.

Lemma updateConnection_sameShapes (d : document) (cid : string) :
  sameShapes d (state (updateConnection d cid)).
Proof.
  unfold updateConnection.
  destruct (getConnection d cid) as [c |] eqn:Hc; [| apply sameShapes_refl].
  destruct (getShape d (data_source c)) as [ss |]; [| apply sameShapes_refl].
  destruct (getShape d (data_target c)) as [ts |]; [| apply sameShapes_refl].
  destruct (getShapeBounds (geometry ss)) as [sb |]; [| apply sameShapes_refl].
  destruct (getShapeBounds (geometry ts)) as [tb |]; [| apply sameShapes_refl].
  destruct (findClosestPoints sb tb) as [sp tp]. cbv beta iota zeta.
  unfold state.
  eapply sameShapes_trans; [| apply withLabel_sameShapes].
  eapply sameShapes_trans; [| apply withLabel_sameShapes].
  eapply sameShapes_trans; [| apply withLabel_sameShapes].
  apply setNode_sameShapes; [| reflexivity].
  exact (connection_is_not_shape d cid c Hc).
Qed.

Lemma updateConnection_done (d : document) (cid : string) :
  allResolvable d -> exists d', updateConnection d cid = Done d'.
Proof.
  intros Hall. unfold updateConnection.
  destruct (getConnection d cid) as [c |]; [| eauto].
  destruct (getShape d (data_source c)) as [ss |] eqn:Hss; [| eauto].
  destruct (getShape d (data_target c)) as [ts |] eqn:Hts; [| eauto].
  pose proof (Hall _ _ Hss) as Hs. pose proof (Hall _ _ Hts) as Ht.
  destruct (getShapeBounds (geometry ss)) as [sb |]; [| contradiction].
  destruct (getShapeBounds (geometry ts)) as [tb |]; [| contradiction].
  destruct (findClosestPoints sb tb) as [sp tp]. eauto.
Qed.

Lemma allResolvable_sameShapes (d e : document) :
  sameShapes d e -> allResolvable d -> allResolvable e.
Proof.
  intros [Hs _] Hall id s H. rewrite Hs in H. exact (Hall id s H).
Qed.

Lemma forEach_updateConnection (l : list string) (d : document) :
  allResolvable d ->
  exists d', forEach updateConnection l d = Done d' /\ sameShapes d d'.
Proof.
  revert d. induction l as [| cid l IH]; intros d Hall; simpl.
  - exists d. split; [reflexivity | apply sameShapes_refl].
  - destruct (updateConnection_done d cid Hall) as [d1 H1].
    pose proof (updateConnection_sameShapes d cid) as Hsame.
    rewrite H1 in *. simpl in Hsame.
    destruct (IH d1 (allResolvable_sameShapes d d1 Hsame Hall)) as (d' & H' & Hs').
    exists d'. split; [exact H' | exact (sameShapes_trans d d1 d' Hsame Hs')].
Qed.

Lemma updateShapeConnections_done (d : document) (shapeId : string) :
  allResolvable d ->
  exists d',
    updateShapeConnections d shapeId = Done d' /\ sameShapes d d'.
Proof.
  intros Hall. unfold updateShapeConnections.
  destruct (getShape d shapeId) as [s |].
  - apply forEach_updateConnection. exact Hall.
  - exists d. split; [reflexivity | apply sameShapes_refl].
Qed.

End Recomputation.

(** ** Moving shapes to positions *)

Section Moves.
Import MultiShapeAlignment.

Lemma reposition_resolvable (s : shape) (x y : R) :
  ShapeFactory.getShapeBounds s <> None ->
  ShapeFactory.getShapeBounds (reposition s x y) <> None.
Proof.
  destruct s as [| | | | g |]; simpl; try congruence.
  intros _. destruct (g_type g), (g_background g), (g_arrow_line g);
    simpl; try destruct (translation _); congruence.
Qed.

Lemma reposition_bounds (s : shape) (x0 y0 : R) :
  alignable s ->
  let b := getShapeBounds s in
  getShapeBounds (reposition s x0 y0)
  = mkBounds x0 y0 (width b) (height b)
             (x0 + width b / 2) (y0 + height b / 2)
             (x0 + width b) (y0 + height b).
Proof.
  destruct s as [cx cy r | cx cy rx ry | x y w h | l | g | tag bb];
    simpl; intros Ha; try contradiction.
  - unfold getShapeBounds. simpl. f_equal; lra.
  - unfold getShapeBounds. simpl. f_equal; lra.
  - unfold getShapeBounds. simpl. f_equal; lra.
  - destruct Ha as [Hx Hy]. unfold getShapeBounds. simpl.
    rewrite Hx, Hy. destruct (g_transform g) as [[tx ty] |]; simpl;
      f_equal; lra.
Qed.

Lemma updateSiblingLabel_nodes (d : document) (id : string) (s : shape) :
  nodes (updateSiblingLabel d id s) = nodes d.
Proof.
  unfold updateSiblingLabel. destruct (isBasic s); [| reflexivity].
  destruct (sibling_labels d !! id) as [labelEl |]; [| reflexivity].
  destruct (data_position labelEl); reflexivity.
Qed.

Lemma moveShapeToPosition_spec (d : document) (id : string) (s : shape_element)
    (x0 y0 : R) :
  allResolvable d -> getShape d id = Some s ->
  exists d',
    moveShapeToPosition d id x0 y0 = Done d'
    /\ getShape d' id
       = Some (mkShapeElement (reposition (geometry s) x0 y0) (connections s))
    /\ (forall k, k <> id -> getShape d' k = getShape d k)
    /\ allResolvable d'.
Proof.
  intros Hall Hs. unfold moveShapeToPosition. rewrite Hs.
  set (moved := mkShapeElement (reposition (geometry s) x0 y0) (connections s)).
  set (d1 := setNode d id (ShapeNode moved)).
  set (d2 := updateSiblingLabel d1 id (reposition (geometry s) x0 y0)).
  assert (Hget : forall k, getShape d2 k
                           = if decide (id = k) then Some moved
                             else getShape d k).
  { intros k. unfold getShape, d2. rewrite updateSiblingLabel_nodes.
    unfold d1. simpl. destruct (decide (id = k)) as [<- | Hne].
    - rewrite lookup_insert_eq. reflexivity.
    - rewrite lookup_insert_ne by exact Hne. reflexivity. }
  assert (Hall2 : allResolvable d2).
  { intros k sk Hk. rewrite Hget in Hk. destruct (decide (id = k)).
    - injection Hk as <-. simpl. apply reposition_resolvable.
      exact (Hall id s Hs).
    - exact (Hall k sk Hk). }
  destruct (updateShapeConnections_done d2 id Hall2) as (d' & Hd' & Hsame).
  exists d'. split; [exact Hd' |]. pose proof Hsame as [Hshapes _].
  split; [| split].
  - rewrite Hshapes, Hget. destruct (decide (id = id)); [reflexivity | congruence].
  - intros k Hk. rewrite Hshapes, Hget.
    destruct (decide (id = k)); [congruence | reflexivity].
  - exact (allResolvable_sameShapes d2 d' Hsame Hall2).
Qed.

End Moves.

Section Plans.
Import MultiShapeAlignment.

Lemma forEach_place (plan : list (string * (R * R))) (d : document) :
  NoDup (map fst plan) -> allResolvable d ->
  (forall p, In p plan -> is_Some (getShape d (fst p))) ->
  exists d',
    forEach place plan d = Done d'
    /\ allResolvable d'
    /\ (forall id x0 y0,
           In (id, (x0, y0)) plan ->
           exists s,
             getShape d id = Some s
             /\ getShape d' id
                = Some (mkShapeElement (reposition (geometry s) x0 y0)
                                       (connections s)))
    /\ (forall k, ~ In k (map fst plan) -> getShape d' k = getShape d k).
Proof.
  revert d. induction plan as [| [id [x0 y0]] plan IH]; intros d Hnd Hall Hres.
  - exists d. repeat split; try assumption; try reflexivity.
    intros ? ? ? [].
  - simpl in Hnd. apply NoDup_cons in Hnd as [Hnotin Hnd].
    destruct (Hres (id, (x0, y0)) (or_introl eq_refl)) as [s Hs]. simpl in Hs.
    destruct (moveShapeToPosition_spec d id s x0 y0 Hall Hs)
      as (d1 & Hmove & Hat & Hother & Hall1).
    assert (Hne : forall p, In p plan -> fst p <> id).
    { intros p Hp E. apply Hnotin. apply list_elem_of_In.
      rewrite <- E. apply in_map. exact Hp. }
    destruct (IH d1 Hnd Hall1) as (d' & Hrun & Hall' & Hmoved & Hkept).
    { intros p Hp. rewrite (Hother (fst p) (Hne p Hp)).
      apply Hres. right. exact Hp. }
    exists d'. split; [| split; [exact Hall' | split]].
    + simpl. unfold place at 1. simpl. rewrite Hmove. exact Hrun.
    + intros id' x' y' [E | Hin].
      * injection E as <- <- <-. exists s. split; [exact Hs |].
        rewrite Hkept; [exact Hat |].
        intros Hin. apply Hnotin. apply list_elem_of_In. exact Hin.
      * destruct (Hmoved id' x' y' Hin) as (s' & Hs' & Hd').
        exists s'. split; [| exact Hd'].
        rewrite <- Hs'. symmetry. apply Hother.
        exact (Hne (id', (x', y')) Hin).
    + intros k Hk. simpl in Hk. rewrite Hkept by tauto.
      apply Hother. intros E. apply Hk. left. symmetry. exact E.
Qed.

Lemma forEach_map {A B : Type} (f : document -> B -> outcome) (g : A -> B)
    (l : list A) (d : document) :
  forEach f (map g l) d = forEach (fun d a => f d (g a)) l d.
Proof.
  revert d. induction l as [| a l IH]; intros d; simpl; [reflexivity |].
  destruct (f d (g a)); [apply IH | reflexivity].
Qed.

Lemma forEach_ext {A : Type} (f g : document -> A -> outcome) (l : list A)
    (d : document) :
  (forall d a, f d a = g d a) -> forEach f l d = forEach g l d.
Proof.
  intros H. revert d. induction l as [| a l IH]; intros d; simpl;
    [reflexivity |].
  rewrite H. destruct (g d a); [apply IH | reflexivity].
Qed.

Lemma resolve_all (d : document) (ids : list string) :
  (forall id, In id ids -> is_Some (getShape d id)) ->
  resolve d ids = map (fun id => (id, boundsAt d id)) ids.
Proof.
  induction ids as [| id ids IH]; intros H; [reflexivity |].
  unfold resolve in *. simpl. unfold boundsAt.
  destruct (H id (or_introl eq_refl)) as [s Hs]. rewrite Hs. simpl.
  f_equal. apply IH. intros k Hk. apply H. right. exact Hk.
Qed.




End Plans.

(** ** Invalid input to align and distribute *)

Section InvalidInput.
Import MultiShapeAlignment.


Lemma allResolvable_of_list (l : list (string * node))
    (sl : gmap string sibling_label) :
  Forall (fun p =>
            match snd p with
            | ShapeNode s =>
                ShapeFactory.getShapeBounds (geometry s) <> None
            | _ => True
            end) l ->
  allResolvable (mkDocument (list_to_map l) sl).
Proof.
  intros H id s Hs. unfold getShape in Hs. simpl in Hs.
  destruct (list_to_map l !! id) as [n |] eqn:Hn; [| discriminate].
  apply elem_of_list_to_map_2 in Hn. rewrite Forall_forall in H.
  specialize (H _ Hn). simpl in H.
  destruct n; try discriminate. injection Hs as <-. exact H.
Qed.

Lemma joinedSquares_resolvable : allResolvable joinedSquares.
Proof.
  apply allResolvable_of_list. repeat constructor; simpl; discriminate.
Qed.





End InvalidInput.

(** ** Alignment *)

Section Alignment.
Import MultiShapeAlignment.

Lemma fold_Rmin (l : list R) (a : R) :
  fold_left Rmin l a <= a
  /\ (forall v, In v l -> fold_left Rmin l a <= v)
  /\ (fold_left Rmin l a = a \/ In (fold_left Rmin l a) l).
Proof.
  revert a. induction l as [| b l IH]; intros a; simpl.
  - split; [lra | split; [intros v [] | left; reflexivity]].
  - destruct (IH (Rmin a b)) as (H1 & H2 & H3).
    pose proof (Rmin_l a b). pose proof (Rmin_r a b).
    split; [lra | split].
    + intros v [<- | Hv]; [lra | exact (H2 v Hv)].
    + destruct H3 as [H3 | H3]; [| right; right; exact H3].
      rewrite H3. unfold Rmin. destruct (Rle_dec a b); [left | right; left];
        reflexivity.
Qed.

Lemma fold_Rmax (l : list R) (a : R) :
  a <= fold_left Rmax l a
  /\ (forall v, In v l -> v <= fold_left Rmax l a)
  /\ (fold_left Rmax l a = a \/ In (fold_left Rmax l a) l).
Proof.
  revert a. induction l as [| b l IH]; intros a; simpl.
  - split; [lra | split; [intros v [] | left; reflexivity]].
  - destruct (IH (Rmax a b)) as (H1 & H2 & H3).
    pose proof (Rmax_l a b). pose proof (Rmax_r a b).
    split; [lra | split].
    + intros v [<- | Hv]; [lra | exact (H2 v Hv)].
    + destruct H3 as [H3 | H3]; [| right; right; exact H3].
      rewrite H3. unfold Rmax. destruct (Rle_dec a b); [right; left | left];
        reflexivity.
Qed.

Lemma minimum_isMinimum (l : list R) : l <> [] -> isMinimum (minimum l) l.
Proof.
  destruct l as [| a l]; [congruence |]. intros _. unfold minimum.
  destruct (fold_Rmin l a) as (H1 & H2 & H3). split.
  - destruct H3 as [-> | H3]; [left; reflexivity | right; exact H3].
  - intros v [<- | Hv]; [exact H1 | exact (H2 v Hv)].
Qed.

Lemma maximum_isMaximum (l : list R) : l <> [] -> isMaximum (maximum l) l.
Proof.
  destruct l as [| a l]; [congruence |]. intros _. unfold maximum.
  destruct (fold_Rmax l a) as (H1 & H2 & H3). split.
  - destruct H3 as [-> | H3]; [left; reflexivity | right; exact H3].
  - intros v [<- | Hv]; [exact H1 | exact (H2 v Hv)].
Qed.

(** The loop of [alignHorizontal] in the centre mode, as a plan. *)
Lemma alignHorizontal_middle (d : document) (ids : list string) :
  (2 <= length ids)%nat -> (2 <= length (resolve d ids))%nat ->
  alignHorizontal d ids Middle
  = forEach place
      (map (fun p =>
              (fst p,
               ((minimum (map x (map snd (resolve d ids)))
                 + maximum (map right (map snd (resolve d ids)))) / 2
                - width (snd p) / 2,
                y (snd p))))
           (resolve d ids)) d.
Proof.
  intros H1 H2. unfold alignHorizontal.
  destruct (length ids <? 2)%nat eqn:E1; [apply Nat.ltb_lt in E1; lia |].
  destruct (length (resolve d ids) <? 2)%nat eqn:E2;
    [apply Nat.ltb_lt in E2; lia |].
  rewrite forEach_map. apply forEach_ext. intros d0 [id b]. reflexivity.
Qed.

Lemma boundsAt_moved (d : document) (id : string) (s : shape_element)
    (x0 y0 : R) :
  getShape d id
  = Some (mkShapeElement (reposition (geometry s) x0 y0) (connections s)) ->
  boundsAt d id = getShapeBounds (reposition (geometry s) x0 y0).
Proof. intros H. unfold boundsAt. rewrite H. reflexivity. Qed.

(** C4, amended.  For at least two distinct shapes, each a circle, an
    ellipse, a rectangle or a group whose content box starts at the group's
    origin, in a document whose shapes all have bounds: after horizontal
    centre alignment the recomputed bounds of every one of these shapes have
    their centerX at the midpoint of the smallest left edge and the largest
    right edge the shapes had before, and their y is unchanged. *)
Theorem centre_alignment (d : document) (ids : list string) :
  NoDup ids -> (2 <= length ids)%nat -> allResolvable d ->
  (forall id, In id ids ->
     exists s, getShape d id = Some s /\ alignable (geometry s)) ->
  exists d' lo hi,
    alignHorizontal d ids Middle = Done d'
    /\ isMinimum lo (map (fun id => x (boundsAt d id)) ids)
    /\ isMaximum hi (map (fun id => right (boundsAt d id)) ids)
    /\ forall id, In id ids ->
         centerX (boundsAt d' id) = (lo + hi) / 2
         /\ y (boundsAt d' id) = y (boundsAt d id).
Proof.
  intros Hnd Hlen Hall Hkinds.
  assert (Hres : resolve d ids = map (fun id => (id, boundsAt d id)) ids).
  { apply resolve_all. intros id Hid.
    destruct (Hkinds id Hid) as (s & Hs & _). eauto. }
  rewrite alignHorizontal_middle
    by (try exact Hlen; rewrite Hres, length_map; exact Hlen).
  rewrite Hres, !map_map. simpl.
  set (lo := minimum (map (fun id => x (boundsAt d id)) ids)).
  set (hi := maximum (map (fun id => right (boundsAt d id)) ids)).
  assert (Hne : ids <> []) by (destruct ids; [simpl in Hlen; lia | congruence]).
  destruct (forEach_place
              (map (fun id => (id, ((lo + hi) / 2 - width (boundsAt d id) / 2,
                                    y (boundsAt d id)))) ids) d)
    as (d' & Hrun & _ & Hmoved & _).
  - rewrite map_map. simpl. rewrite map_id. exact Hnd.
  - exact Hall.
  - intros p Hp. apply in_map_iff in Hp as (id & <- & Hid). simpl.
    destruct (Hkinds id Hid) as (s & Hs & _). eauto.
  - exists d', lo, hi. split; [exact Hrun |]. split; [| split].
    + apply minimum_isMinimum. destruct ids; [congruence | discriminate].
    + apply maximum_isMaximum. destruct ids; [congruence | discriminate].
    + intros id Hid.
      destruct (Hkinds id Hid) as (s & Hs & Hal).
      destruct (Hmoved id ((lo + hi) / 2 - width (boundsAt d id) / 2)
                  (y (boundsAt d id))) as (s' & Hs' & Hd').
      { apply in_map_iff. exists id. split; [reflexivity | exact Hid]. }
      rewrite Hs in Hs'. injection Hs' as <-.
      rewrite (boundsAt_moved d' id s _ _ Hd').
      rewrite (reposition_bounds (geometry s) _ _ Hal). simpl.
      unfold boundsAt. rewrite Hs. split; lra.
Qed.

End Alignment.

(** ** Sorting *)

Section Sorting.
Import MultiShapeAlignment.
Context {A : Type} (key : A -> R).

Lemma insertBy_perm (a : A) (l : list A) : insertBy key a l ≡ₚ a :: l.
Proof.
  induction l as [| b l IH]; simpl; [reflexivity |].
  destruct (Rlt_dec (key a) (key b)); [reflexivity |].
  rewrite IH. apply Permutation_swap.
Qed.

Lemma insertBy_hd (a b : A) (l : list A) :
  keyLe key b a -> HdRel (keyLe key) b l -> HdRel (keyLe key) b (insertBy key a l).
Proof.
  intros Hba Hl. destruct l as [| c l]; simpl.
  - constructor. exact Hba.
  - destruct (Rlt_dec (key a) (key c)); constructor.
    + exact Hba.
    + inversion Hl. assumption.
Qed.

Lemma insertBy_sorted (a : A) (l : list A) :
  Sorted (keyLe key) l -> Sorted (keyLe key) (insertBy key a l).
Proof.
  induction 1 as [| b l Hs IH Hhd]; simpl.
  - repeat constructor.
  - destruct (Rlt_dec (key a) (key b)) as [Hlt | Hge].
    + constructor; [constructor; assumption |].
      constructor. unfold keyLe. lra.
    + constructor; [exact IH |].
      apply insertBy_hd; [unfold keyLe; lra | exact Hhd].
Qed.

Lemma sortBy_from_perm (l acc : list A) :
  fold_left (fun sorted a => insertBy key a sorted) l acc ≡ₚ l ++ acc.
Proof.
  revert acc. induction l as [| a l IH]; intros acc; simpl; [reflexivity |].
  rewrite IH, insertBy_perm. symmetry. apply Permutation_middle.
Qed.

Lemma sortBy_from_sorted (l acc : list A) :
  Sorted (keyLe key) acc ->
  Sorted (keyLe key) (fold_left (fun sorted a => insertBy key a sorted) l acc).
Proof.
  revert acc. induction l as [| a l IH]; intros acc H; simpl; [exact H |].
  apply IH. apply insertBy_sorted. exact H.
Qed.

Lemma sortBy_perm (l : list A) : sortBy key l ≡ₚ l.
Proof. unfold sortBy. rewrite sortBy_from_perm, app_nil_r. reflexivity. Qed.

Lemma sortBy_sorted (l : list A) : Sorted (keyLe key) (sortBy key l).
Proof. unfold sortBy. apply sortBy_from_sorted. constructor. Qed.

Lemma sorted_adjacent (l : list A) (i : nat) (a b : A) :
  Sorted (keyLe key) l -> l !! i = Some a -> l !! S i = Some b -> key a <= key b.
Proof.
  intros Hs. revert i. induction Hs as [| c l Hs IH Hhd]; intros i Ha Hb.
  - discriminate.
  - destruct i as [| i]; simpl in *.
    + injection Ha as <-. destruct l as [| c' l]; [discriminate |].
      simpl in Hb. injection Hb as <-. inversion Hhd. assumption.
    + exact (IH i Ha Hb).
Qed.

End Sorting.

(** ** Distribution *)

Section Distribution.
Import MultiShapeAlignment.

Lemma placeAlongX_plan (spacing : R) (l : list (string * Bounds))
    (currentX : R) (d : document) :
  placeAlongX spacing l currentX d
  = forEach place (planAlongX spacing l currentX) d.
Proof.
  revert currentX d. induction l as [| [shape bound] l IH]; intros cur d;
    simpl; [reflexivity |].
  unfold place at 1. simpl.
  destruct (moveShapeToPosition d shape cur (y bound)); [apply IH | reflexivity].
Qed.

Lemma planAlongX_fst (spacing : R) (l : list (string * Bounds)) (cur : R) :
  map fst (planAlongX spacing l cur) = map fst l.
Proof.
  revert cur. induction l as [| [shape bound] l IH]; intros cur; simpl;
    [reflexivity |].
  f_equal. apply IH.
Qed.

Lemma planAlongX_adjacent (spacing : R) (l : list (string * Bounds)) (cur : R)
    (i : nat) (p q : string) (bp bq : Bounds) :
  l !! i = Some (p, bp) -> l !! S i = Some (q, bq) ->
  exists xp,
    In (p, (xp, y bp)) (planAlongX spacing l cur)
    /\ In (q, (xp + (width bp + spacing), y bq)) (planAlongX spacing l cur).
Proof.
  revert cur i. induction l as [| [shape bound] l IH]; intros cur i Hp Hq.
  - discriminate.
  - destruct i as [| i]; simpl in Hp, Hq.
    + injection Hp as -> ->. destruct l as [| [shape' bound'] l];
        [discriminate |].
      simpl in Hq. injection Hq as -> ->.
      exists cur. simpl. split; [left | right; left]; reflexivity.
    + destruct (IH (cur + (width bound + spacing)) i Hp Hq) as (xp & H1 & H2).
      exists xp. simpl. split; right; assumption.
Qed.

Lemma total_from (l : list R) (a : R) :
  fold_left Rplus l a = a + fold_left Rplus l 0.
Proof.
  revert a. induction l as [| b l IH]; intros a; simpl; [lra |].
  rewrite (IH (a + b)), (IH (0 + b)). lra.
Qed.

Lemma total_cons (a : R) (l : list R) : total (a :: l) = a + total l.
Proof. unfold total. simpl. rewrite total_from. lra. Qed.

Lemma planAlongX_last (spacing : R) (l : list (string * Bounds)) (cur : R)
    (q : string) (bq : Bounds) :
  last l = Some (q, bq) ->
  exists xq,
    In (q, (xq, y bq)) (planAlongX spacing l cur)
    /\ xq = cur + total (map (fun p => width (snd p)) l) - width bq
            + (INR (length l) - 1) * spacing.
Proof.
  revert cur. induction l as [| [shape bound] l IH]; intros cur Hlast.
  - discriminate.
  - destruct l as [| e l].
    + simpl in Hlast. injection Hlast as -> ->. exists cur. split.
      * left. reflexivity.
      * unfold total. simpl. lra.
    + change (last ((shape, bound) :: e :: l)) with (last (e :: l)) in Hlast.
      destruct (IH (cur + (width bound + spacing)) Hlast) as (xq & Hin & Hx).
      exists xq. split; [right; exact Hin |].
      rewrite Hx. change (map (fun p => width (snd p)) ((shape, bound) :: e :: l))
        with (width bound :: map (fun p => width (snd p)) (e :: l)).
      rewrite total_cons.
      change (length ((shape, bound) :: e :: l)) with (S (length (e :: l))).
      rewrite S_INR. lra.
Qed.

(** The loop of [distributeHorizontal], as a plan. *)
Lemma distributeHorizontal_plan (d : document) (ids : list string)
    (first : string * Bounds) (rest : list (string * Bounds))
    (final : string * Bounds) :
  (3 <= length ids)%nat -> (3 <= length (resolve d ids))%nat ->
  sortBy (fun p => x (snd p)) (resolve d ids) = first :: rest ->
  last (first :: rest) = Some final ->
  distributeHorizontal d ids
  = forEach place
      (planAlongX
         ((right (snd final) - x (snd first)
           - total (map (fun p => width (snd p)) (first :: rest)))
          / (INR (length (first :: rest)) - 1))
         (first :: rest) (x (snd first))) d.
Proof.
  intros H1 H2 Hsort Hlast. unfold distributeHorizontal.
  destruct (length ids <? 3)%nat eqn:E1; [apply Nat.ltb_lt in E1; lia |].
  destruct (length (resolve d ids) <? 3)%nat eqn:E2;
    [apply Nat.ltb_lt in E2; lia |].
  rewrite Hsort, Hlast. apply placeAlongX_plan.
Qed.

End Distribution.

Section DistributionClaims.
Import MultiShapeAlignment.

Lemma lookup_map_Some {A B : Type} (f : A -> B) (l : list A) (i : nat) (b : B) :
  map f l !! i = Some b -> exists a, l !! i = Some a /\ f a = b.
Proof.
  revert i. induction l as [| a l IH]; intros i H; [discriminate |].
  destruct i as [| i]; simpl in H.
  - injection H as <-. exists a. split; reflexivity.
  - exact (IH i H).
Qed.

Lemma last_map_Some {A B : Type} (f : A -> B) (l : list A) (b : B) :
  last (map f l) = Some b -> exists a, last l = Some a /\ f a = b.
Proof.
  induction l as [| a l IH]; intros H; [discriminate |].
  destruct l as [| a' l].
  - simpl in H. injection H as <-. exists a. split; reflexivity.
  - exact (IH H).
Qed.

Lemma lookup_In {A : Type} (l : list A) (i : nat) (a : A) :
  l !! i = Some a -> In a l.
Proof. intros H. apply list_elem_of_In. exact (list_elem_of_lookup_2 l i a H). Qed.

Lemma last_In {A : Type} (l : list A) (a : A) : last l = Some a -> In a l.
Proof.
  induction l as [| b l IH]; intros H; [discriminate |].
  destruct l as [| b' l].
  - simpl in H. injection H as <-. left. reflexivity.
  - right. exact (IH H).
Qed.

Lemma bounds_right (s : shape) :
  right (getShapeBounds s) = x (getShapeBounds s) + width (getShapeBounds s).
Proof.
  destruct s as [| | | | g |]; try reflexivity.
  unfold getShapeBounds. simpl.
  destruct (g_transform g) as [[tx ty] |]; reflexivity.
Qed.

Lemma after_move (d d' : document) (id : string) (s : shape_element)
    (x0 y0 : R) :
  getShape d id = Some s -> alignable (geometry s) ->
  getShape d' id
  = Some (mkShapeElement (reposition (geometry s) x0 y0) (connections s)) ->
  x (boundsAt d' id) = x0
  /\ y (boundsAt d' id) = y0
  /\ right (boundsAt d' id) = x0 + width (boundsAt d id)
  /\ centerX (boundsAt d' id) = x0 + width (boundsAt d id) / 2.
Proof.
  intros Hs Hal Hd'. rewrite (boundsAt_moved d' id s x0 y0 Hd').
  rewrite (reposition_bounds (geometry s) x0 y0 Hal). simpl.
  unfold boundsAt. rewrite Hs. repeat split; reflexivity.
Qed.

(** Distribution of shapes of the kinds that are moved to their position. *)
Lemma distribution_gaps (d : document) (ids : list string) :
  NoDup ids -> (3 <= length ids)%nat -> allResolvable d ->
  (forall id, In id ids ->
     exists s, getShape d id = Some s /\ alignable (geometry s)) ->
  exists d' order gap,
    distributeHorizontal d ids = Done d'
    /\ order ≡ₚ ids
    /\ (forall i p q,
           order !! i = Some p -> order !! S i = Some q ->
           x (boundsAt d p) <= x (boundsAt d q)
           /\ right (boundsAt d' p)
              = x (boundsAt d' p) + width (boundsAt d p)
           /\ x (boundsAt d' q) - right (boundsAt d' p) = gap)
    /\ (forall p, head order = Some p ->
          x (boundsAt d' p) = x (boundsAt d p))
    /\ (forall q, last order = Some q ->
          x (boundsAt d' q) = x (boundsAt d q)).
Proof.
  intros Hnd Hlen Hall Hkinds.
  assert (Hres : resolve d ids = map (fun id => (id, boundsAt d id)) ids).
  { apply resolve_all. intros id Hid.
    destruct (Hkinds id Hid) as (s & Hs & _). eauto. }
  pose proof (sortBy_perm (fun p : string * Bounds => x (snd p))
                (resolve d ids)) as Hperm.
  pose proof (sortBy_sorted (fun p : string * Bounds => x (snd p))
                (resolve d ids)) as Hsorted.
  destruct (sortBy (fun p : string * Bounds => x (snd p)) (resolve d ids))
    as [| first rest] eqn:Hsort.
  { apply Permutation_length in Hperm. rewrite Hres, length_map in Hperm.
    simpl in Hperm. lia. }
  set (sorted := first :: rest) in *.
  assert (Hlen' : length sorted = length ids).
  { apply Permutation_length in Hperm. rewrite Hperm, Hres.
    apply length_map. }
  assert (Hentry : forall p bp,
             In (p, bp) sorted -> bp = boundsAt d p /\ In p ids).
  { intros p bp Hin. apply list_elem_of_In in Hin. rewrite Hperm, Hres in Hin.
    apply list_elem_of_In, in_map_iff in Hin as (id & E & Hid).
    injection E as <- <-. split; [reflexivity | exact Hid]. }
  assert (Horder : map fst sorted ≡ₚ ids).
  { change (map fst sorted) with (fst <$> sorted). rewrite Hperm, Hres.
    change (fst <$> map (fun id => (id, boundsAt d id)) ids)
      with (map fst (map (fun id => (id, boundsAt d id)) ids)).
    rewrite map_map. simpl. rewrite map_id. reflexivity. }
  destruct (last sorted) as [final |] eqn:Hlast;
    [| apply last_None in Hlast; discriminate].
  set (spacing := (right (snd final) - x (snd first)
                   - total (map (fun p => width (snd p)) sorted))
                  / (INR (length sorted) - 1)).
  rewrite (distributeHorizontal_plan d ids first rest final)
    by (try assumption; rewrite ?Hres, ?length_map; assumption).
  fold sorted. fold spacing.
  destruct (forEach_place (planAlongX spacing sorted (x (snd first))) d)
    as (d' & Hrun & _ & Hmoved & _).
  - rewrite planAlongX_fst. rewrite Horder. exact Hnd.
  - exact Hall.
  - intros p Hp. apply (in_map fst) in Hp. rewrite planAlongX_fst in Hp.
    apply list_elem_of_In in Hp. rewrite Horder in Hp.
    apply list_elem_of_In in Hp.
    destruct (Hkinds _ Hp) as (s & Hs & _). eauto.
  - assert (Hafter : forall p bp x0 y0,
               In (p, bp) sorted ->
               In (p, (x0, y0)) (planAlongX spacing sorted (x (snd first))) ->
               x (boundsAt d' p) = x0
               /\ right (boundsAt d' p) = x0 + width bp).
    { intros p bp x0 y0 Hin Hplan.
      destruct (Hentry p bp Hin) as [-> Hid].
      destruct (Hkinds p Hid) as (s & Hs & Hal).
      destruct (Hmoved p x0 y0 Hplan) as (s' & Hs' & Hd').
      rewrite Hs in Hs'. injection Hs' as <-.
      destruct (after_move d d' p s x0 y0 Hs Hal Hd') as (Hx & _ & Hr & _).
      split; assumption. }
    exists d', (map fst sorted), spacing.
    split; [exact Hrun |]. split; [exact Horder |]. split; [| split].
    + intros i p q Hp Hq.
      apply lookup_map_Some in Hp as ([p' bp] & Hp & <-).
      apply lookup_map_Some in Hq as ([q' bq] & Hq & <-). simpl.
      destruct (Hentry p' bp (lookup_In _ _ _ Hp)) as [Ebp _].
      destruct (Hentry q' bq (lookup_In _ _ _ Hq)) as [Ebq _].
      split; [| destruct (planAlongX_adjacent spacing sorted (x (snd first)) i
                          p' q' bp bq Hp Hq) as (xp & Hinp & Hinq)].
      * rewrite <- Ebp, <- Ebq.
        exact (sorted_adjacent (fun p : string * Bounds => x (snd p))
                 sorted i (p', bp) (q', bq) Hsorted Hp Hq).
      * destruct (Hafter p' bp _ _ (lookup_In _ _ _ Hp) Hinp) as [Hxp Hr].
        destruct (Hafter q' bq _ _ (lookup_In _ _ _ Hq) Hinq) as [Hx _].
        rewrite Hr, Hx, Hxp, <- Ebp. split; lra.
    + intros p Hp. unfold sorted in Hp. simpl in Hp. injection Hp as <-.
      destruct first as [p bp]. simpl.
      destruct (Hentry p bp (or_introl eq_refl)) as [Ebp _].
      destruct (Hafter p bp (x bp) (y bp) (or_introl eq_refl)
                  (or_introl eq_refl)) as [Hx _].
      rewrite Hx, Ebp. reflexivity.
    + intros q Hq. apply last_map_Some in Hq as ([q' bq] & Hq & <-). simpl.
      rewrite Hlast in Hq. injection Hq as ->.
      destruct (Hentry q' bq (last_In _ _ Hlast)) as [Ebq Hid].
      destruct (planAlongX_last spacing sorted (x (snd first)) q' bq Hlast)
        as (xq & Hin & Hxq).
      destruct (Hafter q' bq xq (y bq) (last_In _ _ Hlast) Hin) as [Hx _].
      rewrite Hx, Hxq. rewrite <- Ebq.
      assert (Hn : INR (length sorted) - 1 <> 0).
      { rewrite Hlen'. assert (3 <= INR (length ids)).
        { replace 3 with (INR 3) by (simpl; lra). apply le_INR. exact Hlen. }
        lra. }
      assert (Hr : right bq = x bq + width bq).
      { rewrite Ebq. unfold boundsAt. destruct (getShape d q');
          [apply bounds_right | simpl; lra]. }
      unfold spacing. simpl snd. rewrite Hr. field. exact Hn.
Qed.

End DistributionClaims.

(** ** Alignment and distribution on the example scenes *)

Section Scenes.
Import MultiShapeAlignment.

Lemma squareAndLine_resolvable : allResolvable squareAndLine.
Proof.
  apply allResolvable_of_list. repeat constructor; simpl; discriminate.
Qed.

Lemma threeSquares_resolvable : allResolvable threeSquares.
Proof.
  apply allResolvable_of_list. repeat constructor; simpl; discriminate.
Qed.

Lemma squaresAroundLine_resolvable : allResolvable squaresAroundLine.
Proof.
  apply allResolvable_of_list. repeat constructor; simpl; discriminate.
Qed.

Lemma noDup2 (a b : string) : a <> b -> NoDup [a; b].
Proof.
  intros H. repeat constructor; rewrite ?list_elem_of_In; simpl; intuition.
Qed.

Lemma noDup3 (a b c : string) : a <> b -> a <> c -> b <> c -> NoDup [a; b; c].
Proof.
  intros H1 H2 H3.
  repeat constructor; rewrite ?list_elem_of_In; simpl; intuition.
Qed.

(** C4, as stated, fails: a line element resolves but is not moved.
    Centre-aligning the square at x = 0 and the line from x = 100 to x = 200
    puts the centre of the square at 100 and leaves the centre of the line at
    150. *)
Lemma a_line_is_not_aligned :
  exists d',
    alignHorizontal squareAndLine ["shape-1"; "shape-2"]%string Middle = Done d'
    /\ centerX (boundsAt d' "shape-1") = 100
    /\ centerX (boundsAt d' "shape-2") = 150
    /\ centerX (boundsAt d' "shape-1") <> centerX (boundsAt d' "shape-2").
Proof.
  assert (Hmin : Rmin 100 200 = 100) by (apply Rmin_left; lra).
  assert (Habs : Rabs (200 - 100) = 100)
    by (rewrite Rabs_right; lra).
  rewrite alignHorizontal_middle
    by (change (2 <= 2)%nat; lia).
  change (resolve squareAndLine ["shape-1"; "shape-2"]%string)
    with [("shape-1"%string, getShapeBounds (Rect 0 0 50 50));
          ("shape-2"%string, getShapeBounds (Line (mkSegment 100 0 200 0)))].
  match goal with
  | |- context [forEach place ?plan ?d] =>
      destruct (forEach_place plan d) as (d' & Hrun & _ & Hmoved & _)
  end.
  - apply noDup2. discriminate.
  - exact squareAndLine_resolvable.
  - intros p [<- | [<- | []]]; simpl; eexists; reflexivity.
  - exists d'. split; [exact Hrun |].
    destruct (Hmoved "shape-1"%string _ _ (or_introl eq_refl))
      as (s1 & Hs1 & Hd1).
    destruct (Hmoved "shape-2"%string _ _ (or_intror (or_introl eq_refl)))
      as (s2 & Hs2 & Hd2).
    change (getShape squareAndLine "shape-1")
      with (Some (mkShapeElement (Rect 0 0 50 50) [])) in Hs1.
    change (getShape squareAndLine "shape-2")
      with (Some (mkShapeElement (Line (mkSegment 100 0 200 0)) [])) in Hs2.
    injection Hs1 as <-. injection Hs2 as <-.
    assert (H1 : centerX (boundsAt d' "shape-1") = 100).
    { unfold boundsAt. rewrite Hd1. unfold getShapeBounds, minimum, maximum.
      simpl. rewrite Hmin, Habs, Rmin_left, Rmax_right by lra. lra. }
    assert (H2 : centerX (boundsAt d' "shape-2") = 150).
    { unfold boundsAt. rewrite Hd2. unfold getShapeBounds. simpl.
      rewrite Hmin, Habs. lra. }
    split; [exact H1 |]. split; [exact H2 |]. rewrite H1, H2. lra.
Qed.

Lemma centre_alignment_witness :
  exists d' lo hi,
    alignHorizontal joinedSquares ["shape-1"; "shape-2"]%string Middle = Done d'
    /\ isMinimum lo
         (map (fun id => x (boundsAt joinedSquares id))
              ["shape-1"; "shape-2"]%string)
    /\ isMaximum hi
         (map (fun id => right (boundsAt joinedSquares id))
              ["shape-1"; "shape-2"]%string)
    /\ forall id, In id ["shape-1"; "shape-2"]%string ->
         centerX (boundsAt d' id) = (lo + hi) / 2
         /\ y (boundsAt d' id) = y (boundsAt joinedSquares id).
Proof.
  apply (centre_alignment joinedSquares ["shape-1"; "shape-2"]%string).
  - apply noDup2. discriminate.
  - simpl. lia.
  - exact joinedSquares_resolvable.
  - intros id [<- | [<- | []]]; eexists; (split; [reflexivity | exact I]).
Defined.

End Scenes.

Section DistributionScenes.
Import MultiShapeAlignment.

Lemma spacing_of_scenario :
  (260 + 50 - 0 - total [50; 50; 50]) / (INR 3 - 1) = 80.
Proof. unfold total. simpl. field_simplify; lra. Qed.

(** The three squares at x = 0, 100, 260: the outer two stay and the middle
    one goes to x = 130, 80 away from either neighbour. *)
Lemma three_squares_distributed :
  exists d',
    distributeHorizontal threeSquares ["shape-1"; "shape-2"; "shape-3"]%string
    = Done d'
    /\ getShape d' "shape-1" = Some (mkShapeElement (Rect 0 0 50 50) [])
    /\ getShape d' "shape-2" = Some (mkShapeElement (Rect 130 0 50 50) [])
    /\ getShape d' "shape-3" = Some (mkShapeElement (Rect 260 0 50 50) []).
Proof.
  set (b1 := getShapeBounds (Rect 0 0 50 50)).
  set (b2 := getShapeBounds (Rect 100 0 50 50)).
  set (b3 := getShapeBounds (Rect 260 0 50 50)).
  assert (Hres : resolve threeSquares ["shape-1"; "shape-2"; "shape-3"]%string
                 = [("shape-1"%string, b1); ("shape-2"%string, b2);
                    ("shape-3"%string, b3)]) by reflexivity.
  assert (Hsort : sortBy (fun p : string * Bounds => x (snd p))
                    (resolve threeSquares
                       ["shape-1"; "shape-2"; "shape-3"]%string)
                  = [("shape-1"%string, b1); ("shape-2"%string, b2);
                     ("shape-3"%string, b3)]).
  { rewrite Hres. unfold sortBy. simpl.
    destruct (Rlt_dec 100 0) as [H | _]; [exfalso; lra |]. simpl.
    destruct (Rlt_dec 260 0) as [H | _]; [exfalso; lra |].
    destruct (Rlt_dec 260 100) as [H | _]; [exfalso; lra |].
    reflexivity. }
  rewrite (distributeHorizontal_plan threeSquares
             ["shape-1"; "shape-2"; "shape-3"]%string
             ("shape-1"%string, b1)
             [("shape-2"%string, b2); ("shape-3"%string, b3)]
             ("shape-3"%string, b3));
    [| simpl; lia | rewrite Hres; simpl; lia | exact Hsort | reflexivity].
  match goal with
  | |- context [forEach place ?plan ?d] =>
      destruct (forEach_place plan d) as (d' & Hrun & _ & Hmoved & _)
  end.
  - apply noDup3; discriminate.
  - exact threeSquares_resolvable.
  - intros p [<- | [<- | [<- | []]]]; simpl; eexists; reflexivity.
  - exists d'. split; [exact Hrun |].
    destruct (Hmoved "shape-1"%string _ _ (or_introl eq_refl))
      as (s1 & Hs1 & Hd1).
    destruct (Hmoved "shape-2"%string _ _ (or_intror (or_introl eq_refl)))
      as (s2 & Hs2 & Hd2).
    destruct (Hmoved "shape-3"%string _ _
                (or_intror (or_intror (or_introl eq_refl))))
      as (s3 & Hs3 & Hd3).
    change (getShape threeSquares "shape-1")
      with (Some (mkShapeElement (Rect 0 0 50 50) [])) in Hs1.
    change (getShape threeSquares "shape-2")
      with (Some (mkShapeElement (Rect 100 0 50 50) [])) in Hs2.
    change (getShape threeSquares "shape-3")
      with (Some (mkShapeElement (Rect 260 0 50 50) [])) in Hs3.
    injection Hs1 as <-. injection Hs2 as <-. injection Hs3 as <-.
    pose proof spacing_of_scenario as Hsp.
    rewrite Hd1, Hd2, Hd3. simpl. simpl in Hsp. rewrite Hsp.
    repeat split; repeat f_equal; lra.
Qed.

End DistributionScenes.

Section DistributionTheorem.
Import MultiShapeAlignment.

(** C5, as stated, fails: a line element resolves but is not moved.
    Distributing the squares at x = 0 and x = 260 and the line from x = 100
    to x = 150 between them leaves the line where it is, with a gap of 50 on
    its left and of 110 on its right. *)
Lemma a_line_is_not_distributed :
  exists d',
    distributeHorizontal squaresAroundLine
      ["shape-1"; "shape-2"; "shape-3"]%string = Done d'
    /\ x (boundsAt d' "shape-2") - right (boundsAt d' "shape-1") = 50
    /\ x (boundsAt d' "shape-3") - right (boundsAt d' "shape-2") = 110
    /\ x (boundsAt d' "shape-2") - right (boundsAt d' "shape-1")
       <> x (boundsAt d' "shape-3") - right (boundsAt d' "shape-2").
Proof.
  assert (Hmin : Rmin 100 150 = 100) by (apply Rmin_left; lra).
  assert (Habs : Rabs (150 - 100) = 50) by (rewrite Rabs_right; lra).
  set (b1 := getShapeBounds (Rect 0 0 50 50)).
  set (b2 := getShapeBounds (Line (mkSegment 100 0 150 0))).
  set (b3 := getShapeBounds (Rect 260 0 50 50)).
  assert (Hres : resolve squaresAroundLine
                   ["shape-1"; "shape-2"; "shape-3"]%string
                 = [("shape-1"%string, b1); ("shape-2"%string, b2);
                    ("shape-3"%string, b3)]) by reflexivity.
  assert (Hsort : sortBy (fun p : string * Bounds => x (snd p))
                    (resolve squaresAroundLine
                       ["shape-1"; "shape-2"; "shape-3"]%string)
                  = [("shape-1"%string, b1); ("shape-2"%string, b2);
                     ("shape-3"%string, b3)]).
  { rewrite Hres. unfold sortBy. simpl. rewrite Hmin.
    destruct (Rlt_dec 100 0) as [H | _]; [exfalso; lra |]. simpl.
    destruct (Rlt_dec 260 0) as [H | _]; [exfalso; lra |]. rewrite Hmin.
    destruct (Rlt_dec 260 100) as [H | _]; [exfalso; lra |].
    reflexivity. }
  rewrite (distributeHorizontal_plan squaresAroundLine
             ["shape-1"; "shape-2"; "shape-3"]%string
             ("shape-1"%string, b1)
             [("shape-2"%string, b2); ("shape-3"%string, b3)]
             ("shape-3"%string, b3));
    [| simpl; lia | rewrite Hres; simpl; lia | exact Hsort | reflexivity].
  match goal with
  | |- context [forEach place ?plan ?d] =>
      destruct (forEach_place plan d) as (d' & Hrun & _ & Hmoved & _)
  end.
  - apply noDup3; discriminate.
  - exact squaresAroundLine_resolvable.
  - intros p [<- | [<- | [<- | []]]]; simpl; eexists; reflexivity.
  - exists d'. split; [exact Hrun |].
    destruct (Hmoved "shape-1"%string _ _ (or_introl eq_refl))
      as (s1 & Hs1 & Hd1).
    destruct (Hmoved "shape-2"%string _ _ (or_intror (or_introl eq_refl)))
      as (s2 & Hs2 & Hd2).
    destruct (Hmoved "shape-3"%string _ _
                (or_intror (or_intror (or_introl eq_refl))))
      as (s3 & Hs3 & Hd3).
    change (getShape squaresAroundLine "shape-1")
      with (Some (mkShapeElement (Rect 0 0 50 50) [])) in Hs1.
    change (getShape squaresAroundLine "shape-2")
      with (Some (mkShapeElement (Line (mkSegment 100 0 150 0)) [])) in Hs2.
    change (getShape squaresAroundLine "shape-3")
      with (Some (mkShapeElement (Rect 260 0 50 50) [])) in Hs3.
    injection Hs1 as <-. injection Hs2 as <-. injection Hs3 as <-.
    assert (Hsp : (260 + 50 - 0 - total [50; Rabs (150 - 100); 50])
                  / (1 + 1 + 1 - 1) = 80).
    { rewrite Habs. unfold total. simpl. field_simplify; lra. }
    assert (H1 : right (boundsAt d' "shape-1") = 50).
    { unfold boundsAt. rewrite Hd1. unfold getShapeBounds. simpl. lra. }
    assert (H2 : x (boundsAt d' "shape-2") = 100
                 /\ right (boundsAt d' "shape-2") = 150).
    { unfold boundsAt. rewrite Hd2. unfold getShapeBounds. simpl.
      rewrite Hmin, Habs. split; lra. }
    assert (H3 : x (boundsAt d' "shape-3") = 260).
    { unfold boundsAt. rewrite Hd3. unfold getShapeBounds. simpl.
      rewrite Hsp. lra. }
    destruct H2 as [H2 H2']. rewrite H1, H2, H2', H3.
    repeat split; lra.
Qed.

(** C5, amended.  For at least three distinct shapes, each a circle, an
    ellipse, a rectangle or a group whose content box starts at the group's
    origin, in a document whose shapes all have bounds: horizontal
    distribution walks the shapes in the order of their left edges before the
    operation, and afterwards the gap from the right edge of each shape to
    the left edge of the next one in that order is the same for all adjacent
    pairs, while the first and the last shape of the order keep their
    positions.  In particular the three squares of width 50 at x = 0, 100,
    260 end at x = 0, 130, 260. *)
Theorem horizontal_distribution :
  (forall (d : document) (ids : list string),
      NoDup ids -> (3 <= length ids)%nat -> allResolvable d ->
      (forall id, In id ids ->
         exists s, getShape d id = Some s /\ alignable (geometry s)) ->
      exists d' order gap,
        distributeHorizontal d ids = Done d'
        /\ order ≡ₚ ids
        /\ (forall i p q,
               order !! i = Some p -> order !! S i = Some q ->
               x (boundsAt d p) <= x (boundsAt d q)
               /\ right (boundsAt d' p)
                  = x (boundsAt d' p) + width (boundsAt d p)
               /\ x (boundsAt d' q) - right (boundsAt d' p) = gap)
        /\ (forall p, head order = Some p ->
              x (boundsAt d' p) = x (boundsAt d p))
        /\ (forall q, last order = Some q ->
              x (boundsAt d' q) = x (boundsAt d q)))
  /\ exists d',
       distributeHorizontal threeSquares
         ["shape-1"; "shape-2"; "shape-3"]%string = Done d'
       /\ getShape d' "shape-1" = Some (mkShapeElement (Rect 0 0 50 50) [])
       /\ getShape d' "shape-2" = Some (mkShapeElement (Rect 130 0 50 50) [])
       /\ getShape d' "shape-3" = Some (mkShapeElement (Rect 260 0 50 50) []).
Proof.
  split.
  - exact distribution_gaps.
  - exact three_squares_distributed.
Qed.

Lemma horizontal_distribution_witness :
  exists d' order gap,
    distributeHorizontal threeSquares ["shape-1"; "shape-2"; "shape-3"]%string
    = Done d'
    /\ order ≡ₚ ["shape-1"; "shape-2"; "shape-3"]%string
    /\ (forall i p q,
           order !! i = Some p -> order !! S i = Some q ->
           x (boundsAt threeSquares p) <= x (boundsAt threeSquares q)
           /\ right (boundsAt d' p)
              = x (boundsAt d' p) + width (boundsAt threeSquares p)
           /\ x (boundsAt d' q) - right (boundsAt d' p) = gap)
    /\ (forall p, head order = Some p ->
          x (boundsAt d' p) = x (boundsAt threeSquares p))
    /\ (forall q, last order = Some q ->
          x (boundsAt d' q) = x (boundsAt threeSquares q)).
Proof.
  apply (proj1 horizontal_distribution threeSquares
           ["shape-1"; "shape-2"; "shape-3"]%string).
  - apply noDup3; discriminate.
  - simpl. lia.
  - exact threeSquares_resolvable.
  - intros id [<- | [<- | [<- | []]]]; eexists; (split; [reflexivity | exact I]).
Defined.

End DistributionTheorem.

(** ** A moved endpoint *)


(** * Further properties *)

(** ** The boxes of the shape factory *)

Section Boxes.
Import ShapeFactory.

Lemma Rmin_plus_Rmax (a b : R) : Rmin a b + Rmax a b = a + b.
Proof. unfold Rmin, Rmax. destruct (Rle_dec a b); lra. Qed.

Lemma Rmin_le_Rmax (a b : R) : Rmin a b <= Rmax a b.
Proof. unfold Rmin, Rmax. destruct (Rle_dec a b); lra. Qed.

(** X1.  Whatever the kind of the shape, the ten fields of its bounds agree:
    [left] and [top] are [x] and [y], [right] and [bottom] are [x + width]
    and [y + height], and the centre is the middle of the box, so that the
    centre the connection code computes from [x], [y], [width] and [height]
    is the centre the bounds carry. *)
Theorem bounds_are_coherent (s : shape) (b : Bounds) :
  getShapeBounds s = Some b ->
  coherent b /\ ConnectionManager.boxCenter b = (centerX b, centerY b).
Proof.
  intros H.
  assert (Hc : coherent b).
  { destruct s as [cx cy r | cx cy rx ry | x0 y0 w h | l | g | tag bb];
      simpl in H.
    - injection H as <-. unfold coherent. simpl. repeat split; lra.
    - injection H as <-. unfold coherent. simpl. repeat split; lra.
    - injection H as <-. unfold coherent. simpl. repeat split; lra.
    - injection H as <-. unfold coherent, lineBounds. simpl.
      pose proof (Rmin_plus_Rmax (seg_x1 l) (seg_x2 l)).
      pose proof (Rmin_plus_Rmax (seg_y1 l) (seg_y2 l)).
      repeat split; lra.
    - assert (Hcisco : coherent (ciscoBounds g)).
      { unfold coherent, ciscoBounds.
        destruct (translation (g_transform g)) as [tx ty].
        destruct (g_svg g) as [[w h] |]; simpl; repeat split; lra. }
      assert (Harrow : forall l, coherent (arrowBounds l)).
      { intros l. unfold coherent, arrowBounds. simpl. repeat split; lra. }
      assert (Htext : forall tx ty bg, coherent (textBounds tx ty bg)).
      { intros tx ty bg. unfold coherent, textBounds. simpl.
        repeat split; lra. }
      destruct (g_type g), (g_background g) as [bg |],
        (g_arrow_line g) as [l |];
        try destruct (translation (g_transform g)) as [tx ty];
        injection H as <-; auto.
    - discriminate. }
  split; [exact Hc |].
  destruct Hc as (_ & _ & _ & _ & Hx & Hy).
  unfold ConnectionManager.boxCenter. rewrite Hx, Hy. reflexivity.
Qed.

Lemma bounds_are_coherent_witness :
  coherent (lineBounds (mkSegment 0 0 100 0) 5)
  /\ ConnectionManager.boxCenter (lineBounds (mkSegment 0 0 100 0) 5)
     = (centerX (lineBounds (mkSegment 0 0 100 0) 5),
        centerY (lineBounds (mkSegment 0 0 100 0) 5)).
Proof.
  apply (bounds_are_coherent (Line (mkSegment 0 0 100 0))). reflexivity.
Defined.

(** The box of a line or of an arrow is never flat. *)
Lemma linear_bounds_positive (s : shape) (b : Bounds) :
  isLinear s -> getShapeBounds s = Some b -> 10 <= width b /\ 10 <= height b.
Proof.
  intros Hl H.
  destruct s as [| | | l | g |]; simpl in Hl; try contradiction.
  - simpl in H. injection H as <-. unfold lineBounds. simpl.
    pose proof (Rmin_le_Rmax (seg_x1 l) (seg_x2 l)).
    pose proof (Rmin_le_Rmax (seg_y1 l) (seg_y2 l)). lra.
  - destruct Hl as [Ht Hline]. simpl in H. rewrite Ht in H.
    destruct (g_arrow_line g) as [l |]; [| congruence].
    destruct (g_background g); injection H as <-; unfold arrowBounds; simpl;
      pose proof (Rmin_le_Rmax (seg_x1 l) (seg_x2 l));
      pose proof (Rmin_le_Rmax (seg_y1 l) (seg_y2 l)); lra.
Qed.

(** X2.  A line or an arrow, however it lies (a horizontal line has a flat
    [getBBox]), has bounds of width and height 10 at least, so that the
    anchor of a connection on it, in any non-zero direction from the centre
    of these bounds, is a finite point of their perimeter. *)
Theorem lines_are_anchored (s : shape) (b : Bounds) (dx dy : R) :
  isLinear s -> getShapeBounds s = Some b -> (dx, dy) <> (0, 0) ->
  10 <= width b /\ 10 <= height b
  /\ exists px py,
       ConnectionManager.findBoundaryIntersection
         b (ConnectionManager.boxCenter b) dx dy
       = finitePoint px py
       /\ onPerimeter b px py.
Proof.
  intros Hl H Hd.
  destruct (linear_bounds_positive s b Hl H) as [Hw Hh].
  split; [exact Hw |]. split; [exact Hh |].
  destruct (boundary_intersection_exit b (ConnectionManager.boxCenter b) dx dy)
    as (Hp & _ & Hon); [lra | lra | exact Hd |].
  eexists; eexists. split; [exact Hp |].
  apply perimeter_of_offsets; [lra | lra | exact Hon].
Qed.

Lemma lines_are_anchored_witness :
  10 <= width (lineBounds (mkSegment 0 0 100 0) 5)
  /\ 10 <= height (lineBounds (mkSegment 0 0 100 0) 5)
  /\ exists px py,
       ConnectionManager.findBoundaryIntersection
         (lineBounds (mkSegment 0 0 100 0) 5)
         (ConnectionManager.boxCenter (lineBounds (mkSegment 0 0 100 0) 5))
         0 1
       = finitePoint px py
       /\ onPerimeter (lineBounds (mkSegment 0 0 100 0) 5) px py.
Proof.
  apply (lines_are_anchored (Line (mkSegment 0 0 100 0))).
  - simpl. exact I.
  - reflexivity.
  - intros E. inversion E. lra.
Defined.

(** X3.  For a circle, an ellipse or a rectangle the bounds the alignment
    module derives from [getBBox] are the bounds of the shape factory; for a
    line they are the factory's bounds without their padding of 5. *)
Theorem resolvers_agree :
  (forall s,
     MultiShapeAlignment.isBasic s = true ->
     Some (MultiShapeAlignment.getShapeBounds s)
     = option_map alignmentView (getShapeBounds s))
  /\ (forall l,
        let a := MultiShapeAlignment.getShapeBounds (Line l) in
        let b := lineBounds l 5 in
        getShapeBounds (Line l) = Some b
        /\ MultiShapeAlignment.x a = x b + 5
        /\ MultiShapeAlignment.y a = y b + 5
        /\ MultiShapeAlignment.width a = width b - 10
        /\ MultiShapeAlignment.height a = height b - 10).
Proof.
  split.
  - intros s Hs.
    destruct s as [cx cy r | cx cy rx ry | x0 y0 w h | l | g | tag bb];
      try discriminate;
      unfold MultiShapeAlignment.getShapeBounds, alignmentView; simpl;
      f_equal; f_equal; lra.
  - intros l a b. split; [reflexivity |].
    unfold a, b, MultiShapeAlignment.getShapeBounds, lineBounds. simpl.
    assert (Habs : forall u v, Rabs (v - u) = Rmax u v - Rmin u v).
    { intros u v. unfold Rabs, Rmax, Rmin.
      destruct (Rcase_abs (v - u)), (Rle_dec u v); lra. }
    rewrite !Habs. repeat split; lra.
Qed.

End Boxes.

(** ** Connections follow their shapes *)

Section Reanchoring.
Import ShapeFactory ConnectionManager.

Lemma anchorsOf_sameShapes (d e : document) (c : connection) :
  sameShapes d e -> anchorsOf e c = anchorsOf d c.
Proof. intros [H _]. unfold anchorsOf. rewrite !H. reflexivity. Qed.

Lemma anchored_sameShapes (d e : document) (c : connection) :
  sameShapes d e -> anchored d c -> anchored e c.
Proof.
  intros Hs Ha ends He. apply Ha.
  rewrite <- (anchorsOf_sameShapes d e c Hs). exact He.
Qed.

Lemma getConnection_setNode_ne (d : document) (id k : string) (n : node) :
  id <> k -> getConnection (setNode d id n) k = getConnection d k.
Proof.
  intros H. unfold getConnection, setNode. simpl.
  rewrite lookup_insert_ne by exact H. reflexivity.
Qed.

Lemma getConnection_setNode_eq (d : document) (id : string) (c : connection) :
  getConnection (setNode d id (ConnectionNode c)) id = Some c.
Proof.
  unfold getConnection, setNode. simpl. rewrite lookup_insert_eq. reflexivity.
Qed.

Lemma withLabel_connections (d : document) (o : option string)
    (f : label -> label) (k : string) :
  getConnection (withLabel d o f) k = getConnection d k.
Proof.
  unfold withLabel. destruct o as [id |]; [| reflexivity].
  destruct (truthy (Some id)); [| reflexivity].
  destruct (getLabel d id) as [l |] eqn:Hl; [| reflexivity].
  destruct (decide (id = k)) as [<- | Hne].
  - unfold getConnection, getLabel, setNode in *. simpl.
    rewrite lookup_insert_eq.
    destruct (nodes d !! id) as [[| |] |]; congruence.
  - apply getConnection_setNode_ne. exact Hne.
Qed.

(** One connection recomputed: it is anchored, and the other connections
    are as they were. *)
Lemma updateConnection_anchors (d : document) (cid : string) :
  allResolvable d ->
  exists d',
    updateConnection d cid = Done d'
    /\ sameShapes d d'
    /\ (forall c, getConnection d' cid = Some c -> anchored d' c)
    /\ (forall k, k <> cid -> getConnection d' k = getConnection d k).
Proof.
  intros Hall.
  pose proof (updateConnection_sameShapes d cid) as Hsame.
  unfold updateConnection in *.
  destruct (getConnection d cid) as [c |] eqn:Hc.
  2:{ exists d. split; [reflexivity |]. split; [exact Hsame |].
      split; [intros c' Hc'; congruence | reflexivity]. }
  destruct (getShape d (data_source c)) as [ss |] eqn:Hss.
  2:{ exists d. split; [reflexivity |]. split; [exact Hsame |]. split.
      - intros c' Hc'. rewrite Hc in Hc'. injection Hc' as <-.
        intros ends He. unfold anchorsOf in He. rewrite Hss in He.
        discriminate.
      - reflexivity. }
  destruct (getShape d (data_target c)) as [ts |] eqn:Hts.
  2:{ exists d. split; [reflexivity |]. split; [exact Hsame |]. split.
      - intros c' Hc'. rewrite Hc in Hc'. injection Hc' as <-.
        intros ends He. unfold anchorsOf in He. rewrite Hss, Hts in He.
        discriminate.
      - reflexivity. }
  pose proof (Hall _ _ Hss) as Hsb. pose proof (Hall _ _ Hts) as Htb.
  destruct (getShapeBounds (geometry ss)) as [sb |] eqn:Esb; [| contradiction].
  destruct (getShapeBounds (geometry ts)) as [tb |] eqn:Etb; [| contradiction].
  destruct (findClosestPoints sb tb) as [sp tp] eqn:Ecp.
  cbv beta iota zeta in *. simpl state in Hsame.
  eexists. split; [reflexivity |]. split; [exact Hsame |]. split.
  - intros c'. rewrite !withLabel_connections, getConnection_setNode_eq.
    intros E. injection E as <-.
    apply (anchored_sameShapes d); [exact Hsame |].
    intros ends He. unfold anchorsOf in He.
    cbn [data_source data_target] in He.
    rewrite Hss, Hts, Esb, Etb, Ecp in He. cbn [fst snd] in He.
    injection He as <-. cbn [connection_line connection_hit_target].
    split; intros e E.
    + destruct (connection_line c); congruence.
    + destruct (connection_hit_target c); congruence.
  - intros k Hk. rewrite !withLabel_connections.
    apply getConnection_setNode_ne. congruence.
Qed.

Lemma forEach_updateConnection_anchors (l : list string) (d : document) :
  allResolvable d ->
  exists d',
    forEach updateConnection l d = Done d'
    /\ sameShapes d d'
    /\ (forall cid c,
           In cid l -> getConnection d' cid = Some c -> anchored d' c)
    /\ (forall k, ~ In k l -> getConnection d' k = getConnection d k).
Proof.
  revert d. induction l as [| a l IH]; intros d Hall.
  - exists d. split; [reflexivity |]. split; [apply sameShapes_refl |].
    split; [intros ? ? [] | reflexivity].
  - destruct (updateConnection_anchors d a Hall) as (d1 & H1 & Hs1 & Ha1 & Ho1).
    destruct (IH d1 (allResolvable_sameShapes d d1 Hs1 Hall))
      as (d' & H' & Hs' & Ha' & Ho').
    exists d'. split; [simpl; rewrite H1; exact H' |].
    split; [exact (sameShapes_trans d d1 d' Hs1 Hs') |]. split.
    + intros cid c Hin Hc.
      destruct (decide (cid ∈ l)) as [Hl | Hl].
      * apply (Ha' cid c); [apply list_elem_of_In; exact Hl | exact Hc].
      * destruct Hin as [<- | Hin];
          [| exfalso; apply Hl; apply list_elem_of_In; exact Hin].
        assert (Hnot : ~ In a l) by (rewrite <- list_elem_of_In; exact Hl).
        rewrite (Ho' a Hnot) in Hc.
        apply (anchored_sameShapes d1); [exact Hs' |]. apply Ha1. exact Hc.
    + intros k Hk. simpl in Hk.
      rewrite Ho' by tauto. apply Ho1. intros ->. tauto.
Qed.

Lemma allResolvable_setNode (d : document) (id : string) (n : node) :
  allResolvable d ->
  match n with
  | ShapeNode s => getShapeBounds (geometry s) <> None
  | _ => True
  end ->
  allResolvable (setNode d id n).
Proof.
  intros Hall Hn k s Hk. unfold getShape, setNode in Hk. simpl in Hk.
  destruct (decide (id = k)) as [<- | Hne].
  - rewrite lookup_insert_eq in Hk. destruct n; try discriminate.
    injection Hk as <-. exact Hn.
  - rewrite lookup_insert_ne in Hk by exact Hne. exact (Hall k s Hk).
Qed.

(** X4.  In a document whose shapes all have bounds, recomputing the
    connections of a shape runs to its end, changes no shape, and leaves
    every connection the shape lists with its line and its hit target
    between the anchors that the current bounds of its two shapes give;
    a connection the shape does not list is not touched. *)
Theorem listed_connections_are_reanchored (d : document) (shapeId : string)
    (shape : shape_element) :
  allResolvable d -> getShape d shapeId = Some shape ->
  exists d',
    updateShapeConnections d shapeId = Done d'
    /\ sameShapes d d'
    /\ (forall cid c,
           In cid (connections shape) -> getConnection d' cid = Some c ->
           anchored d' c)
    /\ (forall k,
           ~ In k (connections shape) ->
           getConnection d' k = getConnection d k).
Proof.
  intros Hall Hs. unfold updateShapeConnections. rewrite Hs.
  apply forEach_updateConnection_anchors. exact Hall.
Qed.

Lemma listed_connections_are_reanchored_witness :
  exists d',
    updateShapeConnections movedSquares "shape-1" = Done d'
    /\ sameShapes movedSquares d'
    /\ (forall cid c,
           In cid ["connection-1"%string] -> getConnection d' cid = Some c ->
           anchored d' c)
    /\ (forall k,
           ~ In k ["connection-1"%string] ->
           getConnection d' k = getConnection movedSquares k).
Proof.
  apply (listed_connections_are_reanchored movedSquares "shape-1"
           (mkShapeElement (Rect 0 100 50 50) ["connection-1"%string])).
  - apply allResolvable_setNode; [exact joinedSquares_resolvable |].
    simpl. discriminate.
  - reflexivity.
Defined.

End Reanchoring.

(** ** Ids and their numbers *)

Section Numerals.

Lemma readDigits_numeral (d : Decimal.uint) (acc : N) :
  readDigits acc (NilEmpty.string_of_uint d) = denoted acc d.
Proof.
  revert acc. induction d; intros acc; simpl; try reflexivity; apply IHd.
Qed.

Lemma of_uint_acc_denoted (d : Decimal.uint) (p : positive) :
  N.pos (Pos.of_uint_acc d p) = denoted (N.pos p) d.
Proof.
  revert p. induction d; intros p; simpl; try reflexivity;
    rewrite IHd; f_equal; lia.
Qed.

Lemma of_uint_denoted (d : Decimal.uint) : N.of_uint d = denoted 0 d.
Proof.
  unfold N.of_uint. induction d; simpl; try reflexivity;
    try (rewrite of_uint_acc_denoted; reflexivity).
  exact IHd.
Qed.

Lemma readDigits_decimal (n : N) : readDigits 0 (decimal n) = n.
Proof.
  unfold decimal. rewrite readDigits_numeral, <- of_uint_denoted.
  apply DecimalN.Unsigned.of_to.
Qed.

Lemma decimal_starts_with_a_digit (n : N) :
  exists c rest, decimal n = String c rest /\ isDigit c = true.
Proof.
  unfold decimal. destruct n as [| p]; [exists "0"%char, ""%string; split; reflexivity |].
  unfold N.to_uint.
  assert (H : Pos.to_uint p <> Decimal.Nil).
  { intros E. pose proof (DecimalPos.Unsigned.of_to p) as Hp.
    rewrite E in Hp. discriminate. }
  destruct (Pos.to_uint p); try congruence; simpl; eexists; eexists;
    split; reflexivity.
Qed.

Lemma stripPrefix_app (prefix s : string) :
  stripPrefix prefix (prefix ++ s) = Some s.
Proof.
  induction prefix as [| c prefix IH]; simpl.
  - destruct s; reflexivity.
  - rewrite Ascii.eqb_refl. exact IH.
Qed.

Lemma numberedId_decimal (prefix : string) (n : N) :
  numberedId prefix (prefix ++ decimal n) = Some n.
Proof.
  assert (H : matchHere prefix (prefix ++ decimal n) = Some n).
  { unfold matchHere. rewrite stripPrefix_app.
    destruct (decimal_starts_with_a_digit n) as (c & rest & E & Hc).
    pose proof (readDigits_decimal n) as Hr. rewrite E in *.
    rewrite Hc. f_equal. exact Hr. }
  destruct (prefix ++ decimal n)%string; simpl; rewrite H; reflexivity.
Qed.

End Numerals.

(** X5.  The number of an id is read back from it: the pattern that
    [loadTopology] applies to an id finds, in the id issued at a counter,
    that counter.  Ids issued at different counters are therefore
    different. *)
Theorem issued_ids_carry_their_number (st : AppState) :
  numberedId "shape-" (fst (getNextShapeId st)) = Some (shapeIdCounter st + 1)%N
  /\ numberedId "connection-" (fst (getNextConnectionId st))
     = Some (connectionIdCounter st + 1)%N
  /\ (forall st',
         fst (getNextShapeId st') = fst (getNextShapeId st) ->
         shapeIdCounter st' = shapeIdCounter st)
  /\ (forall st',
         fst (getNextConnectionId st') = fst (getNextConnectionId st) ->
         connectionIdCounter st' = connectionIdCounter st).
Proof.
  assert (Hs : forall s, numberedId "shape-" (fst (getNextShapeId s))
                         = Some (shapeIdCounter s + 1)%N)
    by (intros s; apply (numberedId_decimal "shape-")).
  assert (Hc : forall s, numberedId "connection-" (fst (getNextConnectionId s))
                         = Some (connectionIdCounter s + 1)%N)
    by (intros s; apply (numberedId_decimal "connection-")).
  split; [apply Hs |]. split; [apply Hc |]. split.
  - intros st' E. pose proof (Hs st') as H'. rewrite E, Hs in H'.
    injection H' as H'. lia.
  - intros st' E. pose proof (Hc st') as H'. rewrite E, Hc in H'.
    injection H' as H'. lia.
Qed.

(** X6.  After a file import the ids that will be issued, at once or after
    any number of further ids, are not among the imported ids: a new shape
    does not take the id of an imported shape, nor a new connection the id
    of an imported connection. *)
Theorem ids_issued_after_an_import_are_new (st : AppState) (t : topology)
    (shapeIds : list string) :
  shapes t = Some shapeIds ->
  let st' := FileOperations.loadTopology st t in
  (forall later,
      (shapeIdCounter st' <= shapeIdCounter later)%N ->
      ~ In (fst (getNextShapeId later)) shapeIds)
  /\ (forall later,
         (connectionIdCounter st' <= connectionIdCounter later)%N ->
         ~ In (fst (getNextConnectionId later))
              (idsOf (topologyConnections t))).
Proof.
  intros Hshapes st'. unfold st'. split.
  - intros later Hle Hin.
    pose proof (numberedId_decimal "shape-" (shapeIdCounter later + 1)) as Hn.
    pose proof (maxNumbered_upper _ _ _ _ Hin Hn) as Hmax.
    rewrite (loadTopology_shape_counter st t shapeIds Hshapes) in Hle.
    destruct (_ && _)%N eqn:E; [lia |].
    apply andb_false_iff in E as [E | E];
      [apply N.ltb_ge in E | apply N.leb_gt in E]; lia.
  - intros later Hle Hin.
    pose proof (numberedId_decimal "connection-" (connectionIdCounter later + 1))
      as Hn.
    rewrite (loadTopology_connection_counter st t shapeIds Hshapes) in Hle.
    destruct (topologyConnections t) as [connectionIds |]; [| destruct Hin].
    simpl in Hin.
    pose proof (maxNumbered_upper _ _ _ _ Hin Hn) as Hmax.
    destruct (_ && _)%N eqn:E; [lia |].
    apply andb_false_iff in E as [E | E];
      [apply N.ltb_ge in E | apply N.leb_gt in E]; lia.
Qed.

Lemma ids_issued_after_an_import_are_new_witness :
  ~ In (fst (getNextShapeId
               (FileOperations.loadTopology (mkAppState 3 5)
                  (mkTopology (Some ["shape-7"%string; "shape-2"%string])
                              (Some ["connection-4"%string])))))
       ["shape-7"%string; "shape-2"%string].
Proof.
  apply (ids_issued_after_an_import_are_new (mkAppState 3 5)
           (mkTopology (Some ["shape-7"%string; "shape-2"%string])
                       (Some ["connection-4"%string]))
           ["shape-7"%string; "shape-2"%string]).
  - reflexivity.
  - apply N.le_refl.
Defined.

(** ** Creating and deleting connections *)

Lemma string_length_app (a b : string) :
  String.length (a ++ b) = (String.length a + String.length b)%nat.
Proof. induction a as [| c a IH]; simpl; [reflexivity | rewrite IH; reflexivity]. Qed.

Section LabelIds.
Import ConnectionManager.

Lemma labelId_not_the_connection (connectionId role : string) :
  labelId connectionId role <> connectionId.
Proof.
  intros E. apply (f_equal String.length) in E. unfold labelId in E.
  rewrite !string_length_app in E. simpl in E. lia.
Qed.

Lemma labelId_not_empty (connectionId role : string) :
  labelId connectionId role <> ""%string.
Proof. unfold labelId. simpl. discriminate. Qed.

Lemma labelId_role (connectionId r1 r2 : string) :
  labelId connectionId r1 = labelId connectionId r2 -> r1 = r2.
Proof.
  unfold labelId. intros E.
  apply (String.app_inj "label-") in E.
  apply (String.app_inj connectionId) in E.
  apply (String.app_inj "-") in E. exact E.
Qed.

End LabelIds.

Ltac lookups :=
  repeat first
    [ rewrite lookup_insert_eq
    | rewrite lookup_delete_eq
    | rewrite lookup_insert_ne by congruence
    | rewrite lookup_delete_ne by congruence ].

Section Creation.
Import ShapeFactory ConnectionManager ConnectionCreation.

Lemma unit_of_angle (a r : R) :
  r <> 0 -> (cos a * r, sin a * r) <> (0, 0).
Proof.
  intros Hr E. inversion E as [[Hc Hs]].
  pose proof (sin2_cos2 a) as H. unfold Rsqr in H. nra.
Qed.

(** A label placed by [createConnectionLabel] is where the recomputation
    puts it, wherever the other shape is. *)
Lemma new_end_label_is_at_rest (center other other' : R * R) :
  repositionLabel (newEndLabel center other) center other'
  = newEndLabel center other.
Proof.
  unfold newEndLabel, createConnectionLabel, CONSTRAINT_RADIUS.
  set (a := atan2 (snd other - snd center) (fst other - fst center)).
  unfold repositionLabel, labelAngle. cbn [data_constraint_center_x
    data_constraint_center_y data_constraint_radius label_x label_y].
  unfold or_default. destruct (Req_dec_T 60 0) as [E | _]; [lra |].
  cbn [js_sub js_add js_neg js_atan2 js_cos js_sin js_mul].
  destruct (cos_sin_atan2 (snd center + sin a * 60 + - snd center)
                          (fst center + cos a * 60 + - fst center))
    as [Hc Hs].
  { replace (fst center + cos a * 60 + - fst center) with (cos a * 60) by lra.
    replace (snd center + sin a * 60 + - snd center) with (sin a * 60) by lra.
    apply unit_of_angle. lra. }
  rewrite Hc, Hs.
  replace (fst center + cos a * 60 + - fst center) with (cos a * 60) by lra.
  replace (snd center + sin a * 60 + - snd center) with (sin a * 60) by lra.
  assert (Hn : sqrt (cos a * 60 * (cos a * 60) + sin a * 60 * (sin a * 60)) = 60).
  { replace (cos a * 60 * (cos a * 60) + sin a * 60 * (sin a * 60))
      with (60 * 60).
    - apply sqrt_square. lra.
    - pose proof (sin2_cos2 a) as H. unfold Rsqr in H. nra. }
  rewrite Hn. f_equal; f_equal; field.
Qed.

Lemma appendConnection_found (d : document) (shapeId connectionId : string)
    (s : shape_element) :
  getShape d shapeId = Some s ->
  appendConnection d shapeId connectionId
  = setNode d shapeId (ShapeNode (listing s connectionId)).
Proof. intros H. unfold appendConnection. rewrite H. reflexivity. Qed.

Lemma getShape_setNode_ne (d : document) (id k : string) (n : node) :
  id <> k -> getShape (setNode d id n) k = getShape d k.
Proof.
  intros H. unfold getShape, setNode. simpl.
  rewrite lookup_insert_ne by exact H. reflexivity.
Qed.

Lemma getShape_setNode_eq (d : document) (id : string) (s : shape_element) :
  getShape (setNode d id (ShapeNode s)) id = Some s.
Proof. unfold getShape, setNode. simpl. rewrite lookup_insert_eq. reflexivity. Qed.

Lemma getShape_present (d : document) (id : string) (s : shape_element) :
  getShape d id = Some s -> nodes d !! id = Some (ShapeNode s).
Proof.
  unfold getShape. destruct (nodes d !! id) as [[| |] |]; congruence.
Qed.

Variables (st : AppState) (d : document) (sourceId targetId : string).
Variables (sourceShape targetShape : shape_element) (sb tb : Bounds).
Hypothesis Hsource : connectable d sourceId sourceShape sb.
Hypothesis Htarget : connectable d targetId targetShape tb.
Hypothesis Hdistinct : sourceId <> targetId.
Hypothesis Hfresh : freshConnection st d.

Lemma fresh_ids :
  let cid := fst (getNextConnectionId st) in
  cid <> sourceId /\ cid <> targetId
  /\ labelId cid "source" <> sourceId /\ labelId cid "source" <> targetId
  /\ labelId cid "target" <> sourceId /\ labelId cid "target" <> targetId
  /\ labelId cid "center" <> sourceId /\ labelId cid "center" <> targetId.
Proof.
  destruct Hsource as [Hs _], Htarget as [Ht _].
  apply getShape_present in Hs, Ht.
  destruct Hfresh as (H0 & H1 & H2 & H3).
  repeat split; intros E; congruence.
Qed.

Lemma createConnection_connected :
  createConnection st d sourceId targetId
  = (snd (getNextConnectionId st),
     Done (connected d (fst (getNextConnectionId st)) sourceId targetId
                     sourceShape targetShape sb tb)).
Proof.
  pose proof fresh_ids as (F1 & F2 & F3 & F4 & F5 & F6 & F7 & F8).
  destruct Hsource as [Hs Hsb], Htarget as [Ht Htb].
  unfold createConnection.
  destruct (getNextConnectionId st) as [cid st'] eqn:Eid. cbn [fst snd] in *.
  rewrite Hs, Ht, Hsb, Htb.
  destruct (findClosestPoints sb tb) as [sp tp] eqn:Ecp.
  f_equal. f_equal. unfold connected.
  rewrite (appendConnection_found _ sourceId cid sourceShape)
    by (rewrite !getShape_setNode_ne by assumption; exact Hs).
  rewrite (appendConnection_found _ targetId cid targetShape)
    by (rewrite !getShape_setNode_ne by congruence; exact Ht).
  unfold newConnection, newCenterLabel, newEndLabel, createConnectionLabel.
  rewrite Ecp. reflexivity.
Qed.

Lemma connected_lookups :
  let cid := fst (getNextConnectionId st) in
  let d' := connected d cid sourceId targetId sourceShape targetShape sb tb in
  getConnection d' cid = Some (newConnection cid sourceId targetId sb tb)
  /\ getShape d' sourceId = Some (listing sourceShape cid)
  /\ getShape d' targetId = Some (listing targetShape cid)
  /\ getLabel d' (labelId cid "source")
     = Some (newEndLabel (boxCenter sb) (boxCenter tb))
  /\ getLabel d' (labelId cid "target")
     = Some (newEndLabel (boxCenter tb) (boxCenter sb))
  /\ getLabel d' (labelId cid "center") = Some (newCenterLabel sb tb).
Proof.
  intros cid d'.
  pose proof fresh_ids as (F1 & F2 & F3 & F4 & F5 & F6 & F7 & F8).
  fold cid in F1, F2, F3, F4, F5, F6, F7, F8.
  pose proof (labelId_not_the_connection cid "source") as N1.
  pose proof (labelId_not_the_connection cid "target") as N2.
  pose proof (labelId_not_the_connection cid "center") as N3.
  assert (N4 : labelId cid "source" <> labelId cid "target")
    by (intros E; apply labelId_role in E; discriminate).
  assert (N5 : labelId cid "source" <> labelId cid "center")
    by (intros E; apply labelId_role in E; discriminate).
  assert (N6 : labelId cid "target" <> labelId cid "center")
    by (intros E; apply labelId_role in E; discriminate).
  unfold d', connected, getConnection, getShape, getLabel, setNode.
  cbn [nodes]. repeat split; lookups; reflexivity.
Qed.

(** X7.  A connection created between two different shapes that have
    bounds, under ids that are not in the document: it takes the next
    connection id, both shapes list it last in their back references, its
    line and hit target run between the anchors of the two shapes, and it is
    at rest: recomputing it changes nothing, its end labels being placed
    where the recomputation puts them, and the label-id migration leaves it
    alone. *)
Theorem a_new_connection_is_at_rest :
  let cid := fst (getNextConnectionId st) in
  exists d',
    createConnection st d sourceId targetId
    = (snd (getNextConnectionId st), Done d')
    /\ getConnection d' cid = Some (newConnection cid sourceId targetId sb tb)
    /\ anchored d' (newConnection cid sourceId targetId sb tb)
    /\ getShape d' sourceId = Some (listing sourceShape cid)
    /\ getShape d' targetId = Some (listing targetShape cid)
    /\ updateConnection d' cid = Done d'
    /\ migrateConnection d' cid = d'.
Proof.
  intros cid.
  exists (connected d cid sourceId targetId sourceShape targetShape sb tb).
  destruct connected_lookups as (Hc & Hs & Ht & L1 & L2 & L3).
  fold cid in Hc, Hs, Ht, L1, L2, L3.
  set (d' := connected d cid sourceId targetId sourceShape targetShape sb tb)
    in *.
  destruct Hsource as [_ Hsb], Htarget as [_ Htb].
  split; [apply createConnection_connected |].
  split; [exact Hc |]. split; [| split; [exact Hs | split; [exact Ht |]]].
  - intros ends He. unfold anchorsOf in He.
    cbn [newConnection data_source data_target] in He.
    rewrite Hs, Ht in He. cbn [listing geometry] in He.
    rewrite Hsb, Htb in He. injection He as <-.
    cbn [newConnection connection_line connection_hit_target].
    split; intros e E; injection E as <-; reflexivity.
  - split.
    + unfold updateConnection. rewrite Hc.
      cbn [newConnection data_source data_target connection_line
           connection_hit_target data_source_label_id data_target_label_id
           data_center_label_id].
      rewrite Hs, Ht. cbn [listing geometry]. rewrite Hsb, Htb.
      destruct (findClosestPoints sb tb) as [sp tp] eqn:Ecp.
      cbn [fst snd]. f_equal.
      assert (E1 : setNode d' cid
                     (ConnectionNode
                        (mkConnection sourceId targetId
                           (Some (mkEndpoints (pt_x sp) (pt_y sp)
                                              (pt_x tp) (pt_y tp)))
                           (Some (mkEndpoints (pt_x sp) (pt_y sp)
                                              (pt_x tp) (pt_y tp)))
                           (Some (labelId cid "source"))
                           (Some (labelId cid "target"))
                           (Some (labelId cid "center")))) = d').
      { apply setNode_same. apply getConnection_Some. rewrite Hc.
        unfold newConnection. rewrite Ecp. reflexivity. }
      rewrite E1.
      rewrite (withLabel_found d' _ _ _ (labelId_not_empty cid "source") L1).
      rewrite new_end_label_is_at_rest.
      rewrite (setNode_same d' (labelId cid "source")).
      2:{ unfold getLabel in L1.
          destruct (nodes d' !! labelId cid "source") as [[| |] |];
            congruence. }
      rewrite (withLabel_found d' _ _ _ (labelId_not_empty cid "target") L2).
      rewrite new_end_label_is_at_rest.
      rewrite (setNode_same d' (labelId cid "target")).
      2:{ unfold getLabel in L2.
          destruct (nodes d' !! labelId cid "target") as [[| |] |];
            congruence. }
      rewrite (withLabel_found d' _ _ _ (labelId_not_empty cid "center") L3).
      apply setNode_same. unfold getLabel in L3.
      destruct (nodes d' !! labelId cid "center") as [[| | l] |];
        try congruence.
      injection L3 as ->. unfold placeLabel, newCenterLabel.
      rewrite Ecp. reflexivity.
    + unfold migrateConnection. rewrite Hc. reflexivity.
Qed.

Lemma forget_the_last (l : list string) (cid : string) :
  ~ In cid l -> filter (fun id => id <> cid) (l ++ [cid]) = l.
Proof.
  induction l as [| a l IH]; intros H.
  - simpl. rewrite filter_cons. destruct (decide (cid <> cid)); [congruence |].
    reflexivity.
  - simpl. rewrite filter_cons.
    destruct (decide (a <> cid)) as [_ | E].
    + f_equal. apply IH. intros Hin. apply H. right. exact Hin.
    + exfalso. apply H. left. destruct (decide (a = cid)); [assumption |].
      contradiction.
Qed.

Lemma listing_not_empty (s : shape_element) (cid : string) :
  connections (listing s cid) <> [].
Proof. simpl. destruct (connections s); discriminate. Qed.

(** X8.  Creating a connection and then deleting it, as the Delete key does
    on a selected connection, gives back every shape with the back
    references it had, and leaves one element behind: the centre label of
    the connection, which the deletion does not look for. *)
Theorem deleting_a_new_connection_leaves_its_centre_label :
  let cid := fst (getNextConnectionId st) in
  ~ In cid (connections sourceShape) -> ~ In cid (connections targetShape) ->
  exists d',
    snd (createConnection st d sourceId targetId) = Done d'
    /\ ConnectionInteractions.deleteConnection d' cid
       = setNode d (labelId cid "center") (LabelNode (newCenterLabel sb tb)).
Proof.
  intros cid Hns Hnt.
  exists (connected d cid sourceId targetId sourceShape targetShape sb tb).
  split; [rewrite createConnection_connected; reflexivity |].
  destruct connected_lookups as (Hc & _).
  fold cid in Hc.
  pose proof fresh_ids as (F1 & F2 & F3 & F4 & F5 & F6 & F7 & F8).
  fold cid in F1, F2, F3, F4, F5, F6, F7, F8.
  pose proof (labelId_not_the_connection cid "source") as N1.
  pose proof (labelId_not_the_connection cid "target") as N2.
  pose proof (labelId_not_the_connection cid "center") as N3.
  assert (N4 : labelId cid "source" <> labelId cid "target")
    by (intros E; apply labelId_role in E; discriminate).
  assert (N5 : labelId cid "source" <> labelId cid "center")
    by (intros E; apply labelId_role in E; discriminate).
  assert (N6 : labelId cid "target" <> labelId cid "center")
    by (intros E; apply labelId_role in E; discriminate).
  destruct Hsource as [Hs _], Htarget as [Ht _].
  apply getShape_present in Hs, Ht.
  destruct Hfresh as (H0 & H1 & H2 & H3). fold cid in H0, H1, H2, H3.
  unfold ConnectionInteractions.deleteConnection. rewrite Hc.
  cbn [newConnection data_source data_target data_source_label_id
       data_target_label_id].
  unfold removeLabel.
  rewrite (truthy_Some _ (labelId_not_empty cid "source")).
  rewrite (truthy_Some _ (labelId_not_empty cid "target")).
  cbn [fold_left].
  assert (Hfs : forall e,
             getShape e sourceId = Some (listing sourceShape cid) ->
             ConnectionInteractions.forgetConnection cid e sourceId
             = setNode e sourceId (ShapeNode sourceShape)).
  { intros e He. unfold ConnectionInteractions.forgetConnection. rewrite He.
    pose proof (listing_not_empty sourceShape cid) as Hne.
    destruct (connections (listing sourceShape cid)) eqn:E; [congruence |].
    rewrite <- E. cbn [listing geometry connections].
    rewrite (forget_the_last _ _ Hns). destruct sourceShape; reflexivity. }
  assert (Hft : forall e,
             getShape e targetId = Some (listing targetShape cid) ->
             ConnectionInteractions.forgetConnection cid e targetId
             = setNode e targetId (ShapeNode targetShape)).
  { intros e He. unfold ConnectionInteractions.forgetConnection. rewrite He.
    pose proof (listing_not_empty targetShape cid) as Hne.
    destruct (connections (listing targetShape cid)) eqn:E; [congruence |].
    rewrite <- E. cbn [listing geometry connections].
    rewrite (forget_the_last _ _ Hnt). destruct targetShape; reflexivity. }
  rewrite Hfs.
  2:{ unfold getShape, connected, removeNode, setNode. cbn [nodes].
      lookups. reflexivity. }
  rewrite Hft.
  2:{ unfold getShape, connected, removeNode, setNode. cbn [nodes].
      lookups. reflexivity. }
  apply document_eq; [| reflexivity].
  unfold connected, removeNode, setNode. cbn [nodes].
  apply map_eq. intros i.
  destruct (decide (i = cid)) as [-> | D1]; [lookups; congruence |].
  destruct (decide (i = targetId)) as [-> | D2]; [lookups; congruence |].
  destruct (decide (i = sourceId)) as [-> | D3]; [lookups; congruence |].
  destruct (decide (i = labelId cid "target")) as [-> | D4];
    [lookups; congruence |].
  destruct (decide (i = labelId cid "source")) as [-> | D5];
    [lookups; congruence |].
  destruct (decide (i = labelId cid "center")) as [-> | D6];
    [lookups; reflexivity |].
  lookups. reflexivity.
Qed.

End Creation.

Lemma threeSquares_connectable :
  connectable threeSquares "shape-1" (mkShapeElement (Rect 0 0 50 50) [])
    (ShapeFactory.mkBounds 0 0 50 50 0 (0 + 50) 0 (0 + 50)
                           (0 + 50 / 2) (0 + 50 / 2))
  /\ connectable threeSquares "shape-2" (mkShapeElement (Rect 100 0 50 50) [])
       (ShapeFactory.mkBounds 100 0 50 50 100 (100 + 50) 0 (0 + 50)
                              (100 + 50 / 2) (0 + 50 / 2))
  /\ "shape-1"%string <> "shape-2"%string
  /\ freshConnection (mkAppState 3 0) threeSquares.
Proof.
  split; [split; reflexivity |]. split; [split; reflexivity |].
  split; [discriminate |]. repeat split; reflexivity.
Qed.

Lemma a_new_connection_is_at_rest_witness :
  exists d',
    ConnectionCreation.createConnection (mkAppState 3 0) threeSquares
      "shape-1" "shape-2"
    = (mkAppState 3 1, Done d')
    /\ ConnectionManager.updateConnection d' "connection-1" = Done d'.
Proof.
  destruct threeSquares_connectable as (H1 & H2 & H3 & H4).
  destruct (a_new_connection_is_at_rest (mkAppState 3 0) threeSquares
              "shape-1" "shape-2" _ _ _ _ H1 H2 H3 H4)
    as (d' & Hd & _ & _ & _ & _ & Hu & _).
  exists d'. split; [exact Hd | exact Hu].
Defined.

Lemma deleting_a_new_connection_leaves_its_centre_label_witness :
  exists d',
    snd (ConnectionCreation.createConnection (mkAppState 3 0) threeSquares
           "shape-1" "shape-2") = Done d'
    /\ ConnectionInteractions.deleteConnection d'
         (fst (getNextConnectionId (mkAppState 3 0)))
       = setNode threeSquares
           (ConnectionManager.labelId
              (fst (getNextConnectionId (mkAppState 3 0))) "center")
           (LabelNode
              (newCenterLabel
                 (ShapeFactory.mkBounds 0 0 50 50 0 (0 + 50) 0 (0 + 50)
                                        (0 + 50 / 2) (0 + 50 / 2))
                 (ShapeFactory.mkBounds 100 0 50 50 100 (100 + 50) 0 (0 + 50)
                                        (100 + 50 / 2) (0 + 50 / 2)))).
Proof.
  destruct threeSquares_connectable as (H1 & H2 & H3 & H4).
  apply (deleting_a_new_connection_leaves_its_centre_label
           (mkAppState 3 0) threeSquares "shape-1" "shape-2" _ _ _ _
           H1 H2 H3 H4).
  - simpl. tauto.
  - simpl. tauto.
Defined.

Section DeletingConnections.
Import ConnectionManager ConnectionInteractions.

Lemma cleaned_unlisted (cid : string) (s : shape_element) :
  connections s = [] -> cleaned cid s = s.
Proof. destruct s as [g l]. simpl. intros ->. reflexivity. Qed.

Lemma forgetConnection_shapes (cid : string) (e : document) (k k' : string) :
  getShape (forgetConnection cid e k) k'
  = if decide (k = k') then option_map (cleaned cid) (getShape e k)
    else getShape e k'.
Proof.
  unfold forgetConnection.
  destruct (getShape e k) as [s |] eqn:Hs.
  - destruct (connections s) as [| a l] eqn:Hl.
    + destruct (decide (k = k')) as [<- | Hne]; [| reflexivity].
      rewrite Hs. simpl. rewrite (cleaned_unlisted cid s Hl). reflexivity.
    + destruct (decide (k = k')) as [<- | Hne].
      * rewrite getShape_setNode_eq. simpl. unfold cleaned. rewrite Hl.
        reflexivity.
      * apply getShape_setNode_ne. exact Hne.
  - destruct (decide (k = k')) as [<- | Hne]; [rewrite Hs |]; reflexivity.
Qed.

Lemma forgetConnection_labels (cid : string) (e : document) (k i : string) :
  getLabel (forgetConnection cid e k) i = getLabel e i.
Proof.
  unfold forgetConnection.
  destruct (getShape e k) as [s |] eqn:Hs; [| reflexivity].
  destruct (connections s); [reflexivity |].
  destruct (decide (k = i)) as [<- | Hne].
  - unfold getLabel, getShape, setNode in *. simpl. rewrite lookup_insert_eq.
    destruct (nodes e !! k) as [[| |] |]; congruence.
  - apply getLabel_setNode_ne. exact Hne.
Qed.

Lemma removeLabel_labels (e : document) (o : option string) (i : string)
    (l : label) :
  getLabel e i = Some l -> Some i <> o -> getLabel (removeLabel e o) i = Some l.
Proof.
  intros Hl Hne. unfold removeLabel. destruct o as [id |]; [| exact Hl].
  destruct (truthy (Some id)); [| exact Hl].
  unfold getLabel, removeNode in *. simpl.
  rewrite lookup_delete_ne by congruence. exact Hl.
Qed.

Lemma getShape_subseteq (e e' : document) (k : string) (s : shape_element) :
  nodes e' ⊆ nodes e -> getShape e' k = Some s -> getShape e k = Some s.
Proof.
  intros Hsub H. unfold getShape in *.
  destruct (nodes e' !! k) as [n |] eqn:Hn; [| discriminate].
  rewrite (lookup_weaken _ _ _ _ Hn Hsub). exact H.
Qed.

Lemma not_in_cleaned (cid : string) (s : shape_element) :
  ~ In cid (connections (cleaned cid s)).
Proof.
  simpl. rewrite <- list_elem_of_In. intros H.
  apply list_elem_of_filter in H as [H _]. congruence.
Qed.

(** X9.  Deleting a connection, whatever the document: the connection is
    gone; the shape at either of its ends, where it is still there, has its
    geometry and no back reference to the connection; no label but the two
    end labels is removed, so that the centre label stays; and the other
    shapes are as they were. *)
Theorem deleting_a_connection_unlists_it (d : document) (cid : string)
    (c : connection) :
  getConnection d cid = Some c ->
  let d' := deleteConnection d cid in
  nodes d' !! cid = None
  /\ (forall k s,
         k = data_source c \/ k = data_target c ->
         getShape d' k = Some s ->
         ~ In cid (connections s)
         /\ exists s0, getShape d k = Some s0 /\ s = cleaned cid s0)
  /\ (forall k l,
         getLabel d k = Some l ->
         Some k <> data_source_label_id c ->
         Some k <> data_target_label_id c ->
         getLabel d' k = Some l)
  /\ (forall k s,
         k <> data_source c -> k <> data_target c ->
         getShape d' k = Some s -> getShape d k = Some s).
Proof.
  intros Hc d'. unfold d', deleteConnection. rewrite Hc. cbn [fold_left].
  set (d1 := removeLabel d (data_source_label_id c)).
  set (d2 := removeLabel d1 (data_target_label_id c)).
  set (d3 := forgetConnection cid d2 (data_source c)).
  set (d4 := forgetConnection cid d3 (data_target c)).
  assert (Hsub : nodes d2 ⊆ nodes d).
  { etransitivity; apply removeLabel_subseteq. }
  assert (Hget : forall k, getShape (removeNode d4 cid) k
                           = if decide (cid = k) then None else getShape d4 k).
  { intros k. unfold getShape, removeNode. simpl.
    destruct (decide (cid = k)) as [<- | Hne].
    - rewrite lookup_delete_eq. reflexivity.
    - rewrite lookup_delete_ne by exact Hne. reflexivity. }
  assert (Hclean : forall s0, cleaned cid (cleaned cid s0) = cleaned cid s0).
  { intros s0. unfold cleaned. simpl. f_equal.
    induction (connections s0) as [| a l IH]; [reflexivity |].
    rewrite filter_cons. destruct (decide (a <> cid)) as [Ha | Ha].
    - rewrite filter_cons. destruct (decide (a <> cid)); [| contradiction].
      f_equal. exact IH.
    - exact IH. }
  split; [simpl; apply lookup_delete_eq |]. split; [| split].
  - intros k s Hk Hs. rewrite Hget in Hs.
    destruct (decide (cid = k)) as [| Hne]; [discriminate |].
    unfold d4, d3 in Hs. rewrite !forgetConnection_shapes in Hs.
    assert (Hfrom : exists s2, getShape d2 k = Some s2 /\ s = cleaned cid s2).
    { destruct Hk as [-> | ->].
      - destruct (decide (data_target c = data_source c)) as [E | E].
        + rewrite E in Hs.
          destruct (decide (data_source c = data_source c)); [| congruence].
          destruct (getShape d2 (data_source c)) as [s2 |]; [| discriminate].
          simpl in Hs. injection Hs as <-. exists s2.
          split; [reflexivity | apply Hclean].
        + destruct (decide (data_source c = data_source c)); [| congruence].
          destruct (getShape d2 (data_source c)) as [s2 |]; [| discriminate].
          simpl in Hs. injection Hs as <-. exists s2. split; reflexivity.
      - destruct (decide (data_target c = data_target c)); [| congruence].
        destruct (decide (data_source c = data_target c)) as [E | E].
        + destruct (getShape d2 (data_source c)) as [s2 |] eqn:H2;
            [| discriminate].
          simpl in Hs. injection Hs as <-. exists s2.
          split; [rewrite <- E; exact H2 | apply Hclean].
        + destruct (getShape d2 (data_target c)) as [s2 |]; [| discriminate].
          simpl in Hs. injection Hs as <-. exists s2. split; reflexivity. }
    destruct Hfrom as (s2 & H2 & ->). split; [apply not_in_cleaned |].
    exists s2. split; [| reflexivity].
    exact (getShape_subseteq d d2 k s2 Hsub H2).
  - intros k l Hl Hns Hnt.
    assert (Hne : cid <> k).
    { intros ->. unfold getLabel, getConnection in *.
      destruct (nodes d !! k) as [[| |] |]; congruence. }
    unfold getLabel, removeNode. simpl. rewrite lookup_delete_ne by exact Hne.
    change (getLabel d4 k = Some l). unfold d4, d3.
    rewrite !forgetConnection_labels. unfold d2, d1.
    apply removeLabel_labels; [| exact Hnt].
    apply removeLabel_labels; [exact Hl | exact Hns].
  - intros k s Hns Hnt Hs. rewrite Hget in Hs.
    destruct (decide (cid = k)) as [| Hne]; [discriminate |].
    unfold d4, d3 in Hs. rewrite !forgetConnection_shapes in Hs.
    destruct (decide (data_target c = k)); [congruence |].
    destruct (decide (data_source c = k)); [congruence |].
    exact (getShape_subseteq d d2 k s Hsub Hs).
Qed.

Lemma deleting_a_connection_unlists_it_witness :
  nodes (deleteConnection joinedSquares "connection-1") !! "connection-1"%string
  = None.
Proof.
  apply (deleting_a_connection_unlists_it joinedSquares "connection-1"
           (mkConnection "shape-1" "shape-2"
              (Some anchoredEnds) (Some anchoredEnds)
              (Some "label-connection-1-source"%string)
              (Some "label-connection-1-target"%string)
              (Some "label-connection-1-center"%string))).
  reflexivity.
Defined.

End DeletingConnections.

Section Duplicates.
Import ConnectionManager ShapeActions.

(** X10.  A duplicate is a copy under the next shape id, 50 further right
    and 50 further down for a circle, an ellipse, a rectangle or a line, and
    it carries the back references of the original although no connection
    ends at it: deleting the duplicate with the Delete key removes every
    connection the original lists. *)
Theorem a_duplicate_inherits_the_back_references (st : AppState)
    (d : document) (shapeId : string) (original : shape_element)
    (rendered : box) :
  getShape d shapeId = Some original ->
  nodes d !! fst (getNextShapeId st) = None ->
  let newId := fst (getNextShapeId st) in
  let d' := snd (duplicateShape st d shapeId rendered) in
  fst (duplicateShape st d shapeId rendered) = snd (getNextShapeId st)
  /\ getShape d' shapeId = Some original
  /\ (exists copy,
         getShape d' newId = Some copy
         /\ connections copy = connections original
         /\ (MultiShapeAlignment.isBasic (geometry original) = true
             \/ (exists l, geometry original = Line l) ->
             ShapeFactory.getShapeBounds (geometry copy)
             = option_map (fun b => shiftBounds b 50 50)
                          (ShapeFactory.getShapeBounds (geometry original))))
  /\ (forall cid,
         In cid (connections original) ->
         nodes (KeyboardShortcuts.deleteSelectedShape d' newId) !! cid = None).
Proof.
  intros Hs Hfresh newId d'.
  assert (Hne : newId <> shapeId).
  { intros E. apply getShape_present in Hs. unfold newId in E. congruence. }
  unfold d', duplicateShape. rewrite Hs.
  destruct (getNextShapeId st) as [id st'] eqn:Eid. cbn [fst snd] in *.
  subst newId. split; [reflexivity |].
  split; [rewrite getShape_setNode_ne by exact Hne; exact Hs |].
  split.
  - eexists. split; [apply getShape_setNode_eq |]. split; [reflexivity |].
    intros Hkind. cbn [geometry].
    destruct (geometry original) as [cx cy r | cx cy rx ry | x y w h | l | g |];
      try (destruct Hkind as [Hk | [l' Hk]]; discriminate);
      simpl; unfold shiftBounds; simpl.
    + f_equal. f_equal; lra.
    + f_equal. f_equal; lra.
    + f_equal. f_equal; lra.
    + unfold ShapeFactory.lineBounds. simpl.
      rewrite !Rmin_shift, !Rmax_shift. f_equal. f_equal; lra.
  - intros cid Hin.
    match goal with
    | |- nodes (KeyboardShortcuts.deleteSelectedShape ?e id) !! cid = None =>
        destruct (deletion_never_updates_back_references e id
                    (mkShapeElement
                       (clonedShape (geometry original) rendered)
                       (connections original)))
          as [Hgone _]
    end.
    + apply getShape_setNode_eq.
    + apply Hgone. exact Hin.
Qed.

Lemma a_duplicate_inherits_the_back_references_witness :
  nodes (KeyboardShortcuts.deleteSelectedShape
           (snd (duplicateShape (mkAppState 2 1) joinedSquares "shape-1"
                                (mkBox 0 0 50 50)))
           (fst (getNextShapeId (mkAppState 2 1)))) !! "connection-1"%string
  = None.
Proof.
  apply (a_duplicate_inherits_the_back_references (mkAppState 2 1)
           joinedSquares "shape-1"
           (mkShapeElement (Rect 0 0 50 50) ["connection-1"%string])
           (mkBox 0 0 50 50)).
  - reflexivity.
  - reflexivity.
  - left. reflexivity.
Defined.

End Duplicates.

(** ** Alignment to an edge, vertical alignment, vertical distribution *)

Section AlignmentModes.
Import MultiShapeAlignment.

(** The loops of [alignHorizontal] and [alignVertical], as plans. *)
Lemma alignHorizontal_plan (d : document) (ids : list string)
    (mode : alignment) :
  (2 <= length ids)%nat -> (2 <= length (resolve d ids))%nat ->
  alignHorizontal d ids mode
  = forEach place
      (map (fun p =>
              (fst p,
               (match mode with
                | Leading => referenceX mode (map snd (resolve d ids))
                | Trailing =>
                    referenceX mode (map snd (resolve d ids)) - width (snd p)
                | Middle =>
                    referenceX mode (map snd (resolve d ids))
                    - width (snd p) / 2
                end,
                y (snd p))))
           (resolve d ids)) d.
Proof.
  intros H1 H2. unfold alignHorizontal.
  destruct (length ids <? 2)%nat eqn:E1; [apply Nat.ltb_lt in E1; lia |].
  destruct (length (resolve d ids) <? 2)%nat eqn:E2;
    [apply Nat.ltb_lt in E2; lia |].
  rewrite forEach_map. apply forEach_ext. intros d0 [id b].
  destruct mode; reflexivity.
Qed.

Lemma alignVertical_plan (d : document) (ids : list string)
    (mode : alignment) :
  (2 <= length ids)%nat -> (2 <= length (resolve d ids))%nat ->
  alignVertical d ids mode
  = forEach place
      (map (fun p =>
              (fst p,
               (x (snd p),
                match mode with
                | Leading => referenceY mode (map snd (resolve d ids))
                | Trailing =>
                    referenceY mode (map snd (resolve d ids)) - height (snd p)
                | Middle =>
                    referenceY mode (map snd (resolve d ids))
                    - height (snd p) / 2
                end)))
           (resolve d ids)) d.
Proof.
  intros H1 H2. unfold alignVertical.
  destruct (length ids <? 2)%nat eqn:E1; [apply Nat.ltb_lt in E1; lia |].
  destruct (length (resolve d ids) <? 2)%nat eqn:E2;
    [apply Nat.ltb_lt in E2; lia |].
  rewrite forEach_map. apply forEach_ext. intros d0 [id b].
  destruct mode; reflexivity.
Qed.

(** The bounds of a shape of a kind that is moved, once it is moved. *)
Lemma moved_bounds (d d' : document) (id : string) (s : shape_element)
    (x0 y0 : R) :
  getShape d id = Some s -> alignable (geometry s) ->
  getShape d' id
  = Some (mkShapeElement (reposition (geometry s) x0 y0) (connections s)) ->
  boundsAt d' id
  = mkBounds x0 y0 (width (boundsAt d id)) (height (boundsAt d id))
             (x0 + width (boundsAt d id) / 2) (y0 + height (boundsAt d id) / 2)
             (x0 + width (boundsAt d id)) (y0 + height (boundsAt d id)).
Proof.
  intros Hs Hal Hd'. rewrite (boundsAt_moved d' id s x0 y0 Hd').
  rewrite (reposition_bounds (geometry s) x0 y0 Hal). simpl.
  unfold boundsAt. rewrite Hs. reflexivity.
Qed.

Lemma bounds_consistent (s : shape) :
  let b := getShapeBounds s in
  right b = x b + width b /\ bottom b = y b + height b
  /\ centerX b = x b + width b / 2 /\ centerY b = y b + height b / 2.
Proof.
  destruct s as [| | | | g |]; simpl; try (repeat split; reflexivity).
  unfold getShapeBounds. simpl.
  destruct (g_transform g) as [[tx ty] |]; repeat split; reflexivity.
Qed.

Lemma boundsAt_consistent (d : document) (id : string) :
  let b := boundsAt d id in
  right b = x b + width b /\ bottom b = y b + height b
  /\ centerX b = x b + width b / 2 /\ centerY b = y b + height b / 2.
Proof.
  unfold boundsAt. destruct (getShape d id) as [s |].
  - apply bounds_consistent.
  - simpl. repeat split; lra.
Qed.

Lemma reference_of_ids (d : document) (ids : list string) (mode : alignment) :
  ids <> [] ->
  exists lo hi,
    isMinimum lo (map (fun id => x (boundsAt d id)) ids)
    /\ isMaximum hi (map (fun id => right (boundsAt d id)) ids)
    /\ referenceX mode (map (fun id => boundsAt d id) ids)
       = match mode with
         | Leading => lo
         | Trailing => hi
         | Middle => (lo + hi) / 2
         end.
Proof.
  intros Hne.
  exists (minimum (map (fun id => x (boundsAt d id)) ids)),
    (maximum (map (fun id => right (boundsAt d id)) ids)).
  split; [apply minimum_isMinimum; destruct ids; [congruence | discriminate] |].
  split; [apply maximum_isMaximum; destruct ids; [congruence | discriminate] |].
  unfold referenceX. rewrite !map_map. destruct mode; reflexivity.
Qed.

Lemma referenceY_of_ids (d : document) (ids : list string) (mode : alignment) :
  ids <> [] ->
  exists lo hi,
    isMinimum lo (map (fun id => y (boundsAt d id)) ids)
    /\ isMaximum hi (map (fun id => bottom (boundsAt d id)) ids)
    /\ referenceY mode (map (fun id => boundsAt d id) ids)
       = match mode with
         | Leading => lo
         | Trailing => hi
         | Middle => (lo + hi) / 2
         end.
Proof.
  intros Hne.
  exists (minimum (map (fun id => y (boundsAt d id)) ids)),
    (maximum (map (fun id => bottom (boundsAt d id)) ids)).
  split; [apply minimum_isMinimum; destruct ids; [congruence | discriminate] |].
  split; [apply maximum_isMaximum; destruct ids; [congruence | discriminate] |].
  unfold referenceY. rewrite !map_map. destruct mode; reflexivity.
Qed.

(** X11.  Horizontal alignment in each of its modes, for at least two
    distinct shapes of the kinds that are moved (circles, ellipses,
    rectangles, groups whose content box starts at their origin), in a
    document whose shapes all have bounds: afterwards the left edges are at
    the smallest left edge (left), the right edges at the largest right edge
    (right), the centres at the middle of the two (center); each shape keeps
    its y, its width and its height; and the shapes that are not in the list
    stay as they were. *)
Theorem horizontal_alignment (d : document) (ids : list string)
    (mode : alignment) :
  NoDup ids -> (2 <= length ids)%nat -> allResolvable d ->
  (forall id, In id ids ->
     exists s, getShape d id = Some s /\ alignable (geometry s)) ->
  exists d' lo hi,
    alignHorizontal d ids mode = Done d'
    /\ isMinimum lo (map (fun id => x (boundsAt d id)) ids)
    /\ isMaximum hi (map (fun id => right (boundsAt d id)) ids)
    /\ (forall id, In id ids ->
          edgeX mode (boundsAt d' id)
          = match mode with
            | Leading => lo
            | Trailing => hi
            | Middle => (lo + hi) / 2
            end
          /\ y (boundsAt d' id) = y (boundsAt d id)
          /\ width (boundsAt d' id) = width (boundsAt d id)
          /\ height (boundsAt d' id) = height (boundsAt d id))
    /\ (forall k, ~ In k ids -> getShape d' k = getShape d k).
Proof.
  intros Hnd Hlen Hall Hkinds.
  assert (Hres : resolve d ids = map (fun id => (id, boundsAt d id)) ids).
  { apply resolve_all. intros id Hid.
    destruct (Hkinds id Hid) as (s & Hs & _). eauto. }
  assert (Hne : ids <> []) by (destruct ids; [simpl in Hlen; lia | congruence]).
  rewrite alignHorizontal_plan
    by (try exact Hlen; rewrite Hres, length_map; exact Hlen).
  rewrite Hres, !map_map. cbn [fst snd].
  destruct (reference_of_ids d ids mode Hne) as (lo & hi & Hlo & Hhi & Href).
  rewrite Href. clear Href.
  set (target := match mode with
                 | Leading => lo
                 | Trailing => hi
                 | Middle => (lo + hi) / 2
                 end).
  match goal with
  | |- context [forEach place ?plan d] =>
      destruct (forEach_place plan d) as (d' & Hrun & _ & Hmoved & Hkept)
  end.
  - rewrite map_map. simpl. rewrite map_id. exact Hnd.
  - exact Hall.
  - intros p Hp. apply in_map_iff in Hp as (id & <- & Hid). simpl.
    destruct (Hkinds id Hid) as (s & Hs & _). eauto.
  - exists d', lo, hi. split; [exact Hrun |]. split; [exact Hlo |].
    split; [exact Hhi |]. split.
    + intros id Hid. destruct (Hkinds id Hid) as (s & Hs & Hal).
      destruct (boundsAt_consistent d id) as (Hr & Hb & Hcx & Hcy).
      match goal with
      | Hm : forall id x0 y0, In (id, (x0, y0)) ?plan -> _ |- _ =>
          destruct (Hm id
                      (match mode with
                       | Leading => target
                       | Trailing => target - width (boundsAt d id)
                       | Middle => target - width (boundsAt d id) / 2
                       end)
                      (y (boundsAt d id))) as (s' & Hs' & Hd')
      end.
      { apply in_map_iff. exists id. split; [| exact Hid].
        unfold target. destruct mode; reflexivity. }
      rewrite Hs in Hs'. injection Hs' as <-.
      rewrite (moved_bounds d d' id s _ _ Hs Hal Hd').
      unfold edgeX. subst target. clear Hrun Hmoved Hkept Hd'.
      destruct mode; simpl; repeat split; lra.
    + intros k Hk. apply Hkept. rewrite map_map. simpl. rewrite map_id.
      exact Hk.
Qed.

(** X12.  Vertical alignment in each of its modes, under the same
    conditions: afterwards the top edges are at the smallest top edge (top),
    the bottom edges at the largest bottom edge (bottom), the centres at the
    middle of the two (middle); each shape keeps its x, its width and its
    height; and the shapes that are not in the list stay as they were. *)
Theorem vertical_alignment (d : document) (ids : list string)
    (mode : alignment) :
  NoDup ids -> (2 <= length ids)%nat -> allResolvable d ->
  (forall id, In id ids ->
     exists s, getShape d id = Some s /\ alignable (geometry s)) ->
  exists d' lo hi,
    alignVertical d ids mode = Done d'
    /\ isMinimum lo (map (fun id => y (boundsAt d id)) ids)
    /\ isMaximum hi (map (fun id => bottom (boundsAt d id)) ids)
    /\ (forall id, In id ids ->
          edgeY mode (boundsAt d' id)
          = match mode with
            | Leading => lo
            | Trailing => hi
            | Middle => (lo + hi) / 2
            end
          /\ x (boundsAt d' id) = x (boundsAt d id)
          /\ width (boundsAt d' id) = width (boundsAt d id)
          /\ height (boundsAt d' id) = height (boundsAt d id))
    /\ (forall k, ~ In k ids -> getShape d' k = getShape d k).
Proof.
  intros Hnd Hlen Hall Hkinds.
  assert (Hres : resolve d ids = map (fun id => (id, boundsAt d id)) ids).
  { apply resolve_all. intros id Hid.
    destruct (Hkinds id Hid) as (s & Hs & _). eauto. }
  assert (Hne : ids <> []) by (destruct ids; [simpl in Hlen; lia | congruence]).
  rewrite alignVertical_plan
    by (try exact Hlen; rewrite Hres, length_map; exact Hlen).
  rewrite Hres, !map_map. cbn [fst snd].
  destruct (referenceY_of_ids d ids mode Hne) as (lo & hi & Hlo & Hhi & Href).
  rewrite Href. clear Href.
  set (target := match mode with
                 | Leading => lo
                 | Trailing => hi
                 | Middle => (lo + hi) / 2
                 end).
  match goal with
  | |- context [forEach place ?plan d] =>
      destruct (forEach_place plan d) as (d' & Hrun & _ & Hmoved & Hkept)
  end.
  - rewrite map_map. simpl. rewrite map_id. exact Hnd.
  - exact Hall.
  - intros p Hp. apply in_map_iff in Hp as (id & <- & Hid). simpl.
    destruct (Hkinds id Hid) as (s & Hs & _). eauto.
  - exists d', lo, hi. split; [exact Hrun |]. split; [exact Hlo |].
    split; [exact Hhi |]. split.
    + intros id Hid. destruct (Hkinds id Hid) as (s & Hs & Hal).
      destruct (boundsAt_consistent d id) as (Hr & Hb & Hcx & Hcy).
      match goal with
      | Hm : forall id x0 y0, In (id, (x0, y0)) ?plan -> _ |- _ =>
          destruct (Hm id (x (boundsAt d id))
                      (match mode with
                       | Leading => target
                       | Trailing => target - height (boundsAt d id)
                       | Middle => target - height (boundsAt d id) / 2
                       end)) as (s' & Hs' & Hd')
      end.
      { apply in_map_iff. exists id. split; [| exact Hid].
        unfold target. destruct mode; reflexivity. }
      rewrite Hs in Hs'. injection Hs' as <-.
      rewrite (moved_bounds d d' id s _ _ Hs Hal Hd').
      unfold edgeY. subst target. clear Hrun Hmoved Hkept Hd'.
      destruct mode; simpl; repeat split; lra.
    + intros k Hk. apply Hkept. rewrite map_map. simpl. rewrite map_id.
      exact Hk.
Qed.

Lemma horizontal_alignment_witness :
  exists d',
    alignHorizontal joinedSquares ["shape-1"; "shape-2"]%string Trailing
    = Done d'
    /\ right (boundsAt d' "shape-1") = right (boundsAt d' "shape-2").
Proof.
  destruct (horizontal_alignment joinedSquares ["shape-1"; "shape-2"]%string
              Trailing) as (d' & lo & hi & Hrun & _ & _ & Hat & _).
  - apply noDup2. discriminate.
  - simpl. lia.
  - exact joinedSquares_resolvable.
  - intros id [<- | [<- | []]]; eexists; (split; [reflexivity | exact I]).
  - exists d'. split; [exact Hrun |].
    destruct (Hat "shape-1"%string) as [H1 _]; [simpl; tauto |].
    destruct (Hat "shape-2"%string) as [H2 _]; [simpl; tauto |].
    simpl in H1, H2. rewrite H1, H2. reflexivity.
Defined.

Lemma vertical_alignment_witness :
  exists d',
    alignVertical joinedSquares ["shape-1"; "shape-2"]%string Middle = Done d'
    /\ centerY (boundsAt d' "shape-1") = centerY (boundsAt d' "shape-2").
Proof.
  destruct (vertical_alignment joinedSquares ["shape-1"; "shape-2"]%string
              Middle) as (d' & lo & hi & Hrun & _ & _ & Hat & _).
  - apply noDup2. discriminate.
  - simpl. lia.
  - exact joinedSquares_resolvable.
  - intros id [<- | [<- | []]]; eexists; (split; [reflexivity | exact I]).
  - exists d'. split; [exact Hrun |].
    destruct (Hat "shape-1"%string) as [H1 _]; [simpl; tauto |].
    destruct (Hat "shape-2"%string) as [H2 _]; [simpl; tauto |].
    simpl in H1, H2. rewrite H1, H2. reflexivity.
Defined.

End AlignmentModes.

Section VerticalDistribution.
Import MultiShapeAlignment.

Lemma placeAlongY_plan (spacing : R) (l : list (string * Bounds))
    (currentY : R) (d : document) :
  placeAlongY spacing l currentY d
  = forEach place (planAlongY spacing l currentY) d.
Proof.
  revert currentY d. induction l as [| [shape bound] l IH]; intros cur d;
    simpl; [reflexivity |].
  unfold place at 1. simpl.
  destruct (moveShapeToPosition d shape (x bound) cur); [apply IH | reflexivity].
Qed.

Lemma planAlongY_fst (spacing : R) (l : list (string * Bounds)) (cur : R) :
  map fst (planAlongY spacing l cur) = map fst l.
Proof.
  revert cur. induction l as [| [shape bound] l IH]; intros cur; simpl;
    [reflexivity |].
  f_equal. apply IH.
Qed.

Lemma planAlongY_adjacent (spacing : R) (l : list (string * Bounds)) (cur : R)
    (i : nat) (p q : string) (bp bq : Bounds) :
  l !! i = Some (p, bp) -> l !! S i = Some (q, bq) ->
  exists yp,
    In (p, (x bp, yp)) (planAlongY spacing l cur)
    /\ In (q, (x bq, yp + (height bp + spacing))) (planAlongY spacing l cur).
Proof.
  revert cur i. induction l as [| [shape bound] l IH]; intros cur i Hp Hq.
  - discriminate.
  - destruct i as [| i]; simpl in Hp, Hq.
    + injection Hp as -> ->. destruct l as [| [shape' bound'] l];
        [discriminate |].
      simpl in Hq. injection Hq as -> ->.
      exists cur. simpl. split; [left | right; left]; reflexivity.
    + destruct (IH (cur + (height bound + spacing)) i Hp Hq) as (yp & H1 & H2).
      exists yp. simpl. split; right; assumption.
Qed.

Lemma planAlongY_last (spacing : R) (l : list (string * Bounds)) (cur : R)
    (q : string) (bq : Bounds) :
  last l = Some (q, bq) ->
  exists yq,
    In (q, (x bq, yq)) (planAlongY spacing l cur)
    /\ yq = cur + total (map (fun p => height (snd p)) l) - height bq
            + (INR (length l) - 1) * spacing.
Proof.
  revert cur. induction l as [| [shape bound] l IH]; intros cur Hlast.
  - discriminate.
  - destruct l as [| e l].
    + simpl in Hlast. injection Hlast as -> ->. exists cur. split.
      * left. reflexivity.
      * unfold total. simpl. lra.
    + change (last ((shape, bound) :: e :: l)) with (last (e :: l)) in Hlast.
      destruct (IH (cur + (height bound + spacing)) Hlast) as (yq & Hin & Hy).
      exists yq. split; [right; exact Hin |].
      rewrite Hy.
      change (map (fun p => height (snd p)) ((shape, bound) :: e :: l))
        with (height bound :: map (fun p => height (snd p)) (e :: l)).
      rewrite total_cons.
      change (length ((shape, bound) :: e :: l)) with (S (length (e :: l))).
      rewrite S_INR. lra.
Qed.

Lemma planAlongY_planned (spacing : R) (l : list (string * Bounds)) (cur : R)
    (p : string) (bp : Bounds) :
  In (p, bp) l -> exists y0, In (p, (x bp, y0)) (planAlongY spacing l cur).
Proof.
  revert cur. induction l as [| [q bq] l IH]; intros cur Hin;
    [destruct Hin |].
  destruct Hin as [E | Hin].
  - injection E as -> ->. exists cur. left. reflexivity.
  - destruct (IH (cur + (height bq + spacing)) Hin) as (y0 & Hy0).
    exists y0. right. exact Hy0.
Qed.

(** The loop of [distributeVertical], as a plan. *)
Lemma distributeVertical_plan (d : document) (ids : list string)
    (first : string * Bounds) (rest : list (string * Bounds))
    (final : string * Bounds) :
  (3 <= length ids)%nat -> (3 <= length (resolve d ids))%nat ->
  sortBy (fun p => y (snd p)) (resolve d ids) = first :: rest ->
  last (first :: rest) = Some final ->
  distributeVertical d ids
  = forEach place
      (planAlongY
         ((bottom (snd final) - y (snd first)
           - total (map (fun p => height (snd p)) (first :: rest)))
          / (INR (length (first :: rest)) - 1))
         (first :: rest) (y (snd first))) d.
Proof.
  intros H1 H2 Hsort Hlast. unfold distributeVertical.
  destruct (length ids <? 3)%nat eqn:E1; [apply Nat.ltb_lt in E1; lia |].
  destruct (length (resolve d ids) <? 3)%nat eqn:E2;
    [apply Nat.ltb_lt in E2; lia |].
  rewrite Hsort, Hlast. apply placeAlongY_plan.
Qed.

(** X13.  Vertical distribution of at least three distinct shapes of the
    kinds that are moved, in a document whose shapes all have bounds: taken
    in the order of their top edges before the operation, afterwards the
    gap between the bottom edge of a shape and the top edge of the next is
    the same for all adjacent pairs, the first and the last shape of the
    order keep their positions, and every shape keeps its x. *)
Theorem vertical_distribution (d : document) (ids : list string) :
  NoDup ids -> (3 <= length ids)%nat -> allResolvable d ->
  (forall id, In id ids ->
     exists s, getShape d id = Some s /\ alignable (geometry s)) ->
  exists d' order gap,
    distributeVertical d ids = Done d'
    /\ order ≡ₚ ids
    /\ (forall i p q,
           order !! i = Some p -> order !! S i = Some q ->
           y (boundsAt d p) <= y (boundsAt d q)
           /\ bottom (boundsAt d' p)
              = y (boundsAt d' p) + height (boundsAt d p)
           /\ y (boundsAt d' q) - bottom (boundsAt d' p) = gap)
    /\ (forall p, head order = Some p ->
          y (boundsAt d' p) = y (boundsAt d p))
    /\ (forall q, last order = Some q ->
          y (boundsAt d' q) = y (boundsAt d q))
    /\ (forall p, In p ids -> x (boundsAt d' p) = x (boundsAt d p)).
Proof.
  intros Hnd Hlen Hall Hkinds.
  assert (Hres : resolve d ids = map (fun id => (id, boundsAt d id)) ids).
  { apply resolve_all. intros id Hid.
    destruct (Hkinds id Hid) as (s & Hs & _). eauto. }
  pose proof (sortBy_perm (fun p : string * Bounds => y (snd p))
                (resolve d ids)) as Hperm.
  pose proof (sortBy_sorted (fun p : string * Bounds => y (snd p))
                (resolve d ids)) as Hsorted.
  destruct (sortBy (fun p : string * Bounds => y (snd p)) (resolve d ids))
    as [| first rest] eqn:Hsort.
  { apply Permutation_length in Hperm. rewrite Hres, length_map in Hperm.
    simpl in Hperm. lia. }
  set (sorted := first :: rest) in *.
  assert (Hlen' : length sorted = length ids).
  { apply Permutation_length in Hperm. rewrite Hperm, Hres.
    apply length_map. }
  assert (Hentry : forall p bp,
             In (p, bp) sorted -> bp = boundsAt d p /\ In p ids).
  { intros p bp Hin. apply list_elem_of_In in Hin. rewrite Hperm, Hres in Hin.
    apply list_elem_of_In, in_map_iff in Hin as (id & E & Hid).
    injection E as <- <-. split; [reflexivity | exact Hid]. }
  assert (Horder : map fst sorted ≡ₚ ids).
  { change (map fst sorted) with (fst <$> sorted). rewrite Hperm, Hres.
    change (fst <$> map (fun id => (id, boundsAt d id)) ids)
      with (map fst (map (fun id => (id, boundsAt d id)) ids)).
    rewrite map_map. simpl. rewrite map_id. reflexivity. }
  destruct (last sorted) as [final |] eqn:Hlast;
    [| apply last_None in Hlast; discriminate].
  set (spacing := (bottom (snd final) - y (snd first)
                   - total (map (fun p => height (snd p)) sorted))
                  / (INR (length sorted) - 1)).
  rewrite (distributeVertical_plan d ids first rest final)
    by (try assumption; rewrite ?Hres, ?length_map; assumption).
  fold sorted. fold spacing.
  destruct (forEach_place (planAlongY spacing sorted (y (snd first))) d)
    as (d' & Hrun & _ & Hmoved & _).
  - rewrite planAlongY_fst. rewrite Horder. exact Hnd.
  - exact Hall.
  - intros p Hp. apply (in_map fst) in Hp. rewrite planAlongY_fst in Hp.
    apply list_elem_of_In in Hp. rewrite Horder in Hp.
    apply list_elem_of_In in Hp.
    destruct (Hkinds _ Hp) as (s & Hs & _). eauto.
  - assert (Hafter : forall p bp x0 y0,
               In (p, bp) sorted ->
               In (p, (x0, y0)) (planAlongY spacing sorted (y (snd first))) ->
               x (boundsAt d' p) = x0
               /\ y (boundsAt d' p) = y0
               /\ bottom (boundsAt d' p) = y0 + height bp).
    { intros p bp x0 y0 Hin Hplan.
      destruct (Hentry p bp Hin) as [-> Hid].
      destruct (Hkinds p Hid) as (s & Hs & Hal).
      destruct (Hmoved p x0 y0 Hplan) as (s' & Hs' & Hd').
      rewrite Hs in Hs'. injection Hs' as <-.
      rewrite (moved_bounds d d' p s x0 y0 Hs Hal Hd'). simpl.
      repeat split; reflexivity. }
    assert (Hplanned : forall p bp,
               In (p, bp) sorted ->
               exists y0,
                 In (p, (x bp, y0)) (planAlongY spacing sorted (y (snd first)))).
    { intros p bp Hin. apply planAlongY_planned. exact Hin. }
    exists d', (map fst sorted), spacing.
    split; [exact Hrun |]. split; [exact Horder |].
    split; [| split; [| split]].
    + intros i p q Hp Hq.
      apply lookup_map_Some in Hp as ([p' bp] & Hp & <-).
      apply lookup_map_Some in Hq as ([q' bq] & Hq & <-). simpl.
      destruct (Hentry p' bp (lookup_In _ _ _ Hp)) as [Ebp _].
      destruct (Hentry q' bq (lookup_In _ _ _ Hq)) as [Ebq _].
      split; [| destruct (planAlongY_adjacent spacing sorted (y (snd first)) i
                          p' q' bp bq Hp Hq) as (yp & Hinp & Hinq)].
      * rewrite <- Ebp, <- Ebq.
        exact (sorted_adjacent (fun p : string * Bounds => y (snd p))
                 sorted i (p', bp) (q', bq) Hsorted Hp Hq).
      * destruct (Hafter p' bp _ _ (lookup_In _ _ _ Hp) Hinp)
          as (_ & Hyp & Hb).
        destruct (Hafter q' bq _ _ (lookup_In _ _ _ Hq) Hinq) as (_ & Hy & _).
        rewrite Hb, Hy, Hyp, <- Ebp. split; lra.
    + intros p Hp. unfold sorted in Hp. simpl in Hp. injection Hp as <-.
      destruct first as [p bp]. simpl.
      destruct (Hentry p bp (or_introl eq_refl)) as [Ebp _].
      destruct (Hafter p bp (x bp) (y bp) (or_introl eq_refl)
                  (or_introl eq_refl)) as (_ & Hy & _).
      rewrite Hy, Ebp. reflexivity.
    + intros q Hq. apply last_map_Some in Hq as ([q' bq] & Hq & <-). simpl.
      rewrite Hlast in Hq. injection Hq as ->.
      destruct (Hentry q' bq (last_In _ _ Hlast)) as [Ebq Hid].
      destruct (planAlongY_last spacing sorted (y (snd first)) q' bq Hlast)
        as (yq & Hin & Hyq).
      destruct (Hafter q' bq (x bq) yq (last_In _ _ Hlast) Hin) as (_ & Hy & _).
      rewrite Hy, Hyq. rewrite <- Ebq.
      assert (Hn : INR (length sorted) - 1 <> 0).
      { rewrite Hlen'. assert (3 <= INR (length ids)).
        { replace 3 with (INR 3) by (simpl; lra). apply le_INR. exact Hlen. }
        lra. }
      assert (Hb : bottom bq = y bq + height bq).
      { rewrite Ebq. apply boundsAt_consistent. }
      unfold spacing. simpl snd. rewrite Hb. field. exact Hn.
    + intros p Hp.
      assert (Hin : In (p, boundsAt d p) sorted).
      { apply list_elem_of_In. rewrite Hperm, Hres. apply list_elem_of_In.
        apply in_map_iff. exists p. split; [reflexivity | exact Hp]. }
      destruct (Hplanned p _ Hin) as (y0 & Hy0).
      destruct (Hafter p _ _ _ Hin Hy0) as (Hx & _). exact Hx.
Qed.

Lemma vertical_distribution_witness :
  exists d',
    distributeVertical threeSquares ["shape-1"; "shape-2"; "shape-3"]%string
    = Done d'.
Proof.
  destruct (vertical_distribution threeSquares
              ["shape-1"; "shape-2"; "shape-3"]%string)
    as (d' & order & gap & Hrun & _).
  - apply noDup3; discriminate.
  - simpl. lia.
  - exact threeSquares_resolvable.
  - intros id [<- | [<- | [<- | []]]]; eexists; (split; [reflexivity | exact I]).
  - exists d'. exact Hrun.
Defined.

End VerticalDistribution.

(** ** Resizing *)

Section Resizing.
Import ShapeFactory ShapeResize.

Lemma Rmax_cases (a b : R) :
  (Rmax a b = a /\ b <= a) \/ (Rmax a b = b /\ a < b).
Proof.
  unfold Rmax. destruct (Rle_dec a b) as [H | H].
  - destruct (Req_dec_T a b) as [-> | Hne]; [left | right]; split; lra.
  - left. split; lra.
Qed.

Lemma handleRectResize_pivots (MIN_SHAPE_SIZE : MinShapeSize)
    (handleType : handle) (x y width height deltaX deltaY : R) :
  let b :=
    handleRectResize MIN_SHAPE_SIZE handleType x y width height deltaX deltaY in
  (if includesW handleType
   then box_x b + box_width b = x + width else box_x b = x)
  /\ (if includesN handleType
      then box_y b + box_height b = y + height else box_y b = y)
  /\ RECT_WIDTH MIN_SHAPE_SIZE <= box_width b
  /\ RECT_HEIGHT MIN_SHAPE_SIZE <= box_height b.
Proof.
  unfold handleRectResize.
  destruct handleType; cbn -[Rmax];
    repeat match goal with
           | |- context [Req_dec_T ?a ?b] => destruct (Req_dec_T a b)
           end; cbn -[Rmax];
    repeat match goal with
           | |- context [Rmax ?a ?b] =>
               let E := fresh "E" in
               let H := fresh "H" in
               destruct (Rmax_cases a b) as [[E H] | [E H]];
               rewrite E in *
           end;
    repeat split; lra.
Qed.

(** X14.  Resizing by a handle pivots on the other side.  A rectangle
    keeps the edges across from the handle where they were, also while the
    minimum size holds it: the right edge for a handle on the west side and
    the left edge otherwise, the bottom edge for a handle on the north side
    and the top edge otherwise; and it never gets smaller than the minimum
    width and height.  A circle and an ellipse keep their centre; the
    radius of a circle is not below the minimum afterwards, and a radius of
    an ellipse is below it only if it was before. *)
Theorem resizing_pivots (MIN_SHAPE_SIZE : MinShapeSize) (handleType : handle)
    (dragOffset mouse : R * R) (rendered : box) :
  (forall x y width height before after,
     getShapeBounds (Rect x y width height) = Some before ->
     getShapeBounds
       (handleResize MIN_SHAPE_SIZE (Rect x y width height) handleType
                     dragOffset mouse rendered) = Some after ->
     pivots handleType before after
     /\ RECT_WIDTH MIN_SHAPE_SIZE <= ShapeFactory.width after
     /\ RECT_HEIGHT MIN_SHAPE_SIZE <= ShapeFactory.height after)
  /\ (forall cx cy r after,
        getShapeBounds
          (handleResize MIN_SHAPE_SIZE (Circle cx cy r) handleType
                        dragOffset mouse rendered) = Some after ->
        centerX after = cx /\ centerY after = cy
        /\ 2 * CIRCLE_RADIUS MIN_SHAPE_SIZE <= ShapeFactory.width after
        /\ ShapeFactory.height after = ShapeFactory.width after)
  /\ (forall cx cy rx ry after,
        getShapeBounds
          (handleResize MIN_SHAPE_SIZE (Ellipse cx cy rx ry) handleType
                        dragOffset mouse rendered) = Some after ->
        centerX after = cx /\ centerY after = cy
        /\ (rx < ELLIPSE_RADIUS MIN_SHAPE_SIZE
            \/ 2 * ELLIPSE_RADIUS MIN_SHAPE_SIZE <= ShapeFactory.width after)
        /\ (ry < ELLIPSE_RADIUS MIN_SHAPE_SIZE
            \/ 2 * ELLIPSE_RADIUS MIN_SHAPE_SIZE <= ShapeFactory.height after)).
Proof.
  split; [| split].
  - intros x0 y0 w h before after Hb Ha. simpl in Hb, Ha.
    injection Hb as <-. injection Ha as <-.
    pose proof (handleRectResize_pivots MIN_SHAPE_SIZE handleType x0 y0 w h
                  (fst mouse - fst dragOffset) (snd mouse - snd dragOffset))
      as (Hx & Hy & Hw & Hh).
    unfold pivots. simpl. repeat split; assumption.
  - intros cx cy r after Ha. simpl in Ha. injection Ha as <-. simpl.
    unfold handleCircleResize.
    repeat split; try reflexivity.
    pose proof (Rmax_l (CIRCLE_RADIUS MIN_SHAPE_SIZE)
                  (r + (if Rlt_dec (Rabs (snd mouse - snd dragOffset))
                                   (Rabs (fst mouse - fst dragOffset))
                        then fst mouse - fst dragOffset
                        else snd mouse - snd dragOffset))).
    lra.
  - intros cx cy rx ry after Ha. cbn -[Rmax] in Ha.
    destruct handleType; cbn -[Rmax] in Ha; injection Ha as <-; cbn -[Rmax];
      repeat split;
      try (right;
           match goal with
           | |- context [Rmax ?a ?b] => pose proof (Rmax_l a b); lra
           end);
      destruct (Rlt_dec rx (ELLIPSE_RADIUS MIN_SHAPE_SIZE));
      destruct (Rlt_dec ry (ELLIPSE_RADIUS MIN_SHAPE_SIZE));
      try (left; assumption); right; lra.
Qed.

Lemma or_default_nonzero (v d : R) : v <> 0 -> or_default (Some v) d = v.
Proof.
  intros Hv. unfold or_default. destruct (Req_dec_T v 0); [contradiction |].
  reflexivity.
Qed.

Lemma Rmax_20_nonzero (v : R) : Rmax 20 v <> 0.
Proof. pose proof (Rmax_l 20 v). lra. Qed.

(** With numeric sizes, the arithmetic of [handleGroupResize] is that of
    [handleRectResize] on the translation and the size of the icon, with 20
    as both minima. *)
Lemma handleGroupResize_as_rect (g : group) (currentWidth currentHeight : R)
    (handleType : handle) (deltaX deltaY : R) (rendered : box) :
  g_svg g = Some (Some currentWidth, Some currentHeight) ->
  let b :=
    handleRectResize (mkMinShapeSize 20 20 20 20) handleType
      (fst (translation (g_transform g))) (snd (translation (g_transform g)))
      currentWidth currentHeight deltaX deltaY in
  handleGroupResize g handleType deltaX deltaY rendered
  = mkGroup (g_type g) (Some (box_x b, box_y b)) (g_background g)
            (g_arrow_line g) (Some (Some (box_width b), Some (box_height b)))
            rendered.
Proof.
  intros Hsvg. unfold handleGroupResize, handleRectResize. rewrite Hsvg.
  destruct (translation (g_transform g)) as [tx ty].
  destruct handleType; cbn -[Rmax Req_dec_T]; unfold Rminus;
    repeat match goal with
           | |- context [Req_dec_T ?a ?b] => destruct (Req_dec_T a b)
           end; reflexivity.
Qed.

(** X15.  An icon group is resized like a rectangle, with a minimum of 20
    for the icon: its bounds keep the edges across from the handle, also
    while the minimum holds it, and are at least 20 wide and 30 high (the
    bounds of an icon group are 10 higher than the icon). *)
Theorem resizing_an_icon_pivots (MIN_SHAPE_SIZE : MinShapeSize) (g : group)
    (iconWidth iconHeight : R) (handleType : handle)
    (dragOffset mouse : R * R) (rendered : box) (before after : Bounds) :
  iconOf g iconWidth iconHeight ->
  getShapeBounds (Group g) = Some before ->
  getShapeBounds
    (handleResize MIN_SHAPE_SIZE (Group g) handleType dragOffset mouse rendered)
  = Some after ->
  pivots handleType before after
  /\ 20 <= ShapeFactory.width after
  /\ 30 <= ShapeFactory.height after.
Proof.
  intros (Htype & Hsvg & Hw & Hh) Hb Ha.
  unfold handleResize in Ha.
  rewrite (handleGroupResize_as_rect g iconWidth iconHeight) in Ha
    by exact Hsvg.
  pose proof (handleRectResize_pivots (mkMinShapeSize 20 20 20 20) handleType
                (fst (translation (g_transform g)))
                (snd (translation (g_transform g)))
                iconWidth iconHeight
                (fst mouse - fst dragOffset) (snd mouse - snd dragOffset))
    as (Hx & Hy & Hwidth & Hheight).
  set (b := handleRectResize _ _ _ _ _ _ _ _) in *.
  simpl in Hwidth, Hheight.
  destruct g as [type transform background arrow svg content].
  simpl in Htype, Hsvg, Ha, Hb, Hx, Hy. subst type svg.
  unfold ciscoBounds in Ha, Hb. cbn -[or_default b] in Ha, Hb.
  destruct (translation transform) as [tx ty]. simpl in Hx, Hy.
  clearbody b.
  rewrite !or_default_nonzero in Ha by lra.
  rewrite !or_default_nonzero in Hb by assumption.
  injection Hb as <-. injection Ha as <-.
  unfold pivots. simpl.
  destruct (includesW handleType), (includesN handleType);
    repeat split; lra.
Qed.

Lemma resizing_an_icon_pivots_witness :
  let g := mkGroup GIcon (Some (100, 100)) None None
                   (Some (Some 60, Some 60)) (mkBox 0 0 60 70) in
  let MIN_SHAPE_SIZE := mkMinShapeSize 10 10 20 20 in
  iconOf g 60 60
  /\ pivots NW (ciscoBounds g)
        (ciscoBounds
           (handleGroupResize g NW (150 - 0) (0 - 0) (mkBox 0 0 20 70))).
Proof.
  intros g MIN_SHAPE_SIZE.
  assert (Hicon : iconOf g 60 60).
  { unfold iconOf. simpl. repeat split; try reflexivity; lra. }
  split; [exact Hicon |].
  apply (resizing_an_icon_pivots MIN_SHAPE_SIZE g 60 60 NW (0, 0) (150, 0)
           (mkBox 0 0 20 70) (ciscoBounds g)
           (ciscoBounds
              (handleGroupResize g NW (150 - 0) (0 - 0) (mkBox 0 0 20 70)))).
  - exact Hicon.
  - reflexivity.
  - reflexivity.
Defined.

End Resizing.

(** ** The selection: picking, dragging, deleting *)

Section Selecting.
Import SelectionMode.

Lemma lessThan_false (a b : R) : lessThan a b = false <-> b <= a.
Proof.
  unfold lessThan. destruct (Rlt_dec a b); split; intros; try lra;
    try reflexivity; discriminate.
Qed.

(** Two boxes of sizes that are not negative intersect, for
    [rectanglesIntersect], when they share a point. *)
Lemma rectanglesIntersect_shared (x1 y1 w1 h1 x2 y2 w2 h2 : R) :
  0 <= w1 -> 0 <= h1 -> 0 <= w2 -> 0 <= h2 ->
  rectanglesIntersect x1 y1 w1 h1 x2 y2 w2 h2 = true
  <-> exists p,
        inside (mkBox x1 y1 w1 h1) p /\ inside (mkBox x2 y2 w2 h2) p.
Proof.
  intros Hw1 Hh1 Hw2 Hh2. unfold rectanglesIntersect, inside. simpl.
  rewrite negb_true_iff, !orb_false_iff, !lessThan_false. split.
  - intros [[[H1 H2] H3] H4].
    exists (Rmax x1 x2, Rmax y1 y2). simpl.
    destruct (Rmax_cases x1 x2) as [[-> ?] | [-> ?]];
      destruct (Rmax_cases y1 y2) as [[-> ?] | [-> ?]];
      repeat split; lra.
  - intros ([px py] & Ha & Hb). simpl in Ha, Hb. repeat split; lra.
Qed.

(** X16.  Dragging out a selection rectangle from one corner to another
    selects exactly the shapes whose box shares a point with it, whichever
    corner the drag started from: a shape whose box has no negative size is
    in the selection when and only when some point lies both in the
    rectangle spanned by the two corners and in the box, which is the size
    [getBBox] reports at the translation of the element, or at the corner
    of [getBBox] when it has none. *)
Theorem selected_when_touched (d : document) (startPoint currentPoint : R * R)
    (id : string) (s : shape_element) :
  getShape d id = Some s ->
  0 <= box_width (getBBox (geometry s)) ->
  0 <= box_height (getBBox (geometry s)) ->
  id ∈ updateSelection d startPoint currentPoint
  <-> exists p,
        spanned startPoint currentPoint p
        /\ inside (selectionBox (geometry s)) p.
Proof.
  intros Hs Hw Hh. unfold updateSelection, highlightIntersectingShapes.
  rewrite elem_of_dom. unfold is_Some.
  assert (Hn : nodes d !! id = Some (ShapeNode s)).
  { unfold getShape in Hs. destruct (nodes d !! id) as [[| |] |];
      congruence. }
  assert (Hbox : box_width (selectionBox (geometry s))
                 = box_width (getBBox (geometry s))
                 /\ box_height (selectionBox (geometry s))
                    = box_height (getBBox (geometry s))).
  { unfold selectionBox.
    destruct (geometry s) as [| | | | g |]; try (split; reflexivity).
    destruct (g_transform g) as [[tx ty] |]; split; reflexivity. }
  destruct Hbox as [Ew Eh].
  assert (Hspan : forall p,
             spanned startPoint currentPoint p
             <-> inside (mkBox (Rmin (fst startPoint) (fst currentPoint))
                               (Rmin (snd startPoint) (snd currentPoint))
                               (Rabs (fst currentPoint - fst startPoint))
                               (Rabs (snd currentPoint - snd startPoint))) p).
  { intros p. unfold spanned, inside. simpl.
    assert (Hx : forall a b, Rmin a b + Rabs (b - a) = Rmax a b).
    { intros a b. unfold Rmin, Rmax, Rabs.
      destruct (Rle_dec a b), (Rcase_abs (b - a)); lra. }
    rewrite !Hx. reflexivity. }
  transitivity
    (rectanglesIntersect
       (Rmin (fst startPoint) (fst currentPoint))
       (Rmin (snd startPoint) (snd currentPoint))
       (Rabs (fst currentPoint - fst startPoint))
       (Rabs (snd currentPoint - snd startPoint))
       (box_x (selectionBox (geometry s))) (box_y (selectionBox (geometry s)))
       (box_width (selectionBox (geometry s)))
       (box_height (selectionBox (geometry s))) = true).
  - split.
    + intros [n Hf]. apply map_lookup_filter_Some in Hf as [Hn' Hi].
      rewrite Hn in Hn'. injection Hn' as <-. exact Hi.
    + intros Hi. exists (ShapeNode s). apply map_lookup_filter_Some.
      split; [exact Hn | exact Hi].
  - rewrite rectanglesIntersect_shared;
      [| apply Rabs_pos | apply Rabs_pos | rewrite Ew; exact Hw
       | rewrite Eh; exact Hh].
    split; intros (p & Ha & Hb); exists p.
    + split; [apply Hspan; exact Ha |].
      destruct (selectionBox (geometry s)); exact Hb.
    + split; [apply Hspan; exact Ha |].
      destruct (selectionBox (geometry s)); exact Hb.
Qed.

Lemma selected_when_touched_witness :
  "shape-2"%string ∈ updateSelection joinedSquares (260, 60) (240, 40).
Proof.
  apply (selected_when_touched joinedSquares (260, 60) (240, 40) "shape-2"
           (mkShapeElement (Rect 200 0 50 50) ["connection-1"%string])).
  - reflexivity.
  - simpl. lra.
  - simpl. lra.
  - exists (245, 45). unfold spanned, inside. simpl.
    unfold Rmin, Rmax.
    destruct (Rle_dec 260 240), (Rle_dec 60 40); repeat split; lra.
Defined.

End Selecting.

Section GroupDrag.
Import SelectionMode.

Lemma setShapePosition_twice (s : shape) (x y : R) :
  setShapePosition (setShapePosition s x y) x y = setShapePosition s x y.
Proof. destruct s; reflexivity. Qed.

Lemma startGroupDrag_from (d : document) (l : list string)
    (acc : gmap string (R * R)) (id : string) (s : shape_element) :
  getShape d id = Some s ->
  In id l \/ acc !! id = Some (getShapePosition (geometry s)) ->
  fold_left
    (fun positions shapeId =>
       match getShape d shapeId with
       | Some shape =>
           <[shapeId := getShapePosition (geometry shape)]> positions
       | None => positions
       end) l acc !! id
  = Some (getShapePosition (geometry s)).
Proof.
  intros Hs. revert acc. induction l as [| a l IH]; intros acc H; simpl.
  - destruct H as [[] | H]. exact H.
  - apply IH. destruct (decide (a = id)) as [-> | Hne].
    + right. rewrite Hs. apply lookup_insert_eq.
    + destruct H as [[E | H] | H]; [contradiction | left; exact H |].
      right. destruct (getShape d a); [| exact H].
      rewrite lookup_insert_ne by exact Hne. exact H.
Qed.

Lemma startGroupDrag_lookup (d : document) (ids : list string) (id : string)
    (s : shape_element) :
  In id ids -> getShape d id = Some s ->
  startGroupDrag d ids !! id = Some (getShapePosition (geometry s)).
Proof.
  intros Hin Hs. apply startGroupDrag_from; [exact Hs | left; exact Hin].
Qed.

(** A shape of the selection at the place the drag gives it. *)
Lemma moves_spec (d : document) (positions : gmap string (R * R))
    (dx dy : R) (l : list string) :
  (forall id s,
     In id l -> getShape d id = Some s ->
     positions !! id = Some (getShapePosition (geometry s))) ->
  forall (done : list string) (d1 : document),
    (forall id,
       (In id done -> getShape d1 id = dragged dx dy <$> getShape d id)
       /\ (~ In id done -> getShape d1 id = getShape d id)) ->
    sibling_labels d1 = sibling_labels d ->
    let d2 := fold_left (moveSelected positions dx dy) l d1 in
    (forall id,
       (In id (l ++ done) -> getShape d2 id = dragged dx dy <$> getShape d id)
       /\ (~ In id (l ++ done) -> getShape d2 id = getShape d id))
    /\ sibling_labels d2 = sibling_labels d.
Proof.
  intros Hpos. induction l as [| a l IH]; intros done d1 Hinv Hsib.
  - simpl. split; assumption.
  - simpl.
    assert (Hl : forall id s,
               In id l -> getShape d id = Some s ->
               positions !! id = Some (getShapePosition (geometry s))).
    { intros id s Hin. apply Hpos. right. exact Hin. }
    specialize (IH Hl (a :: done) (moveSelected positions dx dy d1 a)).
    assert (Hstep :
              (forall id,
                 (In id (a :: done) ->
                  getShape (moveSelected positions dx dy d1 a) id
                  = dragged dx dy <$> getShape d id)
                 /\ (~ In id (a :: done) ->
                     getShape (moveSelected positions dx dy d1 a) id
                     = getShape d id))
              /\ sibling_labels (moveSelected positions dx dy d1 a)
                 = sibling_labels d).
    { unfold moveSelected.
      destruct (Hinv a) as [Hin Hout].
      destruct (getShape d1 a) as [shape |] eqn:Hshape.
      - assert (Horig : exists s,
                   getShape d a = Some s
                   /\ (shape = s \/ shape = dragged dx dy s)).
        { destruct (in_dec string_dec a done) as [Hd | Hd].
          - specialize (Hin Hd). destruct (getShape d a) as [s |];
              [| discriminate].
            exists s. split; [reflexivity |]. right. simpl in Hin.
            congruence.
          - specialize (Hout Hd). exists shape. split; [| left; reflexivity].
            rewrite <- Hout. reflexivity. }
        destruct Horig as (s & Hs & Hshape').
        rewrite (Hpos a s (or_introl eq_refl) Hs).
        assert (Hnew : mkShapeElement
                         (setShapePosition (geometry shape)
                            (fst (getShapePosition (geometry s)) + dx)
                            (snd (getShapePosition (geometry s)) + dy))
                         (connections shape)
                       = dragged dx dy s).
        { destruct Hshape' as [-> | ->]; [reflexivity |].
          unfold dragged. simpl. rewrite setShapePosition_twice.
          reflexivity. }
        rewrite Hnew.
        split; [| exact Hsib].
        intros id. destruct (decide (a = id)) as [<- | Hne].
        + split; [| intros Hno; exfalso; apply Hno; left; reflexivity].
          intros _. unfold getShape, setNode. simpl.
          rewrite lookup_insert_eq.
          change (nodes d !! a) with (nodes d !! a).
          unfold getShape in Hs.
          destruct (nodes d !! a) as [[s0 | |] |]; try discriminate.
          injection Hs as ->. reflexivity.
        + destruct (Hinv id) as [Hin' Hout'].
          assert (Hid : getShape
                          (setNode d1 a (ShapeNode (dragged dx dy s))) id
                        = getShape d1 id).
          { unfold getShape, setNode. simpl.
            rewrite lookup_insert_ne by exact Hne. reflexivity. }
          rewrite Hid. split.
          * intros [E | Hd]; [contradiction | apply Hin'; exact Hd].
          * intros Hno. apply Hout'. intros Hd. apply Hno. right. exact Hd.
      - split; [| exact Hsib]. intros id.
        assert (Ha : getShape d a = None).
        { destruct (in_dec string_dec a done) as [Hd | Hd].
          - specialize (Hin Hd). destruct (getShape d a); [discriminate |].
            reflexivity.
          - rewrite <- (Hout Hd). reflexivity. }
        destruct (Hinv id) as [Hin' Hout']. split.
        + intros [<- | Hd]; [| apply Hin'; exact Hd].
          rewrite Hshape, Ha. reflexivity.
        + intros Hno. apply Hout'. intros Hd. apply Hno. right. exact Hd. }
    destruct Hstep as [Hinv' Hsib'].
    destruct (IH Hinv' Hsib') as [H1 H2]. split; [| exact H2].
    intros id. destruct (H1 id) as [Hin Hout]. split.
    + intros Hmem. apply Hin. apply in_app_iff.
      destruct Hmem as [<- | Hmem]; [right; left; reflexivity |].
      apply in_app_iff in Hmem as [Hmem | Hmem];
        [left; exact Hmem | right; right; exact Hmem].
    + intros Hno. apply Hout. intros Hmem. apply Hno.
      apply in_app_iff in Hmem as [Hmem | [<- | Hmem]].
      * right. apply in_app_iff. left. exact Hmem.
      * left. reflexivity.
      * right. apply in_app_iff. right. exact Hmem.
Qed.

Lemma updateShapeConnections_sameShapes (d : document) (shapeId : string) :
  sameShapes d (state (ConnectionManager.updateShapeConnections d shapeId)).
Proof.
  unfold ConnectionManager.updateShapeConnections.
  destruct (getShape d shapeId) as [shape |]; [| apply sameShapes_refl].
  generalize (connections shape). intros l. revert d.
  induction l as [| cid l IH]; intros d; simpl; [apply sameShapes_refl |].
  pose proof (updateConnection_sameShapes d cid) as Hstep.
  destruct (ConnectionManager.updateConnection d cid) as [d1 | d1];
    simpl in Hstep.
  - exact (sameShapes_trans d d1 _ Hstep (IH d1)).
  - exact Hstep.
Qed.

Lemma recomputeSelected_sameShapes (positions : gmap string (R * R))
    (l : list string) (d : document) :
  sameShapes d (fold_left (recomputeSelected positions) l d).
Proof.
  revert d. induction l as [| a l IH]; intros d; simpl;
    [apply sameShapes_refl |].
  eapply sameShapes_trans; [| apply IH].
  unfold recomputeSelected.
  destruct (getShape d a); [| apply sameShapes_refl].
  destruct (positions !! a); [| apply sameShapes_refl].
  apply updateShapeConnections_sameShapes.
Qed.

(** X17.  Dragging a selection moves every selected circle, ellipse,
    rectangle and group other than an arrow by the displacement of the
    pointer since the drag began, as a drag of the shape alone by that
    displacement does; a selected line stays where it is; the shapes
    outside the selection are not touched, and no shape label is moved,
    those of the dragged shapes included. *)
Theorem dragging_a_selection (d : document) (selectedShapes : list string)
    (dragStartPoint currentPoint : R * R) :
  let dx := fst currentPoint - fst dragStartPoint in
  let dy := snd currentPoint - snd dragStartPoint in
  let d' :=
    updateGroupDrag d selectedShapes (startGroupDrag d selectedShapes)
                    dragStartPoint currentPoint in
  (forall id s,
     In id selectedShapes -> getShape d id = Some s -> movable (geometry s) ->
     getShape d' id
     = Some (mkShapeElement (CanvasEvents.translate (geometry s) dx dy)
                            (connections s)))
  /\ (forall id s l,
        In id selectedShapes -> getShape d id = Some s ->
        geometry s = Line l -> getShape d' id = Some s)
  /\ (forall id, ~ In id selectedShapes -> getShape d' id = getShape d id)
  /\ sibling_labels d' = sibling_labels d.
Proof.
  intros dx dy d'.
  pose proof (moves_spec d (startGroupDrag d selectedShapes) dx dy
                selectedShapes
                (fun id s Hin Hs => startGroupDrag_lookup d _ id s Hin Hs)
                [] d) as Hmoves.
  destruct Hmoves as [Hshapes Hsib].
  { intros id. split; [intros [] | reflexivity]. }
  { reflexivity. }
  pose proof (recomputeSelected_sameShapes (startGroupDrag d selectedShapes)
                selectedShapes
                (fold_left
                   (moveSelected (startGroupDrag d selectedShapes) dx dy)
                   selectedShapes d)) as [Hsame Hlabels].
  fold dx dy in Hsame, Hlabels. 
  assert (Hd' : forall id,
             (In id selectedShapes ->
              getShape d' id = dragged dx dy <$> getShape d id)
             /\ (~ In id selectedShapes -> getShape d' id = getShape d id)).
  { intros id. destruct (Hshapes id) as [Hin Hout]. split.
    - intros H. unfold d', updateGroupDrag. fold dx dy. rewrite Hsame.
      apply Hin. apply in_app_iff. left. exact H.
    - intros H. unfold d', updateGroupDrag. fold dx dy. rewrite Hsame.
      apply Hout. rewrite app_nil_r. exact H. }
  split; [| split; [| split]].
  - intros id s Hin Hs Hmov. destruct (Hd' id) as [H _].
    rewrite (H Hin), Hs. simpl. f_equal. unfold dragged. f_equal.
    destruct (geometry s) as [| | | l | g |]; try reflexivity;
      [destruct Hmov |].
    simpl in Hmov. unfold CanvasEvents.translate. simpl.
    destruct (g_type g); [| contradiction |];
      destruct (translation (g_transform g)); reflexivity.
  - intros id s l Hin Hs Hline. destruct (Hd' id) as [H _].
    rewrite (H Hin), Hs. simpl. f_equal. unfold dragged.
    rewrite Hline. simpl. destruct s as [geom conns]. simpl in Hline.
    rewrite Hline. reflexivity.
  - intros id Hno. destruct (Hd' id) as [_ H]. exact (H Hno).
  - unfold d', updateGroupDrag. fold dx dy. rewrite Hlabels. exact Hsib.
Qed.

End GroupDrag.

Section DeletingSelection.
Import SelectionMode ConnectionManager.

Lemma deleteShapeConnections_subseteq (d : document) (shapeId : string) :
  nodes (deleteShapeConnections d shapeId) ⊆ nodes d.
Proof.
  unfold deleteShapeConnections. destruct (getShape d shapeId);
    [apply deleteListed_subseteq | reflexivity].
Qed.

Lemma deleteSelected_subseteq (l : list string) (d : document) :
  nodes (deleteSelectedShapes d l) ⊆ nodes d.
Proof.
  unfold deleteSelectedShapes. revert d.
  induction l as [| a l IH]; intros d; simpl; [reflexivity |].
  etransitivity; [apply IH |].
  destruct (nodes d !! a); [| reflexivity].
  etransitivity; [apply removeNode_subseteq |].
  apply deleteShapeConnections_subseteq.
Qed.

Lemma removeLabel_siblings (d : document) (o : option string) :
  sibling_labels (removeLabel d o) = sibling_labels d.
Proof.
  unfold removeLabel. destruct o as [id |]; [| reflexivity].
  destruct (truthy (Some id)); reflexivity.
Qed.

Lemma deleteShapeConnections_siblings (d : document) (shapeId : string) :
  sibling_labels (deleteShapeConnections d shapeId) = sibling_labels d.
Proof.
  unfold deleteShapeConnections. destruct (getShape d shapeId) as [s |];
    [| reflexivity].
  generalize (connections s). intros l. revert d.
  induction l as [| cid l IH]; intros d; simpl; [reflexivity |].
  rewrite IH. unfold deleteListedConnection.
  destruct (nodes d !! cid) as [n |]; [| reflexivity].
  destruct (match n with
            | ConnectionNode c =>
                (data_source_label_id c, data_target_label_id c,
                 data_center_label_id c)
            | _ => (None, None, None)
            end) as [[sourceLabelId targetLabelId] centerLabelId].
  rewrite !removeLabel_siblings. reflexivity.
Qed.

Lemma getShape_removeNode_ne (d : document) (gone id : string) :
  gone <> id -> getShape (removeNode d gone) id = getShape d id.
Proof.
  intros Hne. unfold getShape, removeNode. simpl.
  rewrite lookup_delete_ne by exact Hne. reflexivity.
Qed.

Lemma getShape_removeLabel (d : document) (o : option string) (id : string) :
  (forall lid, o = Some lid -> lid <> id) ->
  getShape (removeLabel d o) id = getShape d id.
Proof.
  intros Hne. unfold removeLabel. destruct o as [lid |]; [| reflexivity].
  destruct (truthy (Some lid)); [| reflexivity].
  apply getShape_removeNode_ne. apply Hne. reflexivity.
Qed.

Lemma getShape_weaken (d e : document) (id : string) (s : shape_element) :
  nodes e ⊆ nodes d -> getShape e id = Some s -> getShape d id = Some s.
Proof.
  intros Hsub He. unfold getShape in *.
  destruct (nodes e !! id) as [n |] eqn:Hn; [| discriminate].
  rewrite (lookup_weaken _ _ _ _ Hn Hsub). exact He.
Qed.

(** Deleting a connection that a shape of [d] lists never removes a
    shape. *)
Lemma deleteListedConnection_keeps_shapes (d e : document)
    (owner : string) (shape : shape_element) (cid id : string)
    (s : shape_element) :
  listsNoShapes d -> nodes e ⊆ nodes d ->
  getShape d owner = Some shape -> In cid (connections shape) ->
  getShape e id = Some s ->
  getShape (deleteListedConnection e cid) id = Some s.
Proof.
  intros Hwf Hsub Howner Hlisted Hs.
  destruct (Hwf owner shape cid Howner Hlisted) as [Hcid Hlabels].
  pose proof (getShape_weaken d e id s Hsub Hs) as Hd.
  assert (Hne : cid <> id) by congruence.
  unfold deleteListedConnection.
  destruct (nodes e !! cid) as [n |] eqn:Hn; [| exact Hs].
  assert (Hids : forall lid,
             In (Some lid)
                (match n with
                 | ConnectionNode c =>
                     [data_source_label_id c; data_target_label_id c;
                      data_center_label_id c]
                 | _ => [None; None; None]
                 end) -> lid <> id).
  { intros lid Hin. destruct n as [| c |];
      try (destruct Hin as [E | [E | [E | []]]]; discriminate).
    assert (Hc : getConnection d cid = Some c).
    { unfold getConnection. rewrite (lookup_weaken _ _ _ _ Hn Hsub).
      reflexivity. }
    pose proof (Hlabels c lid Hc Hin). congruence. }
  destruct n as [sn | c | l]; cbv beta iota zeta.
  - rewrite !getShape_removeLabel by (intros lid E; discriminate).
    rewrite getShape_removeNode_ne by exact Hne. exact Hs.
  - rewrite !getShape_removeLabel.
    + rewrite getShape_removeNode_ne by exact Hne. exact Hs.
    + intros lid E. apply Hids. rewrite <- E. left. reflexivity.
    + intros lid E. apply Hids. rewrite <- E. right. left. reflexivity.
    + intros lid E. apply Hids. rewrite <- E. right. right. left.
      reflexivity.
  - rewrite !getShape_removeLabel by (intros lid E; discriminate).
    rewrite getShape_removeNode_ne by exact Hne. exact Hs.
Qed.

Lemma deleteListed_keeps_shapes (d : document) (owner : string)
    (shape : shape_element) (l : list string) (e : document) (id : string)
    (s : shape_element) :
  listsNoShapes d -> nodes e ⊆ nodes d ->
  getShape d owner = Some shape -> (forall cid, In cid l -> In cid (connections shape)) ->
  getShape e id = Some s ->
  getShape (fold_left deleteListedConnection l e) id = Some s.
Proof.
  intros Hwf. revert e. induction l as [| cid l IH];
    intros e Hsub Howner Hl Hs; simpl; [exact Hs |].
  apply IH.
  - etransitivity; [apply deleteListedConnection_subseteq | exact Hsub].
  - exact Howner.
  - intros c Hc. apply Hl. right. exact Hc.
  - apply (deleteListedConnection_keeps_shapes d e owner shape);
      try assumption.
    apply Hl. left. reflexivity.
Qed.

(** What holds of every shape of [d] while the selection is deleted: it is
    still there as it was, or the connections it lists are gone. *)
Lemma deleteSelected_invariant (d : document) (l : list string)
    (e : document) :
  listsNoShapes d -> nodes e ⊆ nodes d ->
  (forall id s,
     getShape d id = Some s ->
     getShape e id = Some s
     \/ forall cid, In cid (connections s) -> nodes e !! cid = None) ->
  forall id s,
    getShape d id = Some s ->
    getShape (deleteSelectedShapes e l) id = Some s
    \/ forall cid,
         In cid (connections s) ->
         nodes (deleteSelectedShapes e l) !! cid = None.
Proof.
  intros Hwf. unfold deleteSelectedShapes. revert e.
  induction l as [| a l IH]; intros e Hsub Hinv; simpl; [exact Hinv |].
  apply IH.
  - destruct (nodes e !! a); [| exact Hsub].
    etransitivity; [apply removeNode_subseteq |].
    etransitivity; [apply deleteShapeConnections_subseteq | exact Hsub].
  - intros id s Hd.
    destruct (nodes e !! a) as [n |] eqn:Hn; [| exact (Hinv id s Hd)].
    destruct (Hinv id s Hd) as [He | Hgone].
    + destruct (decide (a = id)) as [-> | Hne].
      * right. intros cid Hcid.
        eapply lookup_weaken_None; [| apply removeNode_subseteq].
        unfold deleteShapeConnections. rewrite He.
        apply deleteListed_removes. exact Hcid.
      * left. rewrite getShape_removeNode_ne by exact Hne.
        unfold deleteShapeConnections.
        destruct (getShape e a) as [shape |] eqn:Ha; [| exact He].
        apply (deleteListed_keeps_shapes d a shape); try assumption.
        -- exact (getShape_weaken d e a shape Hsub Ha).
        -- intros cid Hcid. exact Hcid.
    + right. intros cid Hcid.
      eapply lookup_weaken_None; [exact (Hgone cid Hcid) |].
      etransitivity; [apply removeNode_subseteq |].
      apply deleteShapeConnections_subseteq.
Qed.

Lemma deleteSelected_removes (l : list string) (d : document) (id : string) :
  In id l -> nodes (deleteSelectedShapes d l) !! id = None.
Proof.
  revert d. induction l as [| a l IH]; intros d Hin; [destruct Hin |].
  destruct Hin as [-> | Hin]; [| apply IH; exact Hin].
  change (deleteSelectedShapes d (id :: l))
    with (deleteSelectedShapes
            (match nodes d !! id with
             | Some _ => removeNode (deleteShapeConnections d id) id
             | None => d
             end) l).
  eapply lookup_weaken_None; [| apply deleteSelected_subseteq].
  destruct (nodes d !! id) eqn:Hn; [| exact Hn].
  simpl. apply lookup_delete_eq.
Qed.

Lemma deleteSelected_siblings (l : list string) (d : document) :
  sibling_labels (deleteSelectedShapes d l) = sibling_labels d.
Proof.
  unfold deleteSelectedShapes. revert d.
  induction l as [| a l IH]; intros d; simpl; [reflexivity |].
  rewrite IH. destruct (nodes d !! a); [| reflexivity].
  simpl. apply deleteShapeConnections_siblings.
Qed.

(** X18.  The confirmed deletion of a selection removes every selected
    element, adds and changes nothing (what is left of the document is as
    it was, the back references of the shapes that are left included), and
    leaves the shape labels, those of the deleted shapes too.  In a
    document whose shapes list no shape as a connection or as the label of
    a listed connection, every connection listed by a selected shape is
    gone as well. *)
Theorem deleting_a_selection (d : document) (selectedShapes : list string) :
  let d' := deleteSelectedShapes d selectedShapes in
  (forall id, In id selectedShapes -> nodes d' !! id = None)
  /\ nodes d' ⊆ nodes d
  /\ sibling_labels d' = sibling_labels d
  /\ (listsNoShapes d ->
      forall id s cid,
        In id selectedShapes -> getShape d id = Some s ->
        In cid (connections s) -> nodes d' !! cid = None).
Proof.
  intros d'. split; [| split; [| split]].
  - intros id Hin. apply deleteSelected_removes. exact Hin.
  - apply deleteSelected_subseteq.
  - apply deleteSelected_siblings.
  - intros Hwf id s cid Hin Hs Hcid.
    destruct (deleteSelected_invariant d selectedShapes d Hwf
                (reflexivity _) (fun id s H => or_introl H) id s Hs)
      as [Hstill | Hgone].
    + pose proof (deleteSelected_removes selectedShapes d id Hin) as Hnone.
      unfold getShape in Hstill. rewrite Hnone in Hstill. discriminate.
    + apply Hgone. exact Hcid.
Qed.

End DeletingSelection.

(** ** The drag gesture *)

Section DragGesture.
Import Dragging.

Lemma updateSiblingLabelPosition_nodes (d : document) (shapeId : string)
    (s : shape) :
  nodes (updateSiblingLabelPosition d shapeId s) = nodes d.
Proof.
  unfold updateSiblingLabelPosition.
  destruct s; try reflexivity;
    destruct (sibling_labels d !! shapeId) as [labelEl |]; try reflexivity;
    destruct (data_position labelEl); reflexivity.
Qed.

(** One step of a drag: the shape is put where the pointer, less the
    offset, is; the other shapes stay. *)
Lemma handleShapeDragging_shape (st : DragState) (d : document)
    (shapeId : string) (shape : shape_element) (mouseX mouseY : R) :
  getShape d shapeId = Some shape ->
  let d' := state (handleShapeDragging st d shapeId mouseX mouseY) in
  getShape d' shapeId
  = Some (mkShapeElement
            (CanvasEvents.handleShapeDragging (geometry shape)
               (mouseX - dragOffsetX st) (mouseY - dragOffsetY st))
            (connections shape))
  /\ forall k, k <> shapeId -> getShape d' k = getShape d k.
Proof.
  intros Hs d'. unfold d', handleShapeDragging. rewrite Hs.
  match goal with
  | |- context [ConnectionManager.updateShapeConnections ?e shapeId] =>
      pose proof (updateShapeConnections_sameShapes e shapeId) as [Hsame _];
      set (d2 := e) in *
  end.
  assert (Hd2 : forall k,
             getShape d2 k
             = getShape
                 (setNode d shapeId
                    (ShapeNode
                       (mkShapeElement
                          (CanvasEvents.handleShapeDragging (geometry shape)
                             (mouseX - dragOffsetX st)
                             (mouseY - dragOffsetY st))
                          (connections shape)))) k).
  { intros k. unfold d2, getShape.
    rewrite updateSiblingLabelPosition_nodes. reflexivity. }
  split.
  - rewrite Hsame, Hd2. unfold getShape, setNode. simpl.
    rewrite lookup_insert_eq. reflexivity.
  - intros k Hk. rewrite Hsame, Hd2. unfold getShape, setNode. simpl.
    rewrite lookup_insert_ne by congruence. reflexivity.
Qed.

Lemma travel_as_computed (st : DragState) (press e : MouseEvent) :
  dragStartX st = clientX press -> dragStartY st = clientY press ->
  sqrt (Rabs (clientX e - dragStartX st) * Rabs (clientX e - dragStartX st)
        + Rabs (clientY e - dragStartY st) * Rabs (clientY e - dragStartY st))
  = travel press e.
Proof.
  intros -> ->. unfold travel. f_equal.
  assert (H : forall a, Rabs a * Rabs a = a * a).
  { intros a. unfold Rabs. destruct (Rcase_abs a); lra. }
  rewrite !H. reflexivity.
Qed.

Lemma startDragging_state (st : DragState) (v : viewport) (s : shape)
    (press : MouseEvent) :
  let st0 := startDragging st v s press in
  isMouseDown st0 = true
  /\ isDraggingShape st0 = isDraggingShape st
  /\ dragStartX st0 = clientX press
  /\ dragStartY st0 = clientY press.
Proof.
  unfold startDragging, pointer.
  destruct s as [| | | | g |]; try (repeat split; reflexivity).
  destruct (g_type g); try destruct (g_arrow_line g);
    try destruct (translation (g_transform g)); repeat split; reflexivity.
Qed.






(** A line, and an arrow that holds its line, are moved by the
    displacement of their midpoint. *)
Lemma handleShapeDragging_midpoint (s : shape) (l : segment)
    (a b newX newY : R) :
  held s l ->
  CanvasEvents.handleShapeDragging (CanvasEvents.translate s a b) newX newY
  = CanvasEvents.translate s (newX - fst (middle l)) (newY - snd (middle l)).
Proof.
  destruct s as [cx cy r | cx cy rx ry | x y w h | l0 | g | tag content];
    simpl; try contradiction.
  - intros <-. destruct l0 as [x1 y1 x2 y2].
    unfold CanvasEvents.translate, shift_segment, middle. simpl.
    unfold shift_segment. simpl. do 2 f_equal; lra.
  - intros [Htype Hline].
    destruct g as [type transform background arrow svg content].
    simpl in Htype, Hline. subst type arrow.
    destruct l as [x1 y1 x2 y2], content as [bx by_ bw bh].
    unfold CanvasEvents.translate, shift_segment, shift_box, middle. simpl.
    unfold shift_segment, shift_box. simpl.
    do 2 f_equal; [f_equal |]; f_equal; lra.
Qed.

Lemma translate_held_nowhere (s : shape) (l : segment) :
  held s l -> CanvasEvents.translate s 0 0 = s.
Proof.
  destruct s as [cx cy r | cx cy rx ry | x y w h | l0 | g | tag content];
    simpl; try contradiction.
  - intros <-. destruct l0 as [x1 y1 x2 y2].
    unfold CanvasEvents.translate, shift_segment. simpl.
    unfold shift_segment. simpl. do 2 f_equal; lra.
  - intros [Htype Hline].
    destruct g as [type transform background arrow svg content].
    simpl in Htype, Hline. subst type arrow.
    destruct l as [x1 y1 x2 y2], content as [bx by_ bw bh].
    unfold CanvasEvents.translate, shift_segment, shift_box. simpl.
    unfold shift_segment, shift_box. simpl.
    do 2 f_equal; [f_equal |]; f_equal; lra.
Qed.

Lemma handleShapeDragging_held (s : shape) (l : segment) (newX newY : R) :
  held s l ->
  CanvasEvents.handleShapeDragging s newX newY
  = CanvasEvents.translate s (newX - fst (middle l)) (newY - snd (middle l)).
Proof.
  intros Hheld.
  rewrite <- (translate_held_nowhere s l Hheld) at 1.
  apply handleShapeDragging_midpoint. exact Hheld.
Qed.



(** X21.  An arrow is not dragged from where it is.  At the first move
    beyond 3 pixels from the press the offset is taken from the translation
    of the group, so the midpoint of the arrow's line is put on that
    translation, the origin when the group has none, as the groups made by
    the toolbar; from then on every move puts it there displaced by what
    the pointer has travelled on the canvas since that first move. *)
Theorem an_arrow_is_dragged_from_its_translation (st : DragState)
    (v : viewport) (d : document) (shapeId : string) (s : shape_element)
    (g : group) (l : segment) (press first : MouseEvent) :
  getShape d shapeId = Some s -> geometry s = Group g ->
  g_type g = GArrow -> g_arrow_line g = Some l ->
  isDraggingShape st = false ->
  3 < travel press first ->
  let st0 := startDragging st v (geometry s) press in
  let jumpX := fst (translation (g_transform g)) - fst (middle l) in
  let jumpY := snd (translation (g_transform g)) - snd (middle l) in
  exists st1 o1,
    handleGlobalMouseMove st0 v d shapeId first = (st1, o1)
    /\ isDraggingShape st1 = true
    /\ getShape (state o1) shapeId = Some (displaced s jumpX jumpY)
    /\ forall (d2 : document) (a b : R) (e : MouseEvent),
         getShape d2 shapeId = Some (displaced s a b) ->
         exists o2,
           handleGlobalMouseMove st1 v d2 shapeId e = (st1, o2)
           /\ getShape (state o2) shapeId
              = Some (displaced s
                        (jumpX + (fst (pointer v e) - fst (pointer v first)))
                        (jumpY + (snd (pointer v e) - snd (pointer v first)))).
Proof.
  intros Hs Hgroup Htype Hline Hidle Hfar st0 jumpX jumpY.
  destruct (startDragging_state st v (geometry s) press)
    as (Hdown & Hdrag & Hx & Hy).
  fold st0 in Hdown, Hdrag, Hx, Hy. rewrite Hidle in Hdrag.
  assert (Hheld : held (geometry s) l).
  { rewrite Hgroup. split; assumption. }
  unfold handleGlobalMouseMove at 1.
  destruct (pointer v first) as [mouseX mouseY] eqn:Hfirst. rewrite Hs.
  rewrite Hdown, Hdrag. simpl andb. cbv iota.
  rewrite (travel_as_computed st0 press first Hx Hy).
  destruct (Rlt_dec dragThreshold (travel press first)) as [_ | Hnear];
    [| unfold dragThreshold in Hnear; lra].
  set (st1 := regrab st0 (geometry s) mouseX mouseY).
  assert (Hst1 : isDraggingShape st1 = true
                 /\ dragOffsetX st1
                    = mouseX - fst (translation (g_transform g))
                 /\ dragOffsetY st1
                    = mouseY - snd (translation (g_transform g))).
  { unfold st1, regrab. rewrite Hgroup.
    destruct (translation (g_transform g)). repeat split; reflexivity. }
  destruct Hst1 as (Hon & Hox & Hoy). rewrite Hon.
  exists st1, (handleShapeDragging st1 d shapeId mouseX mouseY).
  split; [reflexivity |]. split; [exact Hon |].
  destruct (handleShapeDragging_shape st1 d shapeId s mouseX mouseY Hs)
    as [Hat _].
  split.
  - rewrite Hat. unfold displaced.
    rewrite (handleShapeDragging_held _ l) by exact Hheld.
    rewrite Hox, Hoy. unfold jumpX, jumpY. do 3 f_equal; lra.
  - intros d2 a b e Hd2. unfold handleGlobalMouseMove.
    destruct (pointer v e) as [mx my]. rewrite Hd2. rewrite Hon.
    rewrite andb_false_r. rewrite Hon.
    exists (handleShapeDragging st1 d2 shapeId mx my).
    split; [reflexivity |].
    destruct (handleShapeDragging_shape st1 d2 shapeId (displaced s a b)
                mx my Hd2) as [Hat2 _].
    rewrite Hat2. unfold displaced at 1 2. simpl geometry.
    simpl connections.
    rewrite (handleShapeDragging_midpoint _ l) by exact Hheld.
    rewrite Hox, Hoy. unfold displaced, jumpX, jumpY. simpl fst. simpl snd.
    do 3 f_equal; lra.
Qed.

Lemma an_arrow_is_dragged_from_its_translation_witness :
  let st := mkDragState false false 0 0 0 0 in
  let v := mkViewport 0 0 1 in
  let press := mkMouseEvent 150 100 in
  let first := mkMouseEvent 160 100 in
  exists st1 o1,
    handleGlobalMouseMove (startDragging st v (geometry arrowElement) press) v
                          arrowScene "shape-1" first = (st1, o1)
    /\ getShape (state o1) "shape-1"
       = Some (displaced arrowElement (0 - (100 + 200) / 2)
                                      (0 - (100 + 100) / 2)).
Proof.
  intros st v press first.
  destruct (an_arrow_is_dragged_from_its_translation st v arrowScene "shape-1"
              arrowElement
              (mkGroup GArrow None None (Some (mkSegment 100 100 200 100))
                       None (mkBox 96 95 104 10))
              (mkSegment 100 100 200 100) press first)
    as (st1 & o1 & Hrun & _ & Hat & _).
  - reflexivity.
  - reflexivity.
  - reflexivity.
  - reflexivity.
  - reflexivity.
  - unfold travel. simpl.
    replace ((160 - 150) * (160 - 150) + (100 - 100) * (100 - 100))
      with (10 * 10) by lra.
    rewrite sqrt_square by lra. lra.
  - exists st1, o1. split; [exact Hrun | exact Hat].
Defined.

End DragGesture.

(** ** The labels of shapes *)

Section ShapeLabels.

Lemma or_default_zero (v : R) : or_default (Some v) 0 = v.
Proof.
  unfold or_default. destruct (Req_dec_T v 0) as [-> |]; reflexivity.
Qed.

Lemma sibling_label_eq (p : position) (x1 y1 x2 y2 : R) :
  x1 = x2 -> y1 = y2 -> mkSiblingLabel p x1 y1 = mkSiblingLabel p x2 y2.
Proof. intros -> ->. reflexivity. Qed.

(** X22.  The label of a shape is put at the same place by a drag of the
    shape and by an alignment or a distribution: for every shape whose
    sizes are not zero, the rule of the canvas events and the rule of the
    alignment module give the same document. *)
Theorem label_rules_agree (d : document) (shapeId : string) (s : shape) :
  sized s ->
  Dragging.updateSiblingLabelPosition d shapeId s
  = MultiShapeAlignment.updateSiblingLabel d shapeId s.
Proof.
  intros Hsized.
  unfold Dragging.updateSiblingLabelPosition,
    MultiShapeAlignment.updateSiblingLabel.
  destruct s as [cx cy r | cx cy rx ry | x y w h | l | g | tag content];
    try reflexivity; simpl in Hsized; simpl MultiShapeAlignment.isBasic;
    cbv iota;
    destruct (sibling_labels d !! shapeId) as [labelEl |]; try reflexivity.
  - rewrite !or_default_zero, (or_default_nonzero r) by exact Hsized.
    destruct (data_position labelEl); simpl;
      (f_equal; f_equal; apply sibling_label_eq; lra).
  - destruct Hsized as [Hrx Hry].
    rewrite !or_default_zero, (or_default_nonzero rx),
      (or_default_nonzero ry) by assumption.
    destruct (data_position labelEl); simpl;
      (f_equal; f_equal; apply sibling_label_eq; lra).
  - destruct Hsized as [Hw Hh].
    rewrite !or_default_zero, (or_default_nonzero w),
      (or_default_nonzero h) by assumption.
    destruct (data_position labelEl); simpl;
      (f_equal; f_equal; apply sibling_label_eq; lra).
Qed.

Lemma label_rules_agree_witness :
  let d :=
    mkDocument ∅ (<["shape-1"%string := mkSiblingLabel Above 0 0]> ∅) in
  Dragging.updateSiblingLabelPosition d "shape-1" (Rect 0 0 50 50)
  = MultiShapeAlignment.updateSiblingLabel d "shape-1" (Rect 0 0 50 50).
Proof.
  intros d.
  apply (label_rules_agree d "shape-1" (Rect 0 0 50 50)).
  simpl. split; lra.
Defined.

End ShapeLabels.

(** ** Dragging a connection label *)

Section DraggingLabels.
Import ShapeFactory ConnectionManager ConnectionCreation LabelDragging.

Lemma mouseMove_on_circle (center : R * R) (r : R) (l : label)
    (mouseX mouseY : R) :
  (mouseX, mouseY) <> center ->
  onCircleAt (mouseMove (mkDrag true (Some center) (Fin r)) l mouseX mouseY)
             center r (bearing center (mouseX, mouseY)).
Proof.
  intros Hp. unfold mouseMove, onCircleAt, bearing. simpl.
  destruct (cos_sin_atan2 (mouseY - snd center) (mouseX - fst center))
    as [Hc Hs].
  { exact (difference_nonzero center (mouseX, mouseY) Hp). }
  rewrite Hc, Hs. split; reflexivity.
Qed.

(** X23.  A label that carries its constraint data is dragged on its
    circle.  Pressing on it changes nothing in the document; every move of
    the pointer then puts the label on the circle of the stored radius
    around the stored centre, in the direction of the pointer from that
    centre (to the right of the centre when the pointer is on it), and
    leaves the constraint data as they are. *)
Theorem a_dragged_label_stays_on_its_circle (g : drag) (d : document)
    (l : label) (id connectionId : string) (labelType : label_type)
    (cx cy r mouseX mouseY : R) :
  data_constraint_center_x l = Some cx ->
  data_constraint_center_y l = Some cy ->
  data_constraint_radius l = Some r ->
  let pressed := mouseDown g d l id connectionId labelType in
  let l' := mouseMove (snd pressed) l mouseX mouseY in
  fst pressed = Done d
  /\ ((mouseX, mouseY) <> (cx, cy) ->
      onCircleAt l' (cx, cy) r (bearing (cx, cy) (mouseX, mouseY)))
  /\ ((mouseX, mouseY) = (cx, cy) -> onCircleAt l' (cx, cy) r (1, 0))
  /\ data_constraint_center_x l' = Some cx
  /\ data_constraint_center_y l' = Some cy
  /\ data_constraint_radius l' = Some r.
Proof.
  intros Hx Hy Hr pressed l'.
  assert (Hpressed : pressed = (Done d, mkDrag true (Some (cx, cy)) (Fin r))).
  { unfold pressed, mouseDown. rewrite Hx, Hy, Hr. reflexivity. }
  unfold l'. rewrite Hpressed. simpl fst. simpl snd.
  split; [reflexivity |]. split; [| split].
  - apply mouseMove_on_circle.
  - intros E. injection E as -> ->. unfold mouseMove, onCircleAt. simpl.
    replace (cx - cx) with 0 by lra. replace (cy - cy) with 0 by lra.
    unfold atan2.
    destruct (Rlt_dec 0 0) as [H | _]; [lra |].
    rewrite cos_0, sin_0. split; reflexivity.
  - unfold mouseMove. simpl. repeat split; assumption.
Qed.

Lemma a_dragged_label_stays_on_its_circle_witness :
  let l := mkLabel (Fin 85) (Fin 25) (Some 25) (Some 25) (Some 60) in
  let pressed :=
    mouseDown (mkDrag false None (Fin 0)) joinedSquares l
              "label-connection-1-source" "connection-1" SourceLabel in
  onCircleAt (mouseMove (snd pressed) l 25 25) (25, 25) 60 (1, 0).
Proof.
  intros l pressed.
  apply (a_dragged_label_stays_on_its_circle (mkDrag false None (Fin 0))
           joinedSquares l "label-connection-1-source" "connection-1"
           SourceLabel 25 25 60 25 25); reflexivity.
Defined.

(** X24.  A label without its constraint data gets a circle at the press.
    When the connection of the label is there and the shape at the label's
    end of it (the target for a centre label) has bounds, pressing on a
    label at a finite position stores, on the label, the centre of those
    bounds and as radius the distance of the label from that centre, 50 at
    least; every move of the pointer then puts the label on that circle, in
    the direction of the pointer. *)
Theorem a_legacy_label_gets_a_circle (g : drag) (d : document) (l : label)
    (id connectionId : string) (labelType : label_type) (c : connection)
    (shape : shape_element) (b : Bounds) (lx ly mouseX mouseY : R) :
  data_constraint_center_x l = None \/ data_constraint_center_y l = None
  \/ data_constraint_radius l = None ->
  label_x l = Fin lx -> label_y l = Fin ly ->
  getConnection d connectionId = Some c ->
  getShape d (match labelType with
              | SourceLabel => data_source c
              | _ => data_target c
              end) = Some shape ->
  getShapeBounds (geometry shape) = Some b ->
  let center := boxCenter b in
  let radius :=
    Rmax 50 (sqrt ((lx - fst center) * (lx - fst center)
                   + (ly - snd center) * (ly - snd center))) in
  let pressed := mouseDown g d l id connectionId labelType in
  let l' := mouseMove (snd pressed) l mouseX mouseY in
  50 <= radius
  /\ fst pressed
     = Done (setNode d id
               (LabelNode
                  (mkLabel (Fin lx) (Fin ly) (Some (fst center))
                           (Some (snd center)) (Some radius))))
  /\ ((mouseX, mouseY) <> center ->
      onCircleAt l' center radius (bearing center (mouseX, mouseY))).
Proof.
  intros Hmissing Hlx Hly Hc Hshape Hb center radius pressed l'.
  assert (Hfallback :
            pressed
            = (Done (setNode d id
                       (LabelNode
                          (mkLabel (Fin lx) (Fin ly) (Some (fst center))
                                   (Some (snd center)) (Some radius)))),
               mkDrag true (Some center) (Fin radius))).
  { unfold pressed, mouseDown.
    assert (Hradius :
              atLeast50 (distance (label_x l) (label_y l) (boxCenter b))
              = Fin radius).
    { rewrite Hlx, Hly. unfold distance, atLeast50, radius, center.
      destruct (Rlt_dec _ 50) as [Hlt | Hge].
      - rewrite Rmax_left by lra. reflexivity.
      - rewrite Rmax_right by lra. reflexivity. }
    destruct (data_constraint_center_x l) as [sx |] eqn:Hx;
      [destruct (data_constraint_center_y l) as [sy |] eqn:Hy;
       [destruct (data_constraint_radius l) as [sr |] eqn:Hr |] |];
      try (destruct Hmissing as [H | [H | H]]; discriminate);
      rewrite Hc, Hshape, Hb; cbv zeta; rewrite Hradius, Hlx, Hly;
      reflexivity. }
  split; [apply Rmax_l |].
  unfold l'. rewrite Hfallback. simpl fst. simpl snd.
  split; [reflexivity |].
  apply mouseMove_on_circle.
Qed.

Lemma a_legacy_label_gets_a_circle_witness :
  let l := mkLabel (Fin 55) (Fin 25) None None None in
  let radius :=
    Rmax 50 (sqrt ((55 - (0 + 50 / 2)) * (55 - (0 + 50 / 2))
                   + (25 - (0 + 50 / 2)) * (25 - (0 + 50 / 2)))) in
  fst (mouseDown (mkDrag false None (Fin 0)) joinedSquares l
                 "label-connection-1-source" "connection-1" SourceLabel)
  = Done (setNode joinedSquares "label-connection-1-source"
            (LabelNode
               (mkLabel (Fin 55) (Fin 25) (Some (0 + 50 / 2))
                        (Some (0 + 50 / 2)) (Some radius)))).
Proof.
  intros l radius.
  apply (a_legacy_label_gets_a_circle (mkDrag false None (Fin 0))
           joinedSquares l "label-connection-1-source" "connection-1"
           SourceLabel
           (mkConnection "shape-1" "shape-2"
              (Some anchoredEnds) (Some anchoredEnds)
              (Some "label-connection-1-source"%string)
              (Some "label-connection-1-target"%string)
              (Some "label-connection-1-center"%string))
           (mkShapeElement (Rect 0 0 50 50) ["connection-1"%string])
           (mkBounds 0 0 50 50 0 (0 + 50) 0 (0 + 50) (0 + 50 / 2)
                     (0 + 50 / 2))
           55 25 0 0); try reflexivity.
  left. reflexivity.
Defined.

End DraggingLabels.

(** ** Connecting from the overlay *)

Section Overlay.
Import ConnectionManager ConnectionCreation ShapeOverlay.

Lemma getConnection_setNode (d : document) (id : string) (n : node)
    (k : string) (c : connection) :
  getConnection (setNode d id n) k = Some c ->
  (k = id /\ n = ConnectionNode c) \/ getConnection d k = Some c.
Proof.
  unfold getConnection, setNode. simpl.
  destruct (decide (id = k)) as [<- | Hne].
  - rewrite lookup_insert_eq. destruct n as [| c' |]; try discriminate.
    intros E. injection E as ->. left. split; reflexivity.
  - rewrite lookup_insert_ne by exact Hne. intros H. right. exact H.
Qed.

Lemma getConnection_appendConnection (d : document) (shapeId cid k : string)
    (c : connection) :
  getConnection (appendConnection d shapeId cid) k = Some c ->
  getConnection d k = Some c.
Proof.
  unfold appendConnection. destruct (getShape d shapeId); [| tauto].
  intros H. apply getConnection_setNode in H as [[_ E] | H];
    [discriminate | exact H].
Qed.

(** The connections of a document after [createConnection]: those it had,
    and one from the source to the target. *)
Lemma createConnection_connections (st : AppState) (d : document)
    (sourceId targetId : string) (k : string) (c : connection) :
  getConnection (state (snd (createConnection st d sourceId targetId))) k
  = Some c ->
  (data_source c = sourceId /\ data_target c = targetId)
  \/ getConnection d k = Some c.
Proof.
  unfold createConnection.
  destruct (getNextConnectionId st) as [connectionId st'].
  destruct (getShape d sourceId) as [sourceShape |]; [| right; assumption].
  destruct (getShape d targetId) as [targetShape |]; [| right; assumption].
  destruct (ShapeFactory.getShapeBounds (geometry sourceShape))
    as [sourceBounds |]; [| right; assumption].
  destruct (ShapeFactory.getShapeBounds (geometry targetShape))
    as [targetBounds |]; [| right; assumption].
  destruct (findClosestPoints sourceBounds targetBounds)
    as [sourcePoint targetPoint].
  cbv zeta. simpl snd. simpl state. intros H.
  apply getConnection_appendConnection in H.
  apply getConnection_appendConnection in H.
  apply getConnection_setNode in H as [[_ E] | H]; [discriminate |].
  apply getConnection_setNode in H as [[_ E] | H]; [discriminate |].
  apply getConnection_setNode in H as [[_ E] | H]; [discriminate |].
  apply getConnection_setNode in H as [[_ E] | H]; [| right; exact H].
  injection E as <-. left. split; reflexivity.
Qed.

(** X25.  The overlay never connects a shape to itself.  While it waits
    for a target, a click on the source shape changes nothing: no id is
    issued, the document stays and the overlay keeps waiting.  And whatever
    is clicked, a document without a connection from a shape to itself has
    none afterwards. *)
Theorem the_overlay_never_connects_a_shape_to_itself (ov : overlay)
    (st : AppState) (d : document) (targetShape : string) :
  noSelfConnection d ->
  (overlaySourceShape ov = Some targetShape ->
   handleTargetShapeClick ov st d targetShape = (ov, st, Done d))
  /\ noSelfConnection (state (snd (handleTargetShapeClick ov st d targetShape))).
Proof.
  intros Hno. split.
  - intros Hsource. unfold handleTargetShapeClick. rewrite Hsource.
    destruct (negb (isWaitingForTarget ov)); [reflexivity |].
    destruct (decide (targetShape = targetShape)); [reflexivity |].
    contradiction.
  - unfold handleTargetShapeClick.
    destruct (negb (isWaitingForTarget ov)); [exact Hno |].
    destruct (overlaySourceShape ov) as [sourceShape |] eqn:Hsource;
      [| exact Hno].
    destruct (decide (targetShape = sourceShape)) as [_ | Hne];
      [exact Hno |].
    unfold finishConnectionWithTarget. rewrite Hsource.
    pose proof (createConnection_connections st d sourceShape targetShape)
      as Hnew.
    destruct (createConnection st d sourceShape targetShape) as [st' [d' | d']];
      simpl in *; intros cid c Hc;
      (destruct (Hnew cid c Hc) as [[-> ->] | Hold];
       [congruence | exact (Hno cid c Hold)]).
Qed.

Lemma the_overlay_never_connects_a_shape_to_itself_witness :
  handleTargetShapeClick (mkOverlay (Some "shape-1"%string) true)
                         (mkAppState 2 1) joinedSquares "shape-1"
  = (mkOverlay (Some "shape-1"%string) true, mkAppState 2 1,
     Done joinedSquares).
Proof.
  apply (the_overlay_never_connects_a_shape_to_itself
           (mkOverlay (Some "shape-1"%string) true) (mkAppState 2 1)
           joinedSquares "shape-1").
  - intros cid c Hc. unfold getConnection in Hc.
    destruct (nodes joinedSquares !! cid) as [n |] eqn:Hn; [| discriminate].
    apply elem_of_list_to_map_2 in Hn.
    repeat (apply elem_of_cons in Hn as [Hn | Hn];
            [injection Hn as -> ->; try discriminate;
             injection Hc as <-; simpl; discriminate |]).
    apply elem_of_nil in Hn. contradiction.
  - reflexivity.
Defined.

End Overlay.

(** ** The zoom level *)

Section Zooming.
Import Zoom.

Lemma handleKeyDown_in_range (c : ZoomConfig) (z : R) (key : zoomKey) :
  sensible c -> MIN c <= z <= MAX c ->
  MIN c <= handleKeyDown c z key <= MAX c.
Proof.
  intros (Hstep & Hmin & Hdefault) Hz.
  destruct key; unfold handleKeyDown, zoomIn, zoomOut, resetZoom.
  - assert (z <= z * STEP c) by nra.
    unfold Rmin. destruct (Rle_dec (z * STEP c) (MAX c)); lra.
  - assert (z / STEP c <= z).
    { apply Rmult_le_reg_r with (STEP c); [lra |].
      unfold Rdiv. rewrite Rmult_assoc, Rinv_l by lra. nra. }
    unfold Rmax. destruct (Rle_dec (z / STEP c) (MIN c)); lra.
  - exact Hdefault.
Qed.

(** X26.  With a step of at least 1 and a positive range that holds the
    default, the zoom level never leaves the range, whatever zoom keys are
    pressed, so it stays positive; and zooming out undoes zooming in as
    long as the maximum is not reached. *)
Theorem the_zoom_stays_in_range (c : ZoomConfig) (z : R)
    (keys : list zoomKey) :
  sensible c -> MIN c <= z <= MAX c ->
  MIN c <= fold_left (handleKeyDown c) keys z <= MAX c
  /\ 0 < fold_left (handleKeyDown c) keys z
  /\ (z * STEP c <= MAX c -> zoomOut c (zoomIn c z) = z).
Proof.
  intros Hc Hz.
  assert (Hrange : MIN c <= fold_left (handleKeyDown c) keys z <= MAX c).
  { revert z Hz. induction keys as [| key keys IH]; intros z Hz; simpl;
      [exact Hz |].
    apply IH. apply handleKeyDown_in_range; assumption. }
  destruct Hc as (Hstep & Hmin & Hdefault).
  split; [exact Hrange |]. split; [lra |].
  intros Hfree. unfold zoomOut, zoomIn.
  rewrite Rmin_left by exact Hfree.
  replace (z * STEP c / STEP c) with z by (field; lra).
  apply Rmax_left. lra.
Qed.

Lemma the_zoom_stays_in_range_witness :
  let c := mkZoomConfig 2 4 (1 / 4) 1 in
  MIN c <= fold_left (handleKeyDown c) [Plus; Plus; Plus; Minus; Zero] 1
  <= MAX c.
Proof.
  intros c.
  apply (the_zoom_stays_in_range c 1 [Plus; Plus; Plus; Minus; Zero]).
  - unfold sensible, c. simpl. lra.
  - unfold c. simpl. lra.
Defined.

End Zooming.
